(** * CUBDLRNN: the Tensor container and the reduction kernels

    A shallow embedding of [src/math/math.cu]: the [frnn::Tensor] class
    (constructors, [size], [operator[]], the call-style multi-index
    accessor) and the CUDA kernels ([xpny], [warpReduce], [warpReduceAll],
    [blockReduce], [blockReduceAll], [blockReduceAtomicVectorized],
    [blockReduceAtomicVectorizedAll], [blockScatter], [softmaxKernel]), with
    the properties the specification states about them and further
    properties read off the code. *)

From Stdlib Require Import ZArith Lia Permutation.
From stdpp Require Import base tactics option list numbers sorting.

Local Open Scope Z_scope.

(** ** Machine integers

    [int] is a 32-bit two's complement integer, [unsigned int] (the
    components of [blockIdx], [blockDim], [threadIdx] and [gridDim]) a
    32-bit unsigned one, and [size_type] (the containers' [size_type],
    whose typedef is in [tensor_expressions.h], not among the sources at
    hand) and [size_t] 64-bit unsigned ones.  Values are kept as [Z]; every
    conversion and every arithmetic result is wrapped explicitly. *)
Module Machine.

Definition int_min : Z := - 2 ^ 31.
Definition int_max : Z := 2 ^ 31 - 1.
Definition size_modulus : Z := 2 ^ 64.

(** Conversion to [int] (wrap-around into [int_min .. int_max]). *)
Definition to_int (z : Z) : Z := (z + 2 ^ 31) mod 2 ^ 32 - 2 ^ 31.

(** Conversion to [size_type] (reduction modulo [2^64]). *)
Definition to_size (z : Z) : Z := z mod size_modulus.

(** Conversion to [unsigned int] (reduction modulo [2^32]). *)
Definition to_uint (z : Z) : Z := z mod 2 ^ 32.

Definition int_range (z : Z) : Prop := int_min <= z <= int_max.

End Machine.
Import Machine.

(** ** The Tensor class *)
Module Tensors.

(** The two streams the accessors report to. *)
Inductive Stream := cout | cerr.

(** The exception objects that are thrown and caught on the spot; only the
    constructor arguments are recorded. *)
Inductive TensorException :=
| TensorOutOfRange (dim limit idx : Z)      (* three-argument form *)
| TensorOutOfRangeDim (dim rank : Z)        (* two-argument form *)
| TensorInvalidArguments (given expected : Z).

Definition Log := list (Stream * TensorException).

Record Tensor (T : Type) := mkTensor {
  _data : list T;              (* container_type _data *)
  _dimensions : list Z;        (* std::vector<size_type> _dimensions *)
  _counter : Z;                (* size_type _counter *)
  _offset : Z                  (* size_type _offset *)
}.
Arguments mkTensor {T} _ _ _ _.
Arguments _data {T} _.
Arguments _dimensions {T} _.
Arguments _counter {T} _.
Arguments _offset {T} _.

(** What a call of an accessor leaves behind: the tensor (its scratch
    fields may have changed), what was printed, and the flat position in
    [_data] of the element whose reference is returned. *)
Record Access (T : Type) := mkAccess {
  after : Tensor T;
  printed : Log;
  position : Z
}.
Arguments mkAccess {T} _ _ _.
Arguments after {T} _.
Arguments printed {T} _.
Arguments position {T} _.

(** [std::accumulate(first, last, 1, std::multiplies<int>())]: the
    accumulator has the type of the initial value, [int]; every element is
    converted to [int] before it is multiplied in. *)
Definition accumulate_multiplies_int (l : list Z) : Z :=
  foldl (fun acc d => to_int (acc * to_int d)) 1 l.

(** [std::accumulate(first, last, 1, std::multiplies<size_type>())]: the
    product is formed in [size_type], the accumulator is still an [int]. *)
Definition accumulate_multiplies_size (l : list Z) : Z :=
  foldl (fun acc d => to_int (to_size (to_size acc * d))) 1 l.

(** The range [_dimensions.begin() .. _dimensions.end() - k]; there is no
    such range when [k] exceeds the number of dimensions. *)
Definition dims_before_end (dims : list Z) (k : nat) : option (list Z) :=
  if decide (k <= length dims)%nat
  then Some (take (length dims - k) dims) else None.

Section Accessors.
Context {T : Type}.
Variable R : Z.                 (* template parameter: the rank *)

Definition set_counter (c : Z) (t : Tensor T) : Tensor T :=
  mkTensor (_data t) (_dimensions t) c (_offset t).
Definition set_offset (o : Z) (t : Tensor T) : Tensor T :=
  mkTensor (_data t) (_dimensions t) (_counter t) o.

(** [size()] *)
Definition size (t : Tensor T) : Z := Z.of_nat (length (_data t)).

(** [size(const int dim)]: the value returned and what was printed;
    [None] when [_dimensions[dim]] lies outside the vector. *)
Definition size_dim (t : Tensor T) (dim : Z) : option (Z * Log) :=
  if decide (R <= to_size dim)
  then Some (0, [(cout, TensorOutOfRangeDim dim R)])
  else d ← _dimensions t !! Z.to_nat dim; Some (d, []).

(** [rank()], [dimSizes()], [data()] *)
Definition rank (t : Tensor T) : Z := R.
Definition dimSizes (t : Tensor T) : list Z := _dimensions t.
Definition data (t : Tensor T) : list T := _data t.

(** [operator[](size_type i)]: reading, and writing through the returned
    reference. *)
Definition get (t : Tensor T) (i : nat) : option T := _data t !! i.
Definition put (t : Tensor T) (i : nat) (v : T) : option (Tensor T) :=
  if decide (i < length (_data t))%nat
  then Some (mkTensor (<[i:=v]> (_data t)) (_dimensions t)
                      (_counter t) (_offset t))
  else None.

(** [operator()(I idx)], the terminating case.  Indices are [int]s.  The
    [const] overloads have the same bodies as the ones modelled here (they
    update the scratch fields all the same), so one model serves both.
    [None] stands for an access that reads [_dimensions] outside the
    vector. *)
Definition call_last (t : Tensor T) (idx : Z) : option (Access T) :=
  limit ← _dimensions t !! Z.to_nat (_counter t);
  if decide (limit <= to_size idx) then
    Some (mkAccess (set_counter 0 t)
            [(cerr, TensorOutOfRange (to_size (_counter t + 1)) limit idx)]
            0)
  else
    let log := if decide (_counter t = 0)
               then [(cerr, TensorInvalidArguments 1 R)] else [] in
    pre ← dims_before_end (_dimensions t) 1;
    let off := to_size (_offset t +
                        to_size (to_int (accumulate_multiplies_int pre * idx))) in
    Some (mkAccess (set_counter 0 (set_offset off t)) log off).

(** [operator()(I idx, Is... indices)]: the variadic case when [indices]
    is not empty, the terminating case when it is. *)
Fixpoint call (t : Tensor T) (idx : Z) (indices : list Z)
  : option (Access T) :=
  match indices with
  | [] => call_last t idx
  | next :: rest =>
      let num_args := Z.of_nat (length indices) in
      limit ← _dimensions t !! Z.to_nat (_counter t);
      if decide (limit <= to_size idx) then
        Some (mkAccess (set_counter 0 t)
                [(cout, TensorOutOfRange (to_size (_counter t + 1)) limit idx)]
                0)
      else
        let t1 := set_counter (to_size (_counter t + 1)) t in
        if decide (_counter t = 0) then
          if decide (to_size (to_int (num_args + 1)) <> R) then
            Some (mkAccess t1
                    [(cerr, TensorInvalidArguments (to_int (num_args + 1)) R)]
                    0)
          else call (set_offset (to_size idx) t1) next rest
        else
          pre ← dims_before_end (_dimensions t) (length indices + 1);
          let off := to_size (_offset t +
                              to_size (to_int (accumulate_multiplies_int pre * idx))) in
          call (set_offset off t1) next rest
  end.

(** What a caller can see of an access, apart from the buffer. *)
Definition observe (a : Access T) : Log * Z * Z * Z :=
  (printed a, position a, _counter (after a), _offset (after a)).

End Accessors.

(** *** Construction *)

(** Modelled from the spec: the [ASSERT(a, ==, b)] macro, whose definition
    is in a header that is not among the sources at hand.  A failed
    assertion makes the construction fail. *)
Definition ASSERT_eq (a b : Z) : option unit :=
  if decide (a = b) then Some () else None.

(** What the expression constructor uses of a [TensorExpression]:
    [size()], [dimSizes()] and [operator[]]. *)
Record TensorExpression (T : Type) := mkExpression {
  expr_size : nat;
  expr_dimSizes : list Z;
  expr_at : nat -> T
}.
Arguments mkExpression {T} _ _ _.
Arguments expr_size {T} _.
Arguments expr_dimSizes {T} _.
Arguments expr_at {T} _ _.

Section Constructors.
Context {T : Type}.
Variable R : Z.
Variable T0 : T.                (* a value-initialised element, [T()] *)

(** [Tensor()] *)
Definition Tensor_default : Tensor T :=
  mkTensor [] (replicate (Z.to_nat R) 0) 0 0.

(** [Tensor(std::initializer_list<int> dimensions)].  A negative element
    count, once converted to [size_type], is beyond what a container can
    hold: the allocation throws and no tensor is built. *)
Definition Tensor_of_dimensions (dimensions : list Z) : option (Tensor T) :=
  let n := accumulate_multiplies_int dimensions in
  if decide (n < 0) then None
  else
    _ ← ASSERT_eq (Z.of_nat (length dimensions)) R;
    Some (mkTensor (replicate (Z.to_nat n) T0) (to_size <$> dimensions) 0 0).

(** [Tensor(TensorExpression<T,E> const& expression)] *)
Definition Tensor_of_expression (e : TensorExpression T) : Tensor T :=
  mkTensor (expr_at e <$> seq 0 (expr_size e)) (expr_dimSizes e) 0 0.

(** [Tensor(std::vector<size_type>& dimensions, container_type& data)] *)
Definition Tensor_of_buffer (dimensions : list Z) (data : list T)
  : option (Tensor T) :=
  _ ← ASSERT_eq (Z.of_nat (length dimensions)) R;
  _ ← ASSERT_eq (Z.of_nat (length data))
                (to_size (accumulate_multiplies_size dimensions));
  Some (mkTensor data dimensions 0 0).

End Constructors.

(** *** The quantities the specification speaks of *)

Definition product (l : list Z) : Z := foldr Z.mul 1 l.
Definition total (l : list Z) : Z := foldr Z.add 0 l.

(** The class invariant of the specification. *)
Definition invariant {T : Type} (R : Z) (t : Tensor T) : Prop :=
  Z.of_nat (length (_data t)) = product (_dimensions t) /\
  Z.of_nat (length (_dimensions t)) = R.

(** The offset formula as the specification words it: the stride of a
    dimension is the product of the sizes of all later dimensions. *)
Definition stride_spec (dims : list Z) (d : nat) : Z := product (drop (S d) dims).
Definition offset_spec (dims idx : list Z) : Z :=
  total (imap (fun d i => i * stride_spec dims d) idx).

(** The same sum with the stride of a dimension taken as the product of the
    sizes of all earlier dimensions (the first index varies fastest). *)
Definition stride_first (dims : list Z) (d : nat) : Z := product (take d dims).
Definition offset_first (dims idx : list Z) : Z :=
  total (imap (fun d i => i * stride_first dims d) idx).

(** The same sum, accumulated from the first dimension on: [p] is the
    stride of the dimension at the head of [dims]. *)
Fixpoint offset_from (p : Z) (dims idx : list Z) : Z :=
  match dims, idx with
  | d :: ds, i :: rest => i * p + offset_from (p * d) ds rest
  | _, _ => 0
  end.

(** Every index lies within its dimension, one index per dimension. *)
Definition in_range (dims idx : list Z) : Prop :=
  Forall2 (fun i d => 0 <= i < d) idx dims.

(** *** The reference an access returns *)

(** Reading through the reference an access returns: [_data[_offset]] (or
    [_data[0]]) of the tensor as the access left it; [None] when the buffer
    has no such element. *)
Definition element {T : Type} (a : Access T) : option T :=
  get (after a) (Z.to_nat (position a)).

(** Assigning through the reference: [t(idx, indices...) = v]. *)
Definition assign {T : Type} (a : Access T) (v : T) : option (Tensor T) :=
  put (after a) (Z.to_nat (position a)) v.

End Tensors.

(** ** The kernels *)
Module Kernels.

(** The built-in [warpSize]. *)
Definition warpSize : nat := 32.

(** The offsets [for (offset = start; offset > 0; offset /= 2)] runs
    through; [fuel] bounds the number of iterations. *)
Fixpoint halving (fuel offset : nat) : list nat :=
  match fuel with
  | O => []
  | S fuel' =>
      if decide (0 < offset)%nat
      then offset :: halving fuel' (offset / 2) else []
  end.

Definition shuffle_offsets : list nat := halving warpSize (warpSize / 2).

(** [blockIdx.x * blockDim.x + threadIdx.x], computed in [unsigned int]
    and stored in an [int]. *)
Definition thread_index (blockDim b t : nat) : Z :=
  to_int (to_uint (Z.of_nat b * Z.of_nat blockDim + Z.of_nat t)).

(** All threads of a launch, block by block. *)
Definition grid_threads (gridDim blockDim : nat) : list (nat * nat) :=
  b ← seq 0 gridDim; t ← seq 0 blockDim; [(b, t)].

Section Reduction.
Context {dType : Type}.
Variable zero : dType.                       (* dType( 0 ) *)
Variable plus : dType -> dType -> dType.     (* operator+ *)

(** A register or a shared-memory slot holds a value or is undefined
    ([None]): never written, or read from a lane that does not run. *)
Definition vplus (a b : option dType) : option dType :=
  x ← a; y ← b; Some (plus x y).

(** The lanes of a warp are the list of the registers of its running
    threads. *)
Definition lane_value (vals : list (option dType)) (lane : nat)
  : option dType := mjoin (vals !! lane).

(** [__shfl_down( val, delta )] as seen by [lane]: the value of lane
    [lane + delta] when that is below the warp width, its own otherwise. *)
Definition shfl_down (vals : list (option dType)) (lane delta : nat)
  : option dType :=
  if decide (lane + delta < warpSize)%nat
  then lane_value vals (lane + delta) else lane_value vals lane.

(** [__shfl_xor( val, laneMask )] as seen by [lane]. *)
Definition shfl_xor (vals : list (option dType)) (lane laneMask : nat)
  : option dType :=
  if decide (Nat.lxor lane laneMask < warpSize)%nat
  then lane_value vals (Nat.lxor lane laneMask) else lane_value vals lane.

(** One iteration of the loop, all lanes in lockstep:
    [val += shfl( val, offset )]. *)
Definition warp_step
    (shfl : list (option dType) -> nat -> nat -> option dType)
    (vals : list (option dType)) (offset : nat) : list (option dType) :=
  imap (fun lane val => vplus val (shfl vals lane offset)) vals.

Definition warpReduce (vals : list (option dType)) : list (option dType) :=
  foldl (warp_step shfl_down) vals shuffle_offsets.

Definition warpReduceAll (vals : list (option dType)) : list (option dType) :=
  foldl (warp_step shfl_xor) vals shuffle_offsets.

(** The registers of the threads of warp [wid] of a block. *)
Definition warp_of (vals : list (option dType)) (wid : nat)
  : list (option dType) := take warpSize (drop (wid * warpSize) vals).

(** The warps of a block that have a thread. *)
Definition warps_of_block (blockDim : nat) : list nat :=
  seq 0 ((blockDim + warpSize - 1) / warpSize).

(** [blockReduce( val )] for all threads of a block at once: [vals] are
    the arguments of the threads [0 .. blockDim - 1], the result their
    return values. *)
Definition blockReduce (blockDim : nat) (vals : list (option dType))
  : list (option dType) :=
  (* val = warpReduce( val ); if ( lane == 0 ) shared[ wid ] = val; *)
  let shared :=
    foldl (fun sh wid => <[wid := lane_value (warpReduce (warp_of vals wid)) 0]> sh)
          (replicate 32 None) (warps_of_block blockDim) in
  (* val = ( threadIdx.x < blockDim.x / warpSize ) ? shared[ lane ] : 0; *)
  let vals' :=
    (fun tid => if decide (tid < blockDim / warpSize)%nat
                then lane_value shared (tid mod warpSize)
                else Some zero) <$> seq 0 blockDim in
  (* if ( wid == 0 ) val = warpReduce( val ); *)
  warpReduce (warp_of vals' 0) ++ drop warpSize vals'.

Section Grid.
Variables blockDim gridDim : nat.          (* the launch *)
Variable input : list dType.               (* in *)
Variable N : Z.

(** The vectorised loop of one thread, [i] and [sum] as they stand
    before the test [i < ( N / 2 )]; [None] when [fuel] iterations do not
    reach the exit, or when an element outside [in] was read. *)
Fixpoint vector_loop (fuel : nat) (i : Z) (sum : option dType)
  : option dType :=
  match fuel with
  | O => None
  | S fuel' =>
      if decide (to_size i < N / 2) then
        let x := input !! Z.to_nat (2 * i) in
        let y := input !! Z.to_nat (2 * i + 1) in
        vector_loop fuel'
          (to_int (to_uint (to_uint i +
                            to_uint (Z.of_nat blockDim * Z.of_nat gridDim))))
          (vplus sum (vplus x y))
      else sum
  end.

(** The value a thread hands to [blockReduce]. *)
Definition thread_sum (b t : nat) : option dType :=
  let idx := thread_index blockDim b t in
  let sum := vector_loop (S (Z.to_nat (N / 2))) idx (Some zero) in
  let i := to_int (to_size (to_size idx + N / 2 * 2)) in
  if decide (to_size i < N) then vplus sum (input !! Z.to_nat i) else sum.

(** What thread 0 of block [b] adds to [*out]. *)
Definition block_sum (b : nat) : option dType :=
  lane_value (blockReduce blockDim (thread_sum b <$> seq 0 blockDim)) 0.

(** [blockReduceAtomicVectorized<<<gridDim, blockDim>>>( in, out, N )]:
    the final [*out], the blocks' [atomicAdd]s taking effect in the
    order [schedule]. *)
Definition blockReduceAtomicVectorized (schedule : list nat) (out : dType)
  : option dType :=
  foldl (fun acc b => vplus acc (block_sum b)) (Some out) schedule.

End Grid.

(** The sum of a list of values. *)
Definition Sum (l : list dType) : dType := foldr plus zero l.

End Reduction.

Section Elementwise.
Context {dType : Type}.
Variable f : dType -> dType.                 (* the functor F *)
Variable div : dType -> dType -> dType.      (* operator/ *)

(** Running the threads of [schedule] one after the other over a buffer;
    [None] once a thread has touched memory outside a buffer. *)
Definition run_threads {A : Type} (thread : A -> list dType -> option (list dType))
    (schedule : list A) (buffer : list dType) : option (list dType) :=
  foldl (fun buf a => buf ≫= thread a) (Some buffer) schedule.

(** One thread of [softmaxKernel]. *)
Definition softmax_thread (blockDim : nat) (input : list dType) (N : Z)
    (bt : nat * nat) (out : list dType) : option (list dType) :=
  let idx := thread_index blockDim bt.1 bt.2 in
  if decide (to_size idx < N) then
    x ← input !! Z.to_nat idx;
    y ← out !! Z.to_nat idx;
    Some (<[Z.to_nat idx := div (f x) y]> out)
  else Some out.

(** [softmaxKernel<<<gridDim, blockDim>>>( in, out, N, f )] with the
    threads taking effect in the order [schedule]. *)
Definition softmaxKernel (blockDim : nat) (input : list dType) (N : Z)
    (schedule : list (nat * nat)) (out : list dType) : option (list dType) :=
  run_threads (softmax_thread blockDim input N) schedule out.

(** One block of [blockScatter]: thread 0 fills [shared[ 0 ]], and after
    the barrier every thread stores it. *)
Definition scatter_block (blockDim : nat) (N : Z) (b : nat)
    (data : list dType) : option (list dType) :=
  let idx0 := thread_index blockDim b 0 in
  shared ←
    (if decide (b < blockDim)%nat then data !! Z.to_nat idx0
     else data !! Z.to_nat (to_uint (to_uint idx0 -
                                       to_uint (Z.of_nat blockDim * Z.of_nat b))));
  run_threads
    (fun t buf =>
       let idx := thread_index blockDim b t in
       if decide (to_size idx < N) then
         if decide (Z.to_nat idx < length buf)%nat
         then Some (<[Z.to_nat idx := shared]> buf) else None
       else Some buf)
    (seq 0 blockDim) data.

(** [blockScatter<<<gridDim, blockDim>>>( data, N )] with the blocks
    taking effect in the order [schedule]. *)
Definition blockScatter (blockDim : nat) (N : Z) (schedule : list nat)
    (data : list dType) : option (list dType) :=
  run_threads (scatter_block blockDim N) schedule data.

End Elementwise.

Section ReductionAll.
Context {dType : Type}.
Variable zero : dType.                       (* dType( 0 ) *)
Variable plus : dType -> dType -> dType.     (* operator+ *)

(** [blockReduceAll( val )] for all threads of a block at once: [vals] are
    the arguments of the threads [0 .. blockDim - 1], the result their
    return values. *)
Definition blockReduceAll (blockDim : nat) (vals : list (option dType))
  : list (option dType) :=
  (* val = warpReduceAll( val ); if ( lane == 0 ) shared[ wid ] = val; *)
  let shared :=
    foldl (fun sh wid => <[wid := lane_value (warpReduceAll plus (warp_of vals wid)) 0]> sh)
          (replicate 32 None) (warps_of_block blockDim) in
  (* val = ( lane < blockDim.x / warpSize ) ? shared[ lane ] : 0; *)
  let vals' :=
    (fun tid => if decide (tid mod warpSize < blockDim / warpSize)%nat
                then lane_value shared (tid mod warpSize)
                else Some zero) <$> seq 0 blockDim in
  (* val = warpReduceAll( val ); *)
  wid ← warps_of_block blockDim; warpReduceAll plus (warp_of vals' wid).

Section GridAll.
Variable f : dType -> dType.               (* the functor F *)
Variables blockDim gridDim : nat.          (* the launch *)
Variable input : list dType.               (* in *)
Variable N : Z.

(** The vectorised loop of one thread of [blockReduceAtomicVectorizedAll],
    [i] and [sum] as they stand before the test [i < ( N / 4 )]; [None]
    when [fuel] iterations do not reach the exit, or when an element
    outside [in] was read. *)
Fixpoint vector_loop4 (fuel : nat) (i : Z) (sum : option dType)
  : option dType :=
  match fuel with
  | O => None
  | S fuel' =>
      if decide (to_size i < N / 4) then
        let x := f <$> input !! Z.to_nat (4 * i) in
        let y := f <$> input !! Z.to_nat (4 * i + 1) in
        let z := f <$> input !! Z.to_nat (4 * i + 2) in
        let w := f <$> input !! Z.to_nat (4 * i + 3) in
        vector_loop4 fuel'
          (to_int (to_uint (to_uint i +
                            to_uint (Z.of_nat blockDim * Z.of_nat gridDim))))
          (vplus plus sum (vplus plus (vplus plus (vplus plus x y) z) w))
      else sum
  end.

(** The value a thread hands to [blockReduceAll]. *)
Definition thread_sum4 (b t : nat) : option dType :=
  let idx := thread_index blockDim b t in
  let sum := vector_loop4 (S (Z.to_nat (N / 4))) idx (Some zero) in
  let i := to_int (to_size (to_size idx + N / 4 * 4)) in
  if decide (to_size i < N) then vplus plus sum (f <$> input !! Z.to_nat i)
  else sum.

(** What [blockReduceAll] returns to the threads of block [b]. *)
Definition block_sums (b : nat) : list (option dType) :=
  blockReduceAll blockDim (thread_sum4 b <$> seq 0 blockDim).

(** The [atomicAdd( &out[ out_index ], sum )] of one thread, with
    [out_index = threadIdx.x * blockDim.x]; [None] when [out] has no such
    element or [sum] is undefined. *)
Definition atomic_add_thread (bt : nat * nat) (out : list dType)
  : option (list dType) :=
  let out_index := to_int (to_uint (Z.of_nat bt.2 * Z.of_nat blockDim)) in
  sum ← lane_value (block_sums bt.1) bt.2;
  if decide (0 <= out_index) then
    old ← out !! Z.to_nat out_index;
    Some (<[Z.to_nat out_index := plus old sum]> out)
  else None.

(** [blockReduceAtomicVectorizedAll<<<gridDim, blockDim>>>( in, out, N, f )]
    with the threads' [atomicAdd]s taking effect in the order [schedule]. *)
Definition blockReduceAtomicVectorizedAll (schedule : list (nat * nat))
    (out : list dType) : option (list dType) :=
  run_threads atomic_add_thread schedule out.

End GridAll.
End ReductionAll.

Section Xpny.
Context {dType : Type}.
Variable zero : dType.                       (* the literal 0 *)
Variable plus : dType -> dType -> dType.     (* operator+ *)
Variables blockDimX blockDimY : nat.         (* blockDim.x, blockDim.y *)
Variable sharedLen : nat.      (* elements of the dynamic shared array s[] *)
Variable M : Z.                              (* size_t M *)

(** [vectors[ j ][ i ]]; [None] when there is no such element. *)
Definition vector_at (vectors : list (list dType)) (j i : Z) : option dType :=
  if decide (0 <= j /\ 0 <= i)
  then row ← vectors !! Z.to_nat j; row !! Z.to_nat i
  else None.

(** [s[ k ]] read and written; a slot holds a value or is undefined, an
    access outside the array has no outcome. *)
Definition shared_load (s : list (option dType)) (k : Z)
  : option (option dType) :=
  if decide (0 <= k) then s !! Z.to_nat k else None.

Definition shared_store (s : list (option dType)) (k : Z) (v : option dType)
  : option (list (option dType)) :=
  if decide (0 <= k < Z.of_nat (length s))
  then Some (<[Z.to_nat k := v]> s) else None.

(** [int yStride = M / 2] *)
Definition yStride : Z := to_int (M / 2).

(** [( idx * yStride ) + k], in [int]. *)
Definition shared_index (idx k : Z) : Z := to_int (to_int (idx * yStride) + k).

(** The statements of thread [t] of block [b] before the barrier.
    [M & 1 != 0] is read as the language parses it, [M & ( 1 != 0 )]. *)
Definition xpny_fill (vectors : list (list dType)) (b t : nat * nat)
    (s : list (option dType)) : option (list (option dType)) :=
  let idx := thread_index blockDimX b.1 t.1 in
  let idy := thread_index blockDimY b.2 t.2 in
  s1 ← (if decide (idy < yStride) then
          x ← vector_at vectors idy idx;
          y ← vector_at vectors (to_size (to_size idy + M / 2)) idx;
          shared_store s (shared_index idx idy) (Some (plus x y))
        else Some s);
  if decide (Z.land M (Z.b2z (negb (1 =? 0))) <> 0 /\ idy = 0) then
    x ← vector_at vectors (to_size (M - 1)) idx;
    old ← shared_load s1 (to_int (idx * yStride));
    shared_store s1 (to_int (idx * yStride)) (vplus plus old (Some x))
  else Some s1.

(** [for ( int i = 0; i < ( M / 2 ); i++ ) vectors[0][idx] += s[ ... ]],
    [i] and the value of [vectors[0][idx]] as they stand before the test;
    the outer [None] when [fuel] iterations do not reach the exit or a slot
    outside [s] was read, the inner one when an undefined slot was added. *)
Fixpoint xpny_loop (s : list (option dType)) (idx : Z) (fuel : nat) (i : Z)
    (acc : option dType) : option (option dType) :=
  match fuel with
  | O => None
  | S fuel' =>
      if decide (to_size i < M / 2) then
        v ← shared_load s (shared_index idx i);
        xpny_loop s idx fuel' (to_int (i + 1)) (vplus plus acc v)
      else Some acc
  end.

(** The statements of thread [t] of block [b] after the barrier; there is
    no outcome when the value stored to [vectors[0][idx]] is undefined. *)
Definition xpny_sum (s : list (option dType)) (b t : nat * nat)
    (vectors : list (list dType)) : option (list (list dType)) :=
  let idx := thread_index blockDimX b.1 t.1 in
  let idy := thread_index blockDimY b.2 t.2 in
  if decide (idy = 0) then
    row ← vectors !! 0%nat;
    if decide (0 <= idx < Z.of_nat (length row)) then
      acc ← xpny_loop s idx (S (Z.to_nat (M / 2))) 0 (Some zero);
      v ← acc;
      Some (<[0%nat := <[Z.to_nat idx := v]> row]> vectors)
    else None
  else Some vectors.

(** One block: its threads up to the barrier in the order [before], then
    past it in the order [after]; the shared array starts undefined. *)
Definition xpny_block (before after : list (nat * nat)) (b : nat * nat)
    (vectors : list (list dType)) : option (list (list dType)) :=
  s ← foldl (fun s t => s ≫= xpny_fill vectors b t)
            (Some (replicate sharedLen None)) before;
  foldl (fun v t => v ≫= xpny_sum s b t) (Some vectors) after.

(** [xpny<<<grid, block, sharedLen * sizeof(dType)>>>( vectors, N, M )]
    with the blocks taking effect in the order [blocks]; [N] is not used
    by the kernel. *)
Definition xpny (blocks : list (nat * nat))
    (before after : nat * nat -> list (nat * nat))
    (vectors : list (list dType)) : option (list (list dType)) :=
  foldl (fun v b => v ≫= xpny_block (before b) (after b) b)
        (Some vectors) blocks.

End Xpny.

End Kernels.

(** ** Symbolic values

    The kernels are polymorphic in [dType]; run on terms, they show which
    inputs a lane has added up and in which shape. *)
Module Symbolic.

Inductive term :=
| Leaf (i : nat)
| Node (a b : term).

Fixpoint leaves (e : term) : list nat :=
  match e with
  | Leaf i => [i]
  | Node a b => leaves a ++ leaves b
  end.

(** The value of a term once its leaves are read from [vals]. *)
Fixpoint eval {dType : Type} (zero : dType) (plus : dType -> dType -> dType)
    (vals : list dType) (e : term) : dType :=
  match e with
  | Leaf i => default zero (vals !! i)
  | Node a b => plus (eval zero plus vals a) (eval zero plus vals b)
  end.

(** A register holds a term that adds up each of the inputs
    [0 .. n - 1] once. *)
Definition covers (n : nat) (r : option term) : bool :=
  match r with
  | Some e => bool_decide (merge_sort Nat.le (leaves e) = seq 0 n)
  | None => false
  end.

(** The symbolic inputs of a warp of [n] lanes. *)
Definition symbolic_lanes (n : nat) : list (option term) :=
  (fun i => Some (Leaf i)) <$> seq 0 n.

End Symbolic.

(** ** Footprints

    Which positions of a buffer a thread or a block touches: the positions
    of [in] a thread of [blockReduceAtomicVectorized] reads, in the order in
    which it adds them up, and the position a block of [blockScatter] takes
    its value from. *)
Module Footprint.

(** The vectorised loop from [i] on: [M] is [N / 2], [stride] the number of
    threads of the grid. *)
Fixpoint loop_positions (M stride : Z) (fuel : nat) (i : Z) : list Z :=
  match fuel with
  | O => []
  | S fuel' =>
      if decide (i < M)
      then 2 * i :: 2 * i + 1 :: loop_positions M stride fuel' (i + stride)
      else []
  end.

(** All reads of the thread with global index [idx]. *)
Definition thread_positions (N stride : Z) (idx : Z) : list Z :=
  loop_positions (N / 2) stride (S (Z.to_nat (N / 2))) idx ++
  (if decide (idx + N / 2 * 2 < N) then [idx + N / 2 * 2] else []).

(** All reads of a launch, block by block. *)
Definition grid_positions (blockDim gridDim : nat) (N : Z) (blocks : list nat)
  : list Z :=
  b ← blocks; t ← seq 0 blockDim;
  thread_positions N (Z.of_nat blockDim * Z.of_nat gridDim)
                   (Z.of_nat b * Z.of_nat blockDim + Z.of_nat t).

(** Where [blockScatter] makes block [b] take the value it scatters:
    the position in [data] that thread 0 of the block reads. *)
Definition scatter_source (blockDim b : nat) : nat :=
  if decide (b < blockDim)%nat then (b * blockDim)%nat else 0%nat.

(** The buffer of [blockScatter] once the blocks [done] have run, [old]
    being the buffer before the launch. *)
Definition scattered {dType : Type} (blockDim : nat) (N : Z) (old : list dType)
    (done : list nat) (buf : list dType) : Prop :=
  length buf = length old /\
  forall i : nat,
    buf !! i =
    if decide (Z.of_nat i < N /\ (i `div` blockDim)%nat ∈ done)
    then old !! scatter_source blockDim (i `div` blockDim) else old !! i.

(** The vectorised loop of [blockReduceAtomicVectorizedAll] from [i] on:
    [M] is [N / 4]. *)
Fixpoint loop_positions4 (M stride : Z) (fuel : nat) (i : Z) : list Z :=
  match fuel with
  | O => []
  | S fuel' =>
      if decide (i < M)
      then 4 * i :: 4 * i + 1 :: 4 * i + 2 :: 4 * i + 3
             :: loop_positions4 M stride fuel' (i + stride)
      else []
  end.

(** All reads of the thread with global index [idx]. *)
Definition thread_positions4 (N stride : Z) (idx : Z) : list Z :=
  loop_positions4 (N / 4) stride (S (Z.to_nat (N / 4))) idx ++
  (if decide (idx + N / 4 * 4 < N) then [idx + N / 4 * 4] else []).

(** All reads of the threads of block [b], and of a launch. *)
Definition block_positions4 (blockDim gridDim : nat) (N : Z) (b : nat)
  : list Z :=
  t ← seq 0 blockDim;
  thread_positions4 N (Z.of_nat blockDim * Z.of_nat gridDim)
                    (Z.of_nat b * Z.of_nat blockDim + Z.of_nat t).

Definition grid_positions4 (blockDim gridDim : nat) (N : Z) (blocks : list nat)
  : list Z :=
  b ← blocks; block_positions4 blockDim gridDim N b.

(** The threads among [schedule] whose [atomicAdd] goes to [out[ p ]], the
    element with the index [threadIdx.x * blockDim.x]. *)
Definition adders (blockDim : nat) (schedule : list (nat * nat)) (p : nat)
  : list (nat * nat) :=
  filter (fun bt : nat * nat => (bt.2 * blockDim)%nat = p) schedule.

End Footprint.

(** ** Columns

    What [xpny] is about: the elements with the same index in a list of
    vectors, and the partial sums its threads leave in shared memory. *)
Module Columns.

Section Columns.
Context {dType : Type}.
Variable zero : dType.
Variable plus : dType -> dType -> dType.

(** [vectors[ j ][ i ]] where it exists. *)
Definition entry (vectors : list (list dType)) (j i : nat) : dType :=
  default zero (row ← vectors !! j; row !! i).

(** The elements with index [i] of all vectors. *)
Definition column (vectors : list (list dType)) (i : nat) : list dType :=
  (fun row => default zero (row !! i)) <$> vectors.

(** What the thread with [idy = k] leaves in [s] for the index [i]: the
    sum of the entries of the vectors [k] and [k + h], to which the thread
    with [idy = 0] adds the entry of the last vector when there is an odd
    number of them ([h] is half the number of vectors). *)
Definition partial (h : nat) (odd : bool) (vectors : list (list dType))
    (i k : nat) : dType :=
  let pair := plus (entry vectors k i) (entry vectors (k + h) i) in
  if decide (k = 0%nat) then
    if odd then plus pair (entry vectors (2 * h) i) else pair
  else pair.

(** The partial sums added up in the order of the final loop. *)
Definition column_total (h : nat) (odd : bool) (vectors : list (list dType))
    (i : nat) : dType :=
  foldl plus zero (partial h odd vectors i <$> seq 0 h).

(** The shared array of block [bx] (of [X] threads in x) before the
    barrier: the slots of the threads [done] hold their partial sums. *)
Definition filled (h : nat) (odd : bool) (vectors : list (list dType))
    (X bx : nat) (done : nat * nat -> Prop) (s : list (option dType)) : Prop :=
  forall tx ty, done (tx, ty) -> (tx < X)%nat -> (ty < h)%nat ->
    s !! ((bx * X + tx) * h + ty)%nat
    = Some (Some (partial h odd vectors (bx * X + tx) ty)).

(** The vectors in the course of a launch, [old] being the vectors before
    it: the elements [written] of the first vector hold the total of their
    column, everything else is as it was. *)
Definition summed (h : nat) (odd : bool) (old : list (list dType))
    (written : nat -> Prop) (vectors : list (list dType)) : Prop :=
  length vectors = length old /\
  (forall j, j <> 0%nat -> vectors !! j = old !! j) /\
  exists row0 row0',
    old !! 0%nat = Some row0 /\ vectors !! 0%nat = Some row0' /\
    length row0' = length row0 /\
    (forall i, written i -> row0' !! i = Some (column_total h odd old i)) /\
    (forall i, ~ written i -> row0' !! i = row0 !! i).

End Columns.
End Columns.

(** * Properties *)

Module MachineFacts.

Lemma to_size_small z : 0 <= z < 2 ^ 64 -> to_size z = z.
Proof. intros H. unfold to_size, size_modulus. apply Z.mod_small. lia. Qed.

Lemma to_int_small z : - 2 ^ 31 <= z < 2 ^ 31 -> to_int z = z.
Proof. intros H. unfold to_int. rewrite Z.mod_small by lia. lia. Qed.

Lemma to_uint_small z : 0 <= z < 2 ^ 32 -> to_uint z = z.
Proof. intros H. unfold to_uint. apply Z.mod_small. lia. Qed.

Lemma to_size_negative z : - 2 ^ 31 <= z < 0 -> 2 ^ 64 - 2 ^ 31 <= to_size z.
Proof.
  intros H. unfold to_size, size_modulus.
  replace z with (z + 2 ^ 64 + (-1) * 2 ^ 64) by lia.
  rewrite Z.mod_add by lia. rewrite Z.mod_small; lia.
Qed.

End MachineFacts.

Module TensorFacts.
Import Tensors MachineFacts.

(** *** Products and the two [std::accumulate] calls *)

Lemma product_app l k : product (l ++ k) = product l * product k.
Proof. induction l as [|x l IH]; simpl; [lia|]. rewrite IH. lia. Qed.

Lemma product_pos l : Forall (fun d => 1 <= d) l -> 1 <= product l.
Proof. induction 1; simpl; nia. Qed.

(** Without overflow the [int] accumulator holds the product. *)
Lemma accumulate_int_from acc l :
  1 <= acc -> Forall (fun d => 1 <= d) l -> acc * product l < 2 ^ 31 ->
  foldl (fun a d => to_int (a * to_int d)) acc l = acc * product l.
Proof.
  intros Hacc Hl. revert acc Hacc.
  induction Hl as [|d l Hd Hl IH]; intros acc Hacc Hb; simpl in *; [lia|].
  pose proof (product_pos l Hl) as Hp.
  assert (d < 2 ^ 31) by nia.
  assert (acc * d < 2 ^ 31) by nia.
  rewrite (to_int_small d) by lia.
  rewrite (to_int_small (acc * d)) by nia.
  rewrite IH by nia. lia.
Qed.

Lemma accumulate_multiplies_int_product l :
  Forall (fun d => 1 <= d) l -> product l < 2 ^ 31 ->
  accumulate_multiplies_int l = product l.
Proof.
  intros. unfold accumulate_multiplies_int.
  rewrite accumulate_int_from; lia || done.
Qed.

Lemma accumulate_size_from acc l :
  1 <= acc -> Forall (fun d => 1 <= d) l -> acc * product l < 2 ^ 31 ->
  foldl (fun a d => to_int (to_size (to_size a * d))) acc l = acc * product l.
Proof.
  intros Hacc Hl. revert acc Hacc.
  induction Hl as [|d l Hd Hl IH]; intros acc Hacc Hb; simpl in *; [lia|].
  pose proof (product_pos l Hl) as Hp.
  assert (acc * d <= acc * d * product l) by nia.
  assert (acc <= acc * d) by nia.
  replace (acc * (d * product l)) with (acc * d * product l) in Hb by lia.
  rewrite (to_size_small acc) by lia.
  rewrite (to_size_small (acc * d)) by lia.
  rewrite (to_int_small (acc * d)) by lia.
  rewrite IH by lia. lia.
Qed.

Lemma accumulate_multiplies_size_product l :
  Forall (fun d => 1 <= d) l -> product l < 2 ^ 31 ->
  accumulate_multiplies_size l = product l.
Proof.
  intros. unfold accumulate_multiplies_size.
  rewrite accumulate_size_from; lia || done.
Qed.

Lemma product_replicate_0 n : (0 < n)%nat -> product (replicate n 0) = 0.
Proof. destruct n; [lia|done]. Qed.

(** The closed form of the offset and the sum the accessor builds up. *)
Lemma offset_from_imap p dims idx :
  offset_from p dims idx =
  total (imap (fun d i => i * (p * product (take d dims))) (take (length dims) idx)).
Proof.
  revert p idx. induction dims as [|d ds IH]; intros p [|i rest]; simpl; try done.
  rewrite IH. f_equal; [lia|]. f_equal. apply imap_ext. intros k x _. simpl. lia.
Qed.

Lemma offset_first_from dims idx :
  length idx = length dims -> offset_first dims idx = offset_from 1 dims idx.
Proof.
  intros Hlen. rewrite offset_from_imap. rewrite <- Hlen, firstn_all.
  unfold offset_first, stride_first. f_equal. apply imap_ext. intros. lia.
Qed.

Lemma in_range_length dims idx : in_range dims idx -> length idx = length dims.
Proof. apply Forall2_length. Qed.

Lemma in_range_pos dims idx : in_range dims idx -> Forall (fun d => 1 <= d) dims.
Proof. induction 1; constructor; [lia|done]. Qed.

Lemma offset_from_bound p dims idx :
  0 <= p -> in_range dims idx ->
  0 <= offset_from p dims idx /\ offset_from p dims idx + p <= p * product dims.
Proof.
  intros Hp H. revert p Hp. induction H as [|i d idx dims Hi H IH]; intros p Hp; simpl.
  - lia.
  - destruct (IH (p * d)) as [IH1 IH2]; [nia|]. split; nia.
Qed.

Section CallFacts.
Context {T : Type}.
Variable R : Z.

(** The accessor past the first index: [pre] are the dimensions already
    consumed, [post] the ones the remaining indices address. *)
Lemma call_tail indices : forall idx (t : Tensor T) pre post,
  _dimensions t = pre ++ post ->
  pre <> [] ->
  Forall (fun d => 1 <= d) pre ->
  in_range post (idx :: indices) ->
  _counter t = Z.of_nat (length pre) ->
  0 <= _offset t < product pre ->
  product (pre ++ post) < 2 ^ 31 ->
  Z.of_nat (length (pre ++ post)) < 2 ^ 31 ->
  let off := _offset t + offset_from (product pre) post (idx :: indices) in
  call R t idx indices =
    Some (mkAccess (mkTensor (_data t) (_dimensions t) 0 off) [] off).
Proof.
  induction indices as [|next rest IH];
    intros idx t pre post Hdims Hpre Hpos Hin Hc Ho Hprod Hlen off.
  - (* the terminating case *)
    inversion Hin as [|? d ? post' Hi Hrest]; subst.
    inversion Hrest; subst. simpl in off.
    simpl. unfold call_last.
    rewrite Hc, Nat2Z.id, Hdims, list_lookup_middle by done. simpl.
    pose proof (product_pos _ Hpos) as Hp1.
    rewrite product_app in Hprod. simpl in Hprod.
    assert (d < 2 ^ 31) by nia.
    rewrite (to_size_small idx) by lia.
    destruct (decide (d <= idx)) as [|_]; [lia|].
    destruct (decide (Z.of_nat (length pre) = 0)) as [E|_].
    { destruct pre; [done|simpl in E; lia]. }
    unfold dims_before_end. rewrite length_app. simpl.
    destruct (decide (1 <= length pre + 1)%nat) as [_|]; [|lia].
    replace (length pre + 1 - 1)%nat with (length pre) by lia.
    rewrite take_app_length. simpl.
    rewrite accumulate_multiplies_int_product by (done || nia).
    rewrite (to_int_small (product pre * idx)) by nia.
    rewrite (to_size_small (product pre * idx)) by nia.
    rewrite to_size_small by nia.
    unfold set_counter, set_offset; simpl. rewrite Hdims.
    subst off. repeat f_equal; lia.
  - (* the variadic case, past the first index *)
    inversion Hin as [|? d ? post' Hi Hrest]; subst.
    simpl in off.
    cbn [call].
    rewrite Hc, Nat2Z.id, Hdims, list_lookup_middle by done. simpl.
    pose proof (product_pos _ Hpos) as Hp1.
    pose proof (in_range_pos _ _ Hrest) as Hpos'.
    pose proof (product_pos _ Hpos') as Hp2.
    pose proof (in_range_length _ _ Hrest) as Hl'.
    rewrite product_app in Hprod. simpl in Hprod.
    assert (0 <= product pre * d) as Hb0 by nia.
    assert (product pre * d <= product pre * d * product post') as Hb1 by nia.
    replace (product pre * (d * product post')) with (product pre * d * product post') in Hprod by lia.
    assert (d <= product pre * d) as Hb2 by nia.
    assert (product pre <= product pre * d) as Hb3 by nia.
    assert (product pre * idx + product pre <= product pre * d) as Hb4 by nia.
    assert (0 <= product pre * idx) as Hb5 by nia.
    rewrite (to_size_small idx) by lia.
    destruct (decide (d <= idx)) as [|_]; [lia|].
    destruct (decide (Z.of_nat (length pre) = 0)) as [E|_].
    { destruct pre; [done|simpl in E; lia]. }
    unfold dims_before_end. rewrite length_app. simpl in *.
    destruct (decide (S (length rest + 1) <= length pre + S (length post'))%nat) as [_|]; [|lia].
    replace (length pre + S (length post') - S (length rest + 1))%nat with (length pre) by lia.
    rewrite take_app_length. simpl.
    rewrite accumulate_multiplies_int_product by (done || lia).
    rewrite (to_int_small (product pre * idx)) by lia.
    rewrite (to_size_small (product pre * idx)) by lia.
    rewrite (to_size_small (_offset t + _)) by lia.
    rewrite length_app in Hlen. simpl in Hlen.
    rewrite (to_size_small (_ + 1)) by lia.
    erewrite (IH next _ (pre ++ [d]) post'); simpl.
    + rewrite product_app. simpl. subst off. rewrite Hdims, Z.mul_1_r.
      f_equal. f_equal; [f_equal|]; lia.
    + rewrite Hdims, <- app_assoc. done.
    + destruct pre; done.
    + apply Forall_app. split; [done|]. constructor; [lia|done].
    + done.
    + rewrite length_app. simpl. lia.
    + rewrite product_app. simpl. nia.
    + rewrite <- app_assoc, product_app. simpl. lia.
    + rewrite <- app_assoc, length_app. simpl. lia.
Qed.


(** A complete in-range access on a tensor at rest. *)
Lemma call_complete (t : Tensor T) idx indices :
  2 <= R <= int_max ->
  Z.of_nat (length (_dimensions t)) = R ->
  _counter t = 0 ->
  in_range (_dimensions t) (idx :: indices) ->
  product (_dimensions t) <= int_max ->
  let off := offset_first (_dimensions t) (idx :: indices) in
  call R t idx indices =
    Some (mkAccess (mkTensor (_data t) (_dimensions t) 0 off) [] off) /\
  0 <= off < product (_dimensions t).
Proof.
  unfold int_max. intros HR Hlen Hc Hin Hprod.
  pose proof (in_range_length _ _ Hin) as Hl.
  pose proof (offset_from_bound 1 _ _ ltac:(lia) Hin) as Hb.
  rewrite offset_first_from by done.
  split; [|lia].
  destruct (_dimensions t) as [|d0 ds] eqn:Hdims; [done|].
  apply Forall2_cons_1 in Hin as [Hi Hrest].
  destruct indices as [|next rest].
  { apply Forall2_nil_inv_l in Hrest as ->. simpl in Hlen. lia. }
  pose proof (in_range_pos _ _ Hrest) as Hpos.
  pose proof (product_pos _ Hpos) as Hp.
  simpl in Hprod.
  assert (d0 <= d0 * product ds) by nia.
  cbn [call]. rewrite Hc, Hdims. simpl.
  rewrite (to_size_small idx) by lia.
  destruct (decide (d0 <= idx)) as [|_]; [lia|].
  simpl in Hl, Hlen.
  rewrite to_int_small, to_size_small by lia.
  destruct (decide _) as [Hne|_]; [exfalso; apply Hne; lia|].
  rewrite (call_tail rest next _ [d0] ds); simpl; try done.
  all: rewrite ?Hdims, ?Z.mul_1_r, ?Z.mul_1_l, ?(to_size_small (0 + 1)) by lia.
  all: try done; try lia.
  constructor; [lia|done].
Qed.


(** The accessors touch the scratch fields only. *)
Lemma call_last_frame (t : Tensor T) idx a :
  call_last R t idx = Some a ->
  _data (after a) = _data t /\ _dimensions (after a) = _dimensions t.
Proof.
  unfold call_last. intros H.
  destruct (_dimensions t !! Z.to_nat (_counter t)) as [limit|]; [|done].
  simpl in H. destruct (decide (limit <= to_size idx)).
  - by inversion H.
  - destruct (dims_before_end (_dimensions t) 1); [|done].
    by inversion H.
Qed.

Lemma call_frame indices : forall (t : Tensor T) idx a,
  call R t idx indices = Some a ->
  _data (after a) = _data t /\ _dimensions (after a) = _dimensions t.
Proof.
  induction indices as [|next rest IH]; intros t idx a H.
  - by apply call_last_frame in H.
  - cbn [call] in H.
    destruct (_dimensions t !! Z.to_nat (_counter t)) as [limit|]; [|done].
    simpl in H. destruct (decide (limit <= to_size idx)).
    { by inversion H. }
    destruct (decide (_counter t = 0)).
    + destruct (decide (_ <> R)).
      * by inversion H.
      * by apply IH in H.
    + destruct (dims_before_end _ _); [|done]. simpl in H.
      by apply IH in H.
Qed.


(** An index that is an [int] compares against a dimension size the way
    the range test intends, as long as the size is below [2^63]. *)
Lemma range_test d idx :
  int_range idx -> 0 <= d < 2 ^ 63 ->
  d <= to_size idx <-> ~ (0 <= idx < d).
Proof.
  unfold int_range, int_min, int_max. intros Hi Hd.
  destruct (decide (0 <= idx)).
  - rewrite to_size_small by lia. lia.
  - pose proof (to_size_negative idx). lia.
Qed.

(** With the right number of indices, one of them out of range: the
    accessor prints a [TensorOutOfRange] and returns the element at offset
    0, with [_counter] back at zero. *)
Lemma call_out_of_range indices : forall idx (t : Tensor T) pre post,
  _dimensions t = pre ++ post ->
  _counter t = Z.of_nat (length pre) ->
  length (idx :: indices) = length post ->
  (pre = [] -> Z.of_nat (length post) = R) ->
  Z.of_nat (length (pre ++ post)) < 2 ^ 31 ->
  Forall int_range (idx :: indices) ->
  Forall (fun d => 0 <= d < 2 ^ 63) post ->
  ~ in_range post (idx :: indices) ->
  exists a stream k d i,
    call R t idx indices = Some a /\ position a = 0 /\
    _counter (after a) = 0 /\
    printed a = [(stream, TensorOutOfRange k d i)].
Proof.
  induction indices as [|next rest IH];
    intros idx t pre post Hdims Hc Hlen HR Hsmall Hint Hd Hbad.
  - destruct post as [|d [|? ?]]; try done.
    apply Forall_cons_1 in Hint as [Hi _]. apply Forall_cons_1 in Hd as [Hd _].
    simpl. unfold call_last.
    rewrite Hc, Nat2Z.id, Hdims, list_lookup_middle by done. simpl.
    destruct (decide (d <= to_size idx)) as [|Hok].
    + by eexists _, _, _, _, _.
    + exfalso. apply Hbad. constructor; [|constructor].
      destruct (decide (0 <= idx < d)) as [|Hno]; [done|].
      by apply range_test in Hno.
  - destruct post as [|d post]; [done|].
    apply Forall_cons_1 in Hint as [Hi Hint]. apply Forall_cons_1 in Hd as [Hd Hds].
    cbn [call].
    rewrite Hc, Nat2Z.id, Hdims, list_lookup_middle by done. simpl.
    destruct (decide (d <= to_size idx)) as [|Hok].
    { by eexists _, _, _, _, _. }
    assert (0 <= idx < d) as Hin.
    { destruct (decide (0 <= idx < d)) as [|Hno]; [done|].
      by apply range_test in Hno. }
    assert (~ in_range post (next :: rest)) as Hbad'.
    { intros Hr. apply Hbad. by constructor. }
    rewrite length_app in Hsmall. simpl in Hsmall, Hlen.
    rewrite (to_size_small (_ + 1)) by lia.
    assert (forall o,
      exists a stream k d i,
        call R (set_offset o (set_counter (Z.of_nat (length pre) + 1) t)) next rest
          = Some a /\ position a = 0 /\ _counter (after a) = 0 /\
        printed a = [(stream, TensorOutOfRange k d i)]) as Hgo.
    { intros o. apply (IH next _ (pre ++ [d]) post); simpl; try done.
      - by rewrite Hdims, <- app_assoc.
      - rewrite length_app. simpl. lia.
      - lia.
      - intros [_ ?]%app_eq_nil. done.
      - rewrite <- app_assoc, length_app. simpl. lia. }
    destruct (decide (Z.of_nat (length pre) = 0)) as [E|_].
    + rewrite to_int_small by lia.
      assert (pre = []) as Hnil by (destruct pre; [done|simpl in E; lia]).
      specialize (HR Hnil). simpl in HR.
      rewrite to_size_small by lia.
      destruct (decide _) as [Hne|_]; [exfalso; apply Hne; lia|].
      apply Hgo.
    + unfold dims_before_end. rewrite length_app. simpl.
      destruct (decide _) as [_|]; [|lia]. simpl. apply Hgo.
Qed.

(** With two or more indices, but not [R] of them, on a tensor at rest:
    the accessor prints and returns the element at offset 0. *)
Lemma call_wrong_count (t : Tensor T) idx next rest :
  _counter t = 0 ->
  _dimensions t <> [] ->
  0 <= R ->
  Z.of_nat (length (idx :: next :: rest)) <> R ->
  Z.of_nat (length (idx :: next :: rest)) <= int_max ->
  exists a, call R t idx (next :: rest) = Some a /\ position a = 0 /\
            printed a <> [].
Proof.
  unfold int_max. intros Hc Hne HR Hcount Hsmall.
  destruct (_dimensions t) as [|d ds] eqn:Hdims; [done|].
  cbn [call]. rewrite Hc, Hdims. simpl.
  destruct (decide (d <= to_size idx)); [by eexists|].
  simpl in Hcount, Hsmall.
  rewrite to_int_small, to_size_small by lia.
  destruct (decide _) as [_|Heq]; [by eexists|].
  exfalso. apply Hcount. destruct (decide (Z.of_nat (S (length rest)) + 1 = R)); [lia|done].
Qed.

(** What an access shows depends on the dimension sizes and the scratch
    fields only. *)
Lemma call_last_ext (t t' : Tensor T) idx :
  _dimensions t = _dimensions t' -> _counter t = _counter t' ->
  _offset t = _offset t' ->
  observe <$> call_last R t idx = observe <$> call_last R t' idx.
Proof.
  destruct t as [dat dims c o], t' as [dat' dims' c' o']. simpl.
  intros <- <- <-. unfold call_last. simpl.
  destruct (dims !! Z.to_nat c) as [limit|]; [|done].
  simpl. destruct (decide (limit <= to_size idx)); [done|].
  destruct (dims_before_end dims 1); done.
Qed.

Lemma call_ext indices : forall (t t' : Tensor T) idx,
  _dimensions t = _dimensions t' -> _counter t = _counter t' ->
  _offset t = _offset t' ->
  observe <$> call R t idx indices = observe <$> call R t' idx indices.
Proof.
  induction indices as [|next rest IH]; intros t t' idx Hd Hc Ho.
  - by apply call_last_ext.
  - destruct t as [dat dims c o], t' as [dat' dims' c' o']. simpl in *.
    subst dims' c' o'.
    destruct (dims !! Z.to_nat c) as [limit|]; [|done].
    simpl. destruct (decide (limit <= to_size idx)); [done|].
    destruct (decide (c = 0)).
    + destruct (decide (_ <> R)); [done|]. by apply IH.
    + destruct (dims_before_end _ _); [|done]. simpl. by apply IH.
Qed.

(** On a tensor at rest an access with at least two indices does not read
    [_offset] before it has overwritten it. *)
Lemma call_at_rest_ext (t t' : Tensor T) idx next rest :
  _dimensions t = _dimensions t' -> _counter t = 0 -> _counter t' = 0 ->
  (fun a => (printed a, position a, _counter (after a)))
    <$> call R t idx (next :: rest)
  = (fun a => (printed a, position a, _counter (after a)))
    <$> call R t' idx (next :: rest).
Proof.
  destruct t as [dat dims c o], t' as [dat' dims' c' o']. simpl.
  intros <- -> ->. cbn [call]. simpl.
  destruct (dims !! Z.to_nat 0) as [limit|]; [|done].
  simpl. destruct (decide (limit <= to_size idx)); [done|].
  destruct (decide (_ <> R)); [done|].
  unfold set_offset, set_counter. simpl.
  set (u := mkTensor dat _ _ _). set (u' := mkTensor dat' _ _ _).
  pose proof (call_ext rest u u' next eq_refl eq_refl eq_refl) as E.
  destruct (call R u next rest), (call R u' next rest);
    simpl in *; unfold observe in E; congruence.
Qed.

(** An access with as many indices as the tensor has dimensions returns,
    and leaves [_counter] at zero. *)
Lemma call_returns indices : forall idx (t : Tensor T) pre post,
  _dimensions t = pre ++ post ->
  _counter t = Z.of_nat (length pre) ->
  length (idx :: indices) = length post ->
  (pre = [] -> Z.of_nat (length post) = R) ->
  Z.of_nat (length (pre ++ post)) <= int_max ->
  exists a, call R t idx indices = Some a /\ _counter (after a) = 0.
Proof.
  unfold int_max.
  induction indices as [|next rest IH];
    intros idx t pre post Hdims Hc Hlen HR Hsmall.
  - destruct post as [|d [|? ?]]; try done.
    simpl. unfold call_last.
    rewrite Hc, Nat2Z.id, Hdims, list_lookup_middle by done. simpl.
    destruct (decide (d <= to_size idx)); [by eexists|].
    unfold dims_before_end. rewrite length_app. simpl.
    destruct (decide (1 <= length pre + 1)%nat); [|lia]. simpl. by eexists.
  - destruct post as [|d post]; [done|].
    cbn [call].
    rewrite Hc, Nat2Z.id, Hdims, list_lookup_middle by done. simpl.
    destruct (decide (d <= to_size idx)); [by eexists|].
    rewrite length_app in Hsmall. simpl in Hsmall, Hlen.
    rewrite (to_size_small (_ + 1)) by lia.
    assert (forall o, exists a,
      call R (set_offset o (set_counter (Z.of_nat (length pre) + 1) t)) next rest
        = Some a /\ _counter (after a) = 0) as Hgo.
    { intros o. apply (IH next _ (pre ++ [d]) post); simpl; try done.
      - by rewrite Hdims, <- app_assoc.
      - rewrite length_app. simpl. lia.
      - lia.
      - intros [_ ?]%app_eq_nil. done.
      - rewrite <- app_assoc, length_app. simpl. lia. }
    destruct (decide (Z.of_nat (length pre) = 0)) as [E|_].
    + rewrite to_int_small by lia.
      assert (pre = []) as Hnil by (destruct pre; [done|simpl in E; lia]).
      specialize (HR Hnil). simpl in HR.
      rewrite to_size_small by lia.
      destruct (decide _) as [Hne|_]; [exfalso; apply Hne; lia|].
      apply Hgo.
    + unfold dims_before_end. rewrite length_app. simpl.
      destruct (decide _) as [_|]; [|lia]. simpl. apply Hgo.
Qed.


(** Called with a single index on a tensor at rest, the terminating case
    reports the argument count and still goes on to compute an offset. *)
Lemma call_one_index (t : Tensor T) idx d ds :
  _dimensions t = d :: ds -> _counter t = 0 ->
  0 <= idx < d -> int_range idx ->
  let off := to_size (_offset t + to_size (to_int
               (accumulate_multiplies_int (take (length ds) (d :: ds)) * idx))) in
  call R t idx [] =
    Some (mkAccess (mkTensor (_data t) (_dimensions t) 0 off)
                   [(cerr, TensorInvalidArguments 1 R)] off).
Proof.
  unfold int_range, int_min, int_max. intros Hd Hc Hi Hr. simpl.
  unfold call_last. rewrite Hc, Hd. simpl.
  rewrite (to_size_small idx) by lia.
  destruct (decide (d <= idx)); [lia|].
  unfold dims_before_end. simpl.
  destruct (decide (1 <= S (length ds))%nat); [|lia]. simpl.
  rewrite Nat.sub_0_r. unfold set_counter, set_offset. simpl. by rewrite Hd.
Qed.

(** Every constructor leaves the tensor at rest. *)
Lemma constructors_at_rest (T0 : T) :
  _counter (Tensor_default (T:=T) R) = 0 /\
  (forall dims (t : Tensor T),
     Tensor_of_dimensions R T0 dims = Some t -> _counter t = 0) /\
  (forall e : TensorExpression T, _counter (Tensor_of_expression e) = 0) /\
  (forall dims data (t : Tensor T),
     Tensor_of_buffer R dims data = Some t -> _counter t = 0).
Proof.
  split; [done|]. split; [|split; [done|]].
  - intros dims t. unfold Tensor_of_dimensions.
    destruct (decide _); [done|].
    destruct (ASSERT_eq _ _); [|done]. by intros [= <-].
  - intros dims data t. unfold Tensor_of_buffer.
    destruct (ASSERT_eq _ R); [|done]. simpl.
    destruct (ASSERT_eq _ _); [|done]. by intros [= <-].
Qed.

End CallFacts.

(** *** The accessor away from its intended use *)

(** On a tensor of rank 1 every access goes through the terminating case
    with [_counter = 0]: it reports the argument count, and adds the index
    to whatever [_offset] the previous access left. *)
Lemma call_rank_one_accumulates {T : Type} (data : list T) :
  call 1 (mkTensor data [5] 0 0) 2 [] =
    Some (mkAccess (mkTensor data [5] 0 2) [(cerr, TensorInvalidArguments 1 1)] 2) /\
  call 1 (mkTensor data [5] 0 2) 2 [] =
    Some (mkAccess (mkTensor data [5] 0 4) [(cerr, TensorInvalidArguments 1 1)] 4).
Proof. split; reflexivity. Qed.

(** An access with too many indices leaves [_counter] at 1; the complete
    access that follows reads [_dimensions] past its end. *)
Lemma call_after_wrong_count {T : Type} (data : list T) :
  call 2 (mkTensor data [2; 3] 0 0) 0 [0; 0] =
    Some (mkAccess (mkTensor data [2; 3] 1 0)
                   [(cerr, TensorInvalidArguments 3 2)] 0) /\
  call 2 (mkTensor data [2; 3] 1 0) 1 [2] = None.
Proof. split; reflexivity. Qed.

(** Beyond [int] the strides wrap: with the dimension sizes
    [65536, 65536, 2] the last index has stride [2^32], which the [int]
    accumulator holds as 0. *)
Lemma call_stride_wraps {T : Type} (data : list T) :
  call 3 (mkTensor data [65536; 65536; 2] 0 0) 0 [0; 1] =
    Some (mkAccess (mkTensor data [65536; 65536; 2] 0 0) [] 0) /\
  offset_first [65536; 65536; 2] [0; 0; 1] = 2 ^ 32.
Proof. split; reflexivity. Qed.

End TensorFacts.

Module TensorClaims.
Import Tensors MachineFacts TensorFacts.

(** C1, as the specification words it, fails: in a tensor with the
    dimension sizes [2, 3] the indices [(0, 1)] are in range, the
    specification's formula gives offset [1], and the accessor returns the
    element at offset [2]. *)
Lemma call_offset_not_last_fastest :
  let t := mkTensor [10; 11; 12; 13; 14; 15] [2; 3] 0 0 in
  invariant 2 t /\ in_range (_dimensions t) [0; 1] /\
  offset_spec (_dimensions t) [0; 1] = 1 /\
  position <$> call 2 t 0 [1] = Some 2 /\
  position <$> call 2 t 0 [1] <> Some (offset_spec (_dimensions t) [0; 1]).
Proof.
  repeat split; try reflexivity; try done.
  repeat constructor; lia.
Qed.

(** C1, amended: for a tensor of rank [R >= 2] at rest ([_counter = 0])
    whose buffer holds as many elements as the product of its [R] sizes,
    that count fitting an [int], and [R] indices in range, the accessor
    prints nothing and returns the element at the flat offset
    [sum over d of idx[d] * stride[d]] with [stride[d]] the product of the
    sizes of the dimensions before [d]: the first index varies fastest and
    has stride 1.  The offset lies inside the buffer: the reference returned
    denotes the element the buffer holds there. *)
Theorem call_offset_first_fastest {T : Type} (R : Z) (t : Tensor T)
    (idx : Z) (indices : list Z) :
  2 <= R <= int_max ->
  Z.of_nat (length (_dimensions t)) = R ->
  Z.of_nat (length (_data t)) = product (_dimensions t) ->
  _counter t = 0 ->
  in_range (_dimensions t) (idx :: indices) ->
  product (_dimensions t) <= int_max ->
  exists a x,
    call R t idx indices = Some a /\
    printed a = [] /\
    position a = offset_first (_dimensions t) (idx :: indices) /\
    0 <= position a < Z.of_nat (length (_data t)) /\
    element a = Some x /\
    _data t !! Z.to_nat (offset_first (_dimensions t) (idx :: indices)) = Some x.
Proof.
  intros HR Hlen Hdata Hc Hin Hp.
  destruct (call_complete R t idx indices HR Hlen Hc Hin Hp) as [Hcall Hb].
  destruct (lookup_lt_is_Some_2 (_data t)
              (Z.to_nat (offset_first (_dimensions t) (idx :: indices))))
    as [x Hx]; [lia|].
  eexists _, x. split; [exact Hcall|]. simpl.
  split; [done|]. split; [done|]. split; [lia|]. split; exact Hx.
Qed.

Lemma call_offset_first_fastest_witness :
  exists a x,
    call 3 (mkTensor [10; 11; 12; 13; 14; 15; 16; 17; 18; 19; 20; 21]
                     [2; 2; 3] 0 0) 1 [0; 2] = Some a /\
    printed a = [] /\
    position a = offset_first [2; 2; 3] [1; 0; 2] /\
    0 <= position a < 12 /\
    element a = Some x /\
    [10; 11; 12; 13; 14; 15; 16; 17; 18; 19; 20; 21]
      !! Z.to_nat (offset_first [2; 2; 3] [1; 0; 2]) = Some x.
Proof.
  apply (call_offset_first_fastest 3
           (mkTensor [10; 11; 12; 13; 14; 15; 16; 17; 18; 19; 20; 21]
                     [2; 2; 3] 0 0) 1 [0; 2]).
  - unfold int_max. lia.
  - reflexivity.
  - reflexivity.
  - reflexivity.
  - repeat constructor; lia.
  - unfold int_max. simpl. lia.
Defined.

(** C3: called with one index on a tensor of rank 2 (dimension sizes
    [2, 3]), the accessor reports the wrong number of arguments and then
    goes on to return the element at offset [2], not the one at offset
    [0]. *)
Theorem call_single_index_falls_through {T : Type} (data : list T) :
  call 2 (mkTensor data [2; 3] 0 0) 1 [] =
    Some (mkAccess (mkTensor data [2; 3] 0 2)
                   [(cerr, TensorInvalidArguments 1 2)] 2).
Proof. reflexivity. Qed.

(** C4: in a tensor with the dimension sizes [2, 3, 4] the indices
    [(1, 2, 3)] lead to the element at flat offset 23, which is also the
    offset [1*12 + 2*4 + 3*1] of the specification. *)
Theorem call_2_3_4_at_1_2_3 {T : Type} (data : list T) (stale : Z) :
  call 3 (mkTensor data [2; 3; 4] 0 stale) 1 [2; 3] =
    Some (mkAccess (mkTensor data [2; 3; 4] 0 23) [] 23) /\
  offset_spec [2; 3; 4] [1; 2; 3] = 23.
Proof. split; reflexivity. Qed.

(** C9: [size(dim)] with [dim >= R] prints the exception and returns 0;
    with a valid [dim] it returns the size of that dimension and prints
    nothing. *)
Theorem size_dim_degrades {T : Type} (R : Z) (t : Tensor T) (dim : Z) :
  0 <= R -> int_range dim ->
  (R <= dim ->
     size_dim R t dim = Some (0, [(cout, TensorOutOfRangeDim dim R)])) /\
  (0 <= dim < R -> Z.of_nat (length (_dimensions t)) = R ->
     exists d, _dimensions t !! Z.to_nat dim = Some d /\
               size_dim R t dim = Some (d, [])).
Proof.
  unfold int_range, int_min, int_max, size_dim. intros HR Hdim. split.
  - intros Hge. rewrite to_size_small by lia.
    destruct (decide (R <= dim)); [done|lia].
  - intros Hin Hlen. rewrite to_size_small by lia.
    destruct (decide (R <= dim)); [lia|].
    destruct (lookup_lt_is_Some_2 (_dimensions t) (Z.to_nat dim)) as [d Hd]; [lia|].
    exists d. by rewrite Hd.
Qed.

Lemma size_dim_degrades_witness :
  size_dim 3 (mkTensor (replicate 24 0) [2; 3; 4] 0 0) 3
    = Some (0, [(cout, TensorOutOfRangeDim 3 3)]) /\
  exists d, [2; 3; 4] !! Z.to_nat 1 = Some d /\
    size_dim 3 (mkTensor (replicate 24 0) [2; 3; 4] 0 0) 1 = Some (d, []).
Proof.
  split.
  - apply (size_dim_degrades 3 (mkTensor (replicate 24 0) [2; 3; 4] 0 0) 3);
      unfold int_range, int_min, int_max; lia.
  - apply (size_dim_degrades 3 (mkTensor (replicate 24 0) [2; 3; 4] 0 0) 1);
      unfold int_range, int_min, int_max; simpl; lia.
Defined.

(** C10: on a tensor of rank [R >= 2] at rest ([_counter = 0], as every
    constructor leaves it), a complete in-range access returns and leaves
    [_counter] at zero, and a second complete in-range access made after it
    returns the element, and prints what, it does when made alone. *)
Theorem call_twice_independent {T : Type} (R : Z) (t : Tensor T)
    (i1 : Z) (is1 : list Z) (i2 : Z) (is2 : list Z) :
  2 <= R <= int_max ->
  Z.of_nat (length (_dimensions t)) = R ->
  _counter t = 0 ->
  in_range (_dimensions t) (i1 :: is1) ->
  in_range (_dimensions t) (i2 :: is2) ->
  exists a1 a2 alone,
    call R t i1 is1 = Some a1 /\ _counter (after a1) = 0 /\
    call R (after a1) i2 is2 = Some a2 /\ _counter (after a2) = 0 /\
    call R t i2 is2 = Some alone /\
    position a2 = position alone /\ printed a2 = printed alone.
Proof.
  intros HR Hlen Hc H1%in_range_length H2%in_range_length.
  destruct (call_returns R is1 i1 t [] (_dimensions t)) as (a1 & E1 & C1);
    [done|done|done|done|simpl; lia|].
  destruct (call_frame R _ _ _ _ E1) as [_ Hd1].
  destruct (call_returns R is2 i2 (after a1) [] (_dimensions t)) as (a2 & E2 & C2);
    [done|done|done|done|simpl; lia|].
  destruct (call_returns R is2 i2 t [] (_dimensions t)) as (alone & E3 & C3);
    [done|done|done|done|simpl; lia|].
  exists a1, a2, alone. repeat (split; [done|]).
  destruct is2 as [|next rest]; [simpl in H2; lia|].
  pose proof (call_at_rest_ext R (after a1) t i2 next rest Hd1 C1 Hc) as E.
  rewrite E2, E3 in E. simpl in E. by inversion E.
Qed.

Lemma call_twice_independent_witness :
  exists a1 a2 alone,
    call 2 (mkTensor [10; 11; 12; 13; 14; 15] [2; 3] 0 0) 1 [2] = Some a1 /\
    _counter (after a1) = 0 /\
    call 2 (after a1) 0 [1] = Some a2 /\ _counter (after a2) = 0 /\
    call 2 (mkTensor [10; 11; 12; 13; 14; 15] [2; 3] 0 0) 0 [1] = Some alone /\
    position a2 = position alone /\ printed a2 = printed alone.
Proof.
  apply (call_twice_independent 2 (mkTensor [10; 11; 12; 13; 14; 15] [2; 3] 0 0)
           1 [2] 0 [1]).
  - unfold int_max. lia.
  - reflexivity.
  - reflexivity.
  - repeat constructor; lia.
  - repeat constructor; lia.
Defined.


(** C7, as stated, fails: the expression constructor copies what the
    expression reports.  Built at rank 2 from an expression with three
    dimension sizes, the tensor has three dimension sizes. *)
Lemma expression_constructor_keeps_foreign_rank :
  let e := mkExpression 8 [2; 2; 2] (fun i => Z.of_nat i) in
  ~ invariant 2 (Tensor_of_expression e).
Proof. intros e [_ H]. simpl in H. lia. Qed.

(** C7, amended.  With dimension sizes that are positive and whose product
    fits an [int]: the default constructor (for [R >= 1]), the
    dimension-list constructor and the buffer constructor build tensors
    with [length _data = product _dimensions] and [R] dimension sizes; the
    dimension-list constructor fails when the list length is not [R]; the
    buffer constructor fails when the list length is not [R] or the buffer
    length is not the product; the expression constructor builds such a
    tensor exactly when the expression reports [R] dimension sizes whose
    product is its size; the accessors and writes through [operator[]]
    keep the buffer and the dimension sizes as they are. *)
Theorem constructors_and_invariant {T : Type} (R : Z) (T0 : T) :
  (1 <= R -> invariant R (Tensor_default (T:=T) R)) /\
  (forall dims, Forall (fun d => 1 <= d) dims -> product dims <= int_max ->
     (Z.of_nat (length dims) = R ->
        exists t, Tensor_of_dimensions R T0 dims = Some t /\ invariant R t) /\
     (Z.of_nat (length dims) <> R -> Tensor_of_dimensions R T0 dims = None)) /\
  (forall e : TensorExpression T,
     invariant R (Tensor_of_expression e) <->
     Z.of_nat (expr_size e) = product (expr_dimSizes e) /\
     Z.of_nat (length (expr_dimSizes e)) = R) /\
  (forall dims (data : list T),
     Forall (fun d => 1 <= d) dims -> product dims <= int_max ->
     (Z.of_nat (length dims) = R -> Z.of_nat (length data) = product dims ->
        exists t, Tensor_of_buffer R dims data = Some t /\ invariant R t /\
                  _data t = data /\ _dimensions t = dims) /\
     (Z.of_nat (length dims) <> R \/ Z.of_nat (length data) <> product dims ->
        Tensor_of_buffer R dims data = None)) /\
  (forall t : Tensor T, invariant R t ->
     (forall idx indices a, call R t idx indices = Some a -> invariant R (after a)) /\
     (forall i v t', put t i v = Some t' -> invariant R t')).
Proof.
  unfold int_max. repeat apply conj.
  - intros HR. split; simpl.
    + rewrite product_replicate_0; lia.
    + rewrite length_replicate. lia.
  - intros dims Hpos Hp. unfold Tensor_of_dimensions, ASSERT_eq.
    rewrite accumulate_multiplies_int_product by (done || lia).
    pose proof (product_pos _ Hpos).
    destruct (decide (product dims < 0)); [lia|].
    split; intros Hlen.
    + destruct (decide _); [|done]. simpl. eexists. split; [done|].
      assert (to_size <$> dims = dims) as ->.
      { clear -Hpos Hp. induction Hpos as [|d l Hd Hl IH]; [done|].
        rewrite fmap_cons. simpl in Hp. pose proof (product_pos _ Hl).
        assert (d <= d * product l) by nia.
        assert (product l <= d * product l) by nia.
        rewrite to_size_small, IH by lia. done. }
      split; simpl; [|done]. rewrite length_replicate. lia.
    + destruct (decide _); [contradiction|done].
  - intros e. unfold invariant. simpl. by rewrite length_fmap, length_seq.
  - intros dims data Hpos Hp. unfold Tensor_of_buffer, ASSERT_eq.
    rewrite accumulate_multiplies_size_product by (done || lia).
    pose proof (product_pos _ Hpos).
    rewrite to_size_small by lia.
    split.
    + intros Hlen Hdata.
      destruct (decide (Z.of_nat (length dims) = R)); [|done]. simpl.
      destruct (decide _); [|done]. simpl.
      eexists. split; [reflexivity|]. split; [split; simpl; assumption|].
      split; reflexivity.
    + intros [Hne|Hne].
      * destruct (decide (Z.of_nat (length dims) = R)); [contradiction|done].
      * destruct (decide (Z.of_nat (length dims) = R)); [|done]. simpl.
        destruct (decide _); [contradiction|done].
  - intros t [Hd Hr]. split.
    + intros idx indices a [E1 E2]%call_frame. unfold invariant. by rewrite E1, E2.
    + intros i v t'. unfold put. destruct (decide _); [|done].
      intros [= <-]. unfold invariant. simpl. by rewrite length_insert.
Qed.

Lemma constructors_and_invariant_witness :
  invariant 2 (Tensor_default (T:=Z) 2) /\
  (exists t, Tensor_of_dimensions 2 0 [2; 3] = Some t /\ invariant 2 t) /\
  Tensor_of_dimensions 2 0 [2; 3; 4] = None /\
  invariant 2 (Tensor_of_expression (mkExpression 6 [2; 3] Z.of_nat)) /\
  (exists t, Tensor_of_buffer 2 [2; 3] [10; 11; 12; 13; 14; 15] = Some t /\
             invariant 2 t /\ _data t = [10; 11; 12; 13; 14; 15] /\
             _dimensions t = [2; 3]) /\
  Tensor_of_buffer 2 [2; 3] [10; 11; 12; 13; 14] = None /\
  (forall a, call 2 (mkTensor [10; 11; 12; 13; 14; 15] [2; 3] 0 0) 1 [2] = Some a ->
             invariant 2 (after a)) /\
  (forall t', put (mkTensor [10; 11; 12; 13; 14; 15] [2; 3] 0 0) 4 99 = Some t' ->
              invariant 2 t').
Proof.
  destruct (constructors_and_invariant (T:=Z) 2 0) as (Hd & Hl & He & Hb & Ho).
  assert (Forall (fun d => 1 <= d) [2; 3]) as P23 by (repeat constructor; lia).
  assert (Forall (fun d => 1 <= d) [2; 3; 4]) as P234 by (repeat constructor; lia).
  assert (product [2; 3] <= int_max) as B23 by (unfold int_max; simpl; lia).
  assert (product [2; 3; 4] <= int_max) as B234 by (unfold int_max; simpl; lia).
  split; [apply Hd; lia|].
  split; [apply (Hl [2; 3] P23 B23); reflexivity|].
  split; [apply (Hl [2; 3; 4] P234 B234); simpl; lia|].
  split; [apply He; split; reflexivity|].
  split; [apply (Hb [2; 3] _ P23 B23); reflexivity|].
  split; [apply (Hb [2; 3] _ P23 B23); right; simpl; lia|].
  assert (invariant 2 (mkTensor [10; 11; 12; 13; 14; 15] [2; 3] 0 0)) as I23
    by (split; reflexivity).
  split.
  - intros a. by apply (Ho _ I23).
  - intros t'. by apply (Ho _ I23).
Defined.

End TensorClaims.

(** ** Sums in a commutative monoid *)
Module SumFacts.
Import Kernels.

Section Monoid.
Context {dType : Type}.
Variable zero : dType.
Variable plus : dType -> dType -> dType.
Hypothesis plus_assoc : forall a b c, plus a (plus b c) = plus (plus a b) c.
Hypothesis plus_comm : forall a b, plus a b = plus b a.
Hypothesis plus_zero : forall a, plus zero a = a.

Local Abbreviation Sum := (Sum zero plus).

Lemma plus_zero_r a : plus a zero = a.
Proof. by rewrite plus_comm. Qed.

Lemma Sum_cons x l : Sum (x :: l) = plus x (Sum l).
Proof. done. Qed.

Lemma Sum_app l k : Sum (l ++ k) = plus (Sum l) (Sum k).
Proof.
  induction l as [|x l IH]; simpl.
  - by rewrite plus_zero.
  - by rewrite IH, plus_assoc.
Qed.

Lemma Sum_singleton x : Sum [x] = x.
Proof. apply plus_zero_r. Qed.

Lemma Sum_perm l k : l ≡ₚ k -> Sum l = Sum k.
Proof.
  induction 1 as [|x l k _ IH|x y l|l k m _ IH1 _ IH2]; simpl.
  - done.
  - by rewrite IH.
  - by rewrite !plus_assoc, (plus_comm x y).
  - by rewrite IH1.
Qed.

Lemma Sum_replicate_zero n : Sum (replicate n zero) = zero.
Proof. induction n as [|n IH]; simpl; [done|]. by rewrite IH, plus_zero. Qed.

Lemma Sum_concat (ls : list (list dType)) : Sum (concat ls) = Sum (Sum <$> ls).
Proof.
  induction ls as [|l ls IH]; simpl; [done|].
  by rewrite Sum_app, IH.
Qed.

Lemma Sum_bind {A : Type} (f : A -> list dType) (l : list A) :
  Sum (l ≫= f) = Sum ((fun a => Sum (f a)) <$> l).
Proof.
  induction l as [|a l IH]; [done|].
  rewrite bind_cons, fmap_cons, Sum_app, IH. done.
Qed.

End Monoid.
End SumFacts.

(** ** The warp-level reductions *)
Module WarpFacts.
Import Kernels Symbolic SumFacts.

Lemma shuffle_offsets_eq : shuffle_offsets = [16; 8; 4; 2; 1]%nat.
Proof. reflexivity. Qed.

(** A map applied to every defined register. *)
Local Abbreviation lift h := (fmap (M:=list) (fmap (M:=option) h)).

(** *** The reductions commute with maps that respect [plus] *)
Section Natural.
Context {A B : Type}.
Variable plusA : A -> A -> A.
Variable plusB : B -> B -> B.
Variable h : A -> B.
Hypothesis h_plus : forall a b, h (plusA a b) = plusB (h a) (h b).

Lemma vplus_natural a b :
  vplus plusB (h <$> a) (h <$> b) = h <$> vplus plusA a b.
Proof. destruct a, b; simpl; by rewrite ?h_plus. Qed.

Lemma lane_value_natural (vals : list (option A)) lane :
  lane_value (lift h vals) lane = h <$> lane_value vals lane.
Proof.
  unfold lane_value. rewrite list_lookup_fmap.
  by destruct (vals !! lane) as [[?|]|].
Qed.

Lemma shfl_down_natural (vals : list (option A)) lane delta :
  shfl_down (lift h vals) lane delta = h <$> shfl_down vals lane delta.
Proof. unfold shfl_down. destruct (decide _); apply lane_value_natural. Qed.

Lemma shfl_xor_natural (vals : list (option A)) lane mask :
  shfl_xor (lift h vals) lane mask = h <$> shfl_xor vals lane mask.
Proof. unfold shfl_xor. destruct (decide _); apply lane_value_natural. Qed.

Lemma warp_step_natural shflA shflB (vals : list (option A)) offset :
  (forall vals lane d, shflB (lift h vals) lane d = h <$> shflA vals lane d) ->
  warp_step plusB shflB (lift h vals) offset
  = lift h (warp_step plusA shflA vals offset).
Proof.
  intros Hs. unfold warp_step. rewrite imap_fmap, fmap_imap.
  apply imap_ext. intros lane val _. simpl.
  by rewrite Hs, vplus_natural.
Qed.

Lemma warp_loop_natural shflA shflB offsets : forall vals : list (option A),
  (forall vals lane d, shflB (lift h vals) lane d = h <$> shflA vals lane d) ->
  foldl (warp_step plusB shflB) (lift h vals) offsets
  = lift h (foldl (warp_step plusA shflA) vals offsets).
Proof.
  induction offsets as [|o offsets IH]; intros vals Hs; simpl; [done|].
  by rewrite (warp_step_natural shflA), IH.
Qed.

Lemma warpReduce_natural (vals : list (option A)) :
  warpReduce plusB (lift h vals) = lift h (warpReduce plusA vals).
Proof. apply warp_loop_natural, shfl_down_natural. Qed.

Lemma warpReduceAll_natural (vals : list (option A)) :
  warpReduceAll plusB (lift h vals) = lift h (warpReduceAll plusA vals).
Proof. apply warp_loop_natural, shfl_xor_natural. Qed.

End Natural.

(** *** What the lanes of a full warp hold, symbolically *)

Lemma warpReduce_symbolic :
  covers warpSize (lane_value (warpReduce Node (symbolic_lanes warpSize)) 0) = true.
Proof. vm_compute. reflexivity. Qed.

Lemma warpReduceAll_symbolic :
  forallb (covers warpSize) (warpReduceAll Node (symbolic_lanes warpSize)) = true /\
  length (warpReduceAll Node (symbolic_lanes warpSize)) = warpSize.
Proof. split; vm_compute; reflexivity. Qed.

Section Monoid.
Context {dType : Type}.
Variable zero : dType.
Variable plus : dType -> dType -> dType.
Hypothesis plus_assoc : forall a b c, plus a (plus b c) = plus (plus a b) c.
Hypothesis plus_comm : forall a b, plus a b = plus b a.
Hypothesis plus_zero : forall a, plus zero a = a.

Local Abbreviation Sum := (Sum zero plus).
Local Abbreviation eval := (eval zero plus).

(** A term evaluates to the sum of its leaves. *)
Lemma eval_leaves vals e :
  eval vals e = Sum ((fun i => default zero (vals !! i)) <$> leaves e).
Proof.
  induction e as [i|a IHa b IHb]; simpl.
  - by rewrite plus_comm, plus_zero.
  - rewrite fmap_app, (Sum_app zero plus) by done. by rewrite IHa, IHb.
Qed.

Lemma lookup_all (vals : list dType) :
  (fun i => default zero (vals !! i)) <$> seq 0 (length vals) = vals.
Proof.
  apply list_eq. intros i. rewrite list_lookup_fmap.
  destruct (decide (i < length vals)%nat) as [Hi|Hi].
  - rewrite lookup_seq_lt by done. simpl.
    destruct (lookup_lt_is_Some_2 vals i Hi) as [x Hx]. by rewrite Hx.
  - rewrite lookup_seq_ge by lia. simpl. symmetry. apply lookup_ge_None. lia.
Qed.

Lemma eval_covers vals r :
  covers (length vals) r = true ->
  exists e, r = Some e /\ eval vals e = Sum vals.
Proof.
  destruct r as [e|]; [|done]. simpl. intros Hc%bool_decide_eq_true.
  exists e. split; [done|]. rewrite eval_leaves.
  trans (Sum ((fun i => default zero (vals !! i)) <$> seq 0 (length vals)));
    [|by rewrite lookup_all].
  apply (Sum_perm zero plus); [done..|].
  apply fmap_Permutation. rewrite <- Hc. symmetry. apply merge_sort_Permutation.
Qed.

Lemma symbolic_lanes_eval (vals : list dType) :
  lift (eval vals) (symbolic_lanes (length vals)) = Some <$> vals.
Proof.
  unfold symbolic_lanes. rewrite <- list_fmap_compose.
  trans (Some <$> ((fun i => default zero (vals !! i)) <$> seq 0 (length vals)));
    [|by rewrite lookup_all].
  by rewrite <- list_fmap_compose.
Qed.

(** Lane 0 of [warpReduce], and every lane of [warpReduceAll], of a full
    warp. *)
Lemma warpReduce_full (vals : list dType) :
  length vals = warpSize ->
  lane_value (warpReduce plus (Some <$> vals)) 0 = Some (Sum vals).
Proof.
  intros Hlen. rewrite <- symbolic_lanes_eval.
  rewrite (warpReduce_natural Node plus (eval vals)) by done.
  rewrite lane_value_natural, Hlen.
  pose proof warpReduce_symbolic as Hc. rewrite <- Hlen in Hc at 1.
  apply eval_covers in Hc as (e & He & Hs).
  rewrite He. simpl. by rewrite Hs.
Qed.

Lemma warpReduceAll_full (vals : list dType) lane :
  length vals = warpSize -> (lane < warpSize)%nat ->
  lane_value (warpReduceAll plus (Some <$> vals)) lane = Some (Sum vals).
Proof.
  intros Hlen Hlane. rewrite <- symbolic_lanes_eval.
  rewrite (warpReduceAll_natural Node plus (eval vals)) by done.
  rewrite lane_value_natural, Hlen.
  destruct warpReduceAll_symbolic as [Hall Hn].
  destruct (lookup_lt_is_Some_2 (warpReduceAll Node (symbolic_lanes warpSize)) lane)
    as [r Hr]; [lia|].
  assert (covers (length vals) r = true) as Hc.
  { rewrite Hlen. rewrite forallb_forall in Hall. apply Hall.
    eapply list_elem_of_In, list_elem_of_lookup_2, Hr. }
  apply eval_covers in Hc as (e & -> & Hs).
  unfold lane_value. rewrite Hr. simpl. by rewrite Hs.
Qed.

End Monoid.
End WarpFacts.

(** ** The block-level reduction *)
Module BlockFacts.
Import Kernels Symbolic SumFacts WarpFacts.

Lemma length_warp_step {dType : Type} (plus : dType -> dType -> dType) shfl vals offset :
  length (warp_step plus shfl vals offset) = length vals.
Proof. unfold warp_step. apply length_imap. Qed.

Lemma length_warp_loop {dType : Type} (plus : dType -> dType -> dType) shfl offsets :
  forall vals, length (foldl (warp_step plus shfl) vals offsets) = length vals.
Proof.
  induction offsets as [|o offsets IH]; intros vals; simpl; [done|].
  by rewrite IH, length_warp_step.
Qed.

Lemma length_warpReduce {dType : Type} (plus : dType -> dType -> dType) vals :
  length (warpReduce plus vals) = length vals.
Proof. apply length_warp_loop. Qed.

(** Stores into distinct slots, one per warp. *)
Lemma shared_lookup {A : Type} (g : nat -> A) (init : list A) k j :
  (k <= length init)%nat ->
  foldl (fun sh wid => <[wid := g wid]> sh) init (seq 0 k) !! j =
  if decide (j < k)%nat then Some (g j) else init !! j.
Proof.
  induction k as [|k IH]; intros Hk.
  - destruct (decide (j < 0)%nat); [lia|done].
  - rewrite seq_S, foldl_app. cbn [foldl Nat.add].
    assert (length (foldl (fun sh wid => <[wid := g wid]> sh) init (seq 0 k))
            = length init) as Hlen.
    { clear. generalize (seq 0 k). intros l. revert init.
      induction l as [|w l IHl]; intros init; simpl; [done|].
      by rewrite IHl, length_insert. }
    destruct (decide (j = k)) as [->|Hne].
    + rewrite list_lookup_insert_eq by (rewrite Hlen; lia). destruct (decide (k < S k)%nat); [done|lia].
    + rewrite list_lookup_insert_ne by done. rewrite IH by lia.
      destruct (decide (j < k)%nat), (decide (j < S k)%nat); done || lia.
Qed.

Lemma fmap_constant {A B : Type} (f : A -> B) (c : B) (l : list A) :
  (forall x, x ∈ l -> f x = c) -> f <$> l = replicate (length l) c.
Proof.
  induction l as [|x l IH]; intros H; [done|].
  rewrite fmap_cons. simpl. rewrite H by left. rewrite IH; [done|].
  intros y Hy. apply H. by right.
Qed.

(** A list cut into [k] pieces of [n] elements. *)
Lemma chunks_concat {A : Type} (n k : nat) : forall l : list A,
  length l = (k * n)%nat ->
  concat ((fun w => take n (drop (w * n) l)) <$> seq 0 k) = l.
Proof.
  induction k as [|k IH]; intros l Hl.
  - simpl in *. by destruct l.
  - rewrite <- cons_seq, fmap_cons. simpl. rewrite drop_0.
    rewrite <- fmap_S_seq, <- list_fmap_compose.
    trans (take n l ++ drop n l); [|apply take_drop]. f_equal.
    rewrite <- (IH (drop n l)) by (rewrite length_drop; lia).
    f_equal. apply list_fmap_ext. intros _ w _. simpl.
    by rewrite drop_drop.
Qed.

Section Monoid.
Context {dType : Type}.
Variable zero : dType.
Variable plus : dType -> dType -> dType.
Hypothesis plus_assoc : forall a b c, plus a (plus b c) = plus (plus a b) c.
Hypothesis plus_comm : forall a b, plus a b = plus b a.
Hypothesis plus_zero : forall a, plus zero a = a.

Local Abbreviation Sum := (Sum zero plus).

Lemma warp_of_full (vals : list dType) k w :
  length vals = (k * warpSize)%nat -> (w < k)%nat ->
  warp_of (Some <$> vals) w = Some <$> take warpSize (drop (w * warpSize) vals) /\
  length (take warpSize (drop (w * warpSize) vals)) = warpSize.
Proof.
  intros Hlen Hw. unfold warp_of. split.
  - by rewrite fmap_take, fmap_drop.
  - rewrite length_take, length_drop. nia.
Qed.

(** Thread 0 of a block of [k] full warps returns the sum of the
    arguments of all threads of the block. *)
Lemma blockReduce_full (k : nat) (vals : list dType) :
  (1 <= k <= 32)%nat ->
  length vals = (k * warpSize)%nat ->
  lane_value (blockReduce zero plus (k * warpSize) (Some <$> vals)) 0
  = Some (Sum vals).
Proof.
  intros Hk Hlen. unfold blockReduce.
  set (chunk := fun w => take warpSize (drop (w * warpSize) vals)).
  assert (warps_of_block (k * warpSize) = seq 0 k) as ->.
  { unfold warps_of_block. f_equal. unfold warpSize.
    symmetry. apply Nat.div_unique with (r := 31%nat); lia. }
  assert ((k * warpSize / warpSize)%nat = k) as ->.
  { apply Nat.div_mul. done. }
  set (shared := foldl _ _ _).
  assert (forall j, (j < k)%nat -> lane_value shared j = Some (Sum (chunk j))) as Hsh.
  { intros j Hj. unfold lane_value, shared.
    rewrite (shared_lookup (fun wid => lane_value (warpReduce plus (warp_of (Some <$> vals) wid)) 0))
      by (rewrite length_replicate; lia).
    destruct (decide (j < k)%nat); [|lia]. simpl.
    destruct (warp_of_full vals k j Hlen Hj) as [-> Hl].
    by apply warpReduce_full. }
  set (vals' := _ <$> seq 0 (k * warpSize)).
  assert (warp_of vals' 0 =
          Some <$> ((fun w => Sum (chunk w)) <$> seq 0 k) ++ replicate (32 - k) zero) as Hw.
  { unfold warp_of, vals'. rewrite drop_0, <- fmap_take, take_seq.
    replace (warpSize `min` (k * warpSize))%nat with (k + (32 - k))%nat
      by (unfold warpSize; lia).
    rewrite seq_app, !fmap_app. f_equal.
    - rewrite <- list_fmap_compose. apply list_fmap_ext.
      intros i w [-> Hi]%lookup_seq. cbn [Nat.add compose].
      destruct (decide (i < k)%nat); [|lia].
      rewrite Nat.mod_small by (unfold warpSize; lia). by apply Hsh.
    - rewrite fmap_replicate.
      rewrite <- (length_seq (32 - k) (0 + k)) at 2.
      apply fmap_constant. intros w [Hw _]%elem_of_seq.
      destruct (decide (w < k)%nat); [lia|done]. }
  unfold lane_value at 1. rewrite lookup_app_l
    by (rewrite length_warpReduce, Hw, length_fmap, length_app, length_fmap,
          length_seq, length_replicate; lia).
  fold (lane_value (warpReduce plus (warp_of vals' 0)) 0). rewrite Hw.
  rewrite (warpReduce_full zero plus); try done.
  - f_equal. rewrite (Sum_app zero plus), (Sum_replicate_zero zero plus) by done.
    rewrite (plus_comm _ zero), plus_zero.
    replace ((fun w => Sum (chunk w)) <$> seq 0 k)
      with (Sum <$> (chunk <$> seq 0 k)) by (by rewrite <- list_fmap_compose).
    rewrite <- (Sum_concat zero plus) by done.
    unfold chunk. by rewrite chunks_concat.
  - rewrite length_app, length_fmap, length_seq, length_replicate.
    unfold warpSize. lia.
Qed.

End Monoid.
End BlockFacts.

(** ** The grid-level reduction *)
Module GridFacts.
Import Kernels Footprint SumFacts WarpFacts BlockFacts MachineFacts.

Lemma half_bounds N : 0 <= N -> 0 <= N / 2 /\ N / 2 * 2 <= N < N / 2 * 2 + 2.
Proof.
  intros HN. pose proof (Z.div_mod N 2 ltac:(lia)).
  pose proof (Z.mod_pos_bound N 2 ltac:(lia)). lia.
Qed.

Lemma thread_index_exact blockDim gridDim b t :
  Z.of_nat blockDim * Z.of_nat gridDim <= int_max ->
  (b < gridDim)%nat -> (t < blockDim)%nat ->
  thread_index blockDim b t = Z.of_nat b * Z.of_nat blockDim + Z.of_nat t /\
  0 <= thread_index blockDim b t < Z.of_nat blockDim * Z.of_nat gridDim.
Proof.
  unfold int_max, thread_index. intros HT Hb Ht.
  assert (0 <= Z.of_nat b * Z.of_nat blockDim + Z.of_nat t
          < Z.of_nat blockDim * Z.of_nat gridDim) by nia.
  rewrite to_uint_small, to_int_small by lia. done.
Qed.

(** *** Membership in a footprint *)

Lemma elem_of_loop_positions M stride p : forall fuel i,
  0 < stride -> M - i <= Z.of_nat fuel * stride ->
  p ∈ loop_positions M stride fuel i <->
  exists j, 0 <= j /\ i + j * stride < M /\
            (p = 2 * (i + j * stride) \/ p = 2 * (i + j * stride) + 1).
Proof.
  induction fuel as [|fuel IH]; intros i Hs Hf; simpl.
  - split; [by intros ?%elem_of_nil|]. intros (j & ? & ? & _). nia.
  - destruct (decide (i < M)) as [Hi|Hi].
    + rewrite !elem_of_cons, IH by (done || nia). split.
      * intros [->|[->|(j & ? & ? & Hp)]].
        -- exists 0. lia.
        -- exists 0. lia.
        -- exists (j + 1). split; [lia|]. split; [lia|]. lia.
      * intros (j & Hj & Hlt & Hp).
        destruct (decide (j = 0)) as [->|].
        -- lia.
        -- right; right. exists (j - 1). split; [lia|]. split; [lia|]. lia.
    + split; [by intros ?%elem_of_nil|]. intros (j & ? & ? & _). nia.
Qed.

Lemma loop_positions_bounds M stride p : forall fuel i,
  0 < stride -> p ∈ loop_positions M stride fuel i -> 2 * i <= p < 2 * M.
Proof.
  induction fuel as [|fuel IH]; intros i Hs; simpl.
  - by intros ?%elem_of_nil.
  - destruct (decide (i < M)); [|by intros ?%elem_of_nil].
    rewrite !elem_of_cons. intros [->|[->|H%IH]]; lia.
Qed.

Lemma NoDup_loop_positions M stride : forall fuel i,
  0 < stride -> NoDup (loop_positions M stride fuel i).
Proof.
  induction fuel as [|fuel IH]; intros i Hs; simpl; [constructor|].
  destruct (decide (i < M)); [|constructor].
  apply NoDup_cons. split.
  - rewrite elem_of_cons. intros [?|H%loop_positions_bounds]; lia.
  - apply NoDup_cons. split; [|by apply IH].
    intros H%loop_positions_bounds; lia.
Qed.

Lemma elem_of_thread_positions N stride idx p :
  0 <= N -> 0 < stride -> 0 <= idx ->
  p ∈ thread_positions N stride idx <->
  (exists j, 0 <= j /\ idx + j * stride < N / 2 /\
             (p = 2 * (idx + j * stride) \/ p = 2 * (idx + j * stride) + 1)) \/
  (p = idx + N / 2 * 2 /\ idx + N / 2 * 2 < N).
Proof.
  intros HN Hs Hi. unfold thread_positions.
  destruct (half_bounds N HN) as [HM _].
  rewrite elem_of_app, elem_of_loop_positions by (done || nia).
  destruct (decide (idx + N / 2 * 2 < N)).
  - rewrite list_elem_of_singleton. tauto.
  - rewrite elem_of_nil. intuition lia.
Qed.

Lemma NoDup_thread_positions N stride idx :
  0 <= N -> 0 < stride -> 0 <= idx -> NoDup (thread_positions N stride idx).
Proof.
  intros HN Hs Hi. unfold thread_positions. apply NoDup_app. split; [|split].
  - by apply NoDup_loop_positions.
  - intros p Hp%loop_positions_bounds; [|done].
    destruct (decide _); [|by intros ?%elem_of_nil].
    rewrite list_elem_of_singleton. lia.
  - destruct (decide _); [apply NoDup_singleton|constructor].
Qed.

(** A position determines the thread that reads it. *)
Lemma thread_positions_owner N stride idx1 idx2 p :
  0 <= N -> 0 < stride -> 0 <= idx1 < stride -> 0 <= idx2 < stride ->
  p ∈ thread_positions N stride idx1 -> p ∈ thread_positions N stride idx2 ->
  idx1 = idx2.
Proof.
  intros HN Hs H1 H2.
  rewrite !elem_of_thread_positions by lia.
  destruct (half_bounds N HN) as [HM Hb].
  intros [(j1 & ? & ? & Hp1)|[-> ?]] [(j2 & ? & ? & Hp2)|[Hp2 ?]]; try lia.
  assert (idx1 + j1 * stride = idx2 + j2 * stride) as E by lia.
  assert (j1 = j2) by nia. subst. lia.
Qed.

(** Every position below [N] is read by some thread. *)
Lemma thread_positions_cover N stride p :
  0 <= N -> 0 < stride -> 0 <= p < N ->
  exists idx, 0 <= idx < stride /\ p ∈ thread_positions N stride idx.
Proof.
  intros HN Hs Hp. destruct (half_bounds N HN) as [HM Hb].
  destruct (decide (p < N / 2 * 2)) as [Hlt|Hge].
  - pose proof (Z.div_mod p 2 ltac:(lia)) as E2.
    pose proof (Z.mod_pos_bound p 2 ltac:(lia)) as B2.
    pose proof (Z.div_mod (p / 2) stride ltac:(lia)) as Es.
    pose proof (Z.mod_pos_bound (p / 2) stride ltac:(lia)) as Bs.
    assert (0 <= p / 2 / stride) by (apply Z.div_pos; lia).
    exists ((p / 2) mod stride). split; [lia|].
    apply elem_of_thread_positions; [lia..|]. left.
    exists (p / 2 / stride). split; [done|]. split; [lia|]. lia.
  - exists 0. split; [lia|].
    apply elem_of_thread_positions; [lia..|]. right. lia.
Qed.


(** The footprints of the threads of a launch split the positions
    [0 .. N - 1] among them, whatever the order of the blocks. *)
Lemma grid_positions_perm blockDim gridDim N blocks :
  0 <= N -> (0 < blockDim)%nat -> (0 < gridDim)%nat ->
  blocks ≡ₚ seq 0 gridDim ->
  grid_positions blockDim gridDim N blocks ≡ₚ seqZ 0 N.
Proof.
  intros HN Hbd Hgd Hperm. unfold grid_positions. rewrite Hperm. clear Hperm.
  set (stride := Z.of_nat blockDim * Z.of_nat gridDim).
  assert (0 < stride) as Hs by (unfold stride; nia).
  assert (forall b t, (b < gridDim)%nat -> (t < blockDim)%nat ->
            0 <= Z.of_nat b * Z.of_nat blockDim + Z.of_nat t < stride) as Hidx
    by (intros; unfold stride; nia).
  apply NoDup_Permutation.
  - apply NoDup_bind; [| |apply NoDup_seq].
    + intros b1 b2 p [_ Hb1]%elem_of_seq [_ Hb2]%elem_of_seq.
      intros (t1 & Hp1 & [_ Ht1]%elem_of_seq)%list_elem_of_bind
             (t2 & Hp2 & [_ Ht2]%elem_of_seq)%list_elem_of_bind.
      pose proof (thread_positions_owner N stride _ _ p HN Hs
                    (Hidx b1 t1 ltac:(lia) ltac:(lia))
                    (Hidx b2 t2 ltac:(lia) ltac:(lia)) Hp1 Hp2). nia.
    + intros b [_ Hb]%elem_of_seq.
      apply NoDup_bind; [| |apply NoDup_seq].
      * intros t1 t2 p [_ Ht1]%elem_of_seq [_ Ht2]%elem_of_seq Hp1 Hp2.
        pose proof (thread_positions_owner N stride _ _ p HN Hs
                      (Hidx b t1 ltac:(lia) ltac:(lia))
                      (Hidx b t2 ltac:(lia) ltac:(lia)) Hp1 Hp2). lia.
      * intros t [_ Ht]%elem_of_seq. apply NoDup_thread_positions; lia || nia.
  - apply NoDup_seqZ.
  - intros p. rewrite elem_of_seqZ. split.
    + intros (b & (t & Hp & [_ Ht]%elem_of_seq)%list_elem_of_bind
                & [_ Hb]%elem_of_seq)%list_elem_of_bind.
      apply elem_of_thread_positions in Hp; [|lia|lia|nia].
      destruct (half_bounds N HN) as [HM Hb2].
      destruct Hp as [(j & ? & ? & Hp)|[-> ?]]; nia.
    + intros Hp.
      destruct (thread_positions_cover N stride p HN Hs ltac:(lia))
        as (idx & Hi & Hin).
      pose proof (Z.div_mod idx (Z.of_nat blockDim) ltac:(lia)) as E.
      pose proof (Z.mod_pos_bound idx (Z.of_nat blockDim) ltac:(lia)) as B.
      assert (0 <= idx / Z.of_nat blockDim) by (apply Z.div_pos; lia).
      assert (idx / Z.of_nat blockDim < Z.of_nat gridDim).
      { apply Z.div_lt_upper_bound; [lia|]. fold stride. lia. }
      apply list_elem_of_bind. exists (Z.to_nat (idx / Z.of_nat blockDim)).
      split; [|apply elem_of_seq; lia].
      apply list_elem_of_bind. exists (Z.to_nat (idx mod Z.of_nat blockDim)).
      split; [|apply elem_of_seq; lia].
      rewrite !Z2Nat.id by lia.
      replace (idx / Z.of_nat blockDim * Z.of_nat blockDim + idx mod Z.of_nat blockDim)
        with idx by lia.
      done.
Qed.


Lemma seqZ_lookup_all {A : Type} (d : A) (l : list A) (N : Z) :
  0 <= N <= Z.of_nat (length l) ->
  (fun p => default d (l !! Z.to_nat p)) <$> seqZ 0 N = take (Z.to_nat N) l.
Proof.
  intros HN. apply list_eq. intros i. rewrite list_lookup_fmap.
  destruct (decide (Z.of_nat i < N)) as [Hi|Hi].
  - rewrite lookup_seqZ_lt by lia. rewrite Z.add_0_l.
    change (Some (default d (l !! Z.to_nat (Z.of_nat i))) = take (Z.to_nat N) l !! i).
    rewrite Nat2Z.id, lookup_take_lt by lia.
    destruct (lookup_lt_is_Some_2 l i) as [x Hx]; [lia|]. by rewrite Hx.
  - rewrite lookup_seqZ_ge by lia. simpl. symmetry. apply lookup_take_ge. lia.
Qed.

Lemma fmap_bind_list {A B C : Type} (f : B -> C) (g : A -> list B) (l : list A) :
  f <$> (l ≫= g) = l ≫= (fun a => f <$> g a).
Proof.
  induction l as [|a l IH]; [done|].
  by rewrite !bind_cons, fmap_app, IH.
Qed.

Section Monoid.
Context {dType : Type}.
Variable zero : dType.
Variable plus : dType -> dType -> dType.
Hypothesis plus_assoc : forall a b c, plus a (plus b c) = plus (plus a b) c.
Hypothesis plus_comm : forall a b, plus a b = plus b a.
Hypothesis plus_zero : forall a, plus zero a = a.

Variables blockDim gridDim : nat.
Variable input : list dType.
Variable N : Z.

Local Abbreviation Sum := (Sum zero plus).
Local Abbreviation stride := (Z.of_nat blockDim * Z.of_nat gridDim).
Local Abbreviation rd := (fun p : Z => default zero (input !! Z.to_nat p)).

Hypothesis launch : 0 < stride.
Hypothesis input_length : 0 <= N <= Z.of_nat (length input).
Hypothesis fits : N + stride <= int_max.

Lemma read_inside p : 0 <= p < N -> input !! Z.to_nat p = Some (rd p).
Proof.
  intros Hp. destruct (lookup_lt_is_Some_2 input (Z.to_nat p)) as [x Hx]; [lia|].
  by rewrite Hx.
Qed.

Lemma vector_loop_S fuel i sum :
  vector_loop plus blockDim gridDim input N (S fuel) i sum =
  if decide (to_size i < N / 2) then
    vector_loop plus blockDim gridDim input N fuel
      (to_int (to_uint (to_uint i + to_uint stride)))
      (vplus plus sum (vplus plus (input !! Z.to_nat (2 * i))
                                  (input !! Z.to_nat (2 * i + 1))))
  else sum.
Proof. done. Qed.

Lemma loop_positions_S M s fuel i :
  loop_positions M s (S fuel) i =
  if decide (i < M) then 2 * i :: 2 * i + 1 :: loop_positions M s fuel (i + s)
  else [].
Proof. done. Qed.

(** With enough fuel the loop adds up the elements at its positions. *)
Lemma vector_loop_sum : forall fuel i acc,
  0 <= i <= N / 2 + stride ->
  N / 2 - i <= Z.of_nat fuel * stride ->
  vector_loop plus blockDim gridDim input N (S fuel) i (Some acc)
  = Some (plus acc (Sum (rd <$> loop_positions (N / 2) stride (S fuel) i))).
Proof.
  assert (0 <= N) as HN by lia.
  destruct (half_bounds N HN) as [HM Hb]. unfold int_max in fits.
  induction fuel as [|fuel IH]; intros i acc Hi Hf;
    rewrite vector_loop_S, loop_positions_S, (to_size_small i) by lia;
    destruct (decide (i < N / 2)) as [Hlt|Hge];
    try (simpl; by rewrite plus_comm, plus_zero).
  - simpl in Hf. lia.
  - rewrite Nat2Z.inj_succ in Hf.
    rewrite (to_uint_small i), (to_uint_small stride) by lia.
    rewrite (to_uint_small (i + stride)), (to_int_small (i + stride)) by lia.
    rewrite (read_inside (2 * i)), (read_inside (2 * i + 1)) by lia.
    cbn [vplus mbind option_bind].
    rewrite IH by lia.
    f_equal. rewrite !fmap_cons, !(Sum_cons zero plus).
    by rewrite !plus_assoc.
Qed.

(** What a thread, a block and the grid add up. *)
Lemma thread_sum_positions b t :
  (b < gridDim)%nat -> (t < blockDim)%nat ->
  thread_sum zero plus blockDim gridDim input N b t
  = Some (Sum (rd <$> thread_positions N stride
                        (Z.of_nat b * Z.of_nat blockDim + Z.of_nat t))).
Proof.
  intros Hb Ht. assert (0 <= N) as HN by lia.
  destruct (half_bounds N HN) as [HM Hh].
  destruct (thread_index_exact blockDim gridDim b t) as [E Hi]; [lia|done|done|].
  unfold thread_sum, thread_positions. rewrite E in *. unfold int_max in fits.
  set (idx := Z.of_nat b * Z.of_nat blockDim + Z.of_nat t) in *.
  rewrite vector_loop_sum by (rewrite ?Z2Nat.id by lia; nia).
  rewrite plus_zero.
  rewrite (to_size_small idx), (to_size_small (idx + _)), to_int_small by lia.
  rewrite (to_size_small (idx + _)) by lia.
  destruct (decide (idx + N / 2 * 2 < N)).
  - rewrite read_inside by lia. simpl.
    rewrite fmap_app, (Sum_app zero plus) by done.
    by rewrite fmap_cons, (Sum_singleton zero plus).
  - by rewrite app_nil_r.
Qed.

Lemma block_sum_positions k b :
  blockDim = (k * warpSize)%nat -> (1 <= k <= 32)%nat -> (b < gridDim)%nat ->
  block_sum zero plus blockDim gridDim input N b
  = Some (Sum (rd <$> (t ← seq 0 blockDim;
                       thread_positions N stride
                         (Z.of_nat b * Z.of_nat blockDim + Z.of_nat t)))).
Proof.
  intros Hbd Hk Hb. unfold block_sum.
  set (tp := fun t => thread_positions N stride
                        (Z.of_nat b * Z.of_nat blockDim + Z.of_nat t)).
  assert (thread_sum zero plus blockDim gridDim input N b <$> seq 0 blockDim
          = Some <$> ((fun t => Sum (rd <$> tp t)) <$> seq 0 blockDim)) as ->.
  { rewrite <- list_fmap_compose. apply list_fmap_ext.
    intros i t [-> Hi]%lookup_seq. by apply thread_sum_positions. }
  rewrite Hbd at 1.
  rewrite (blockReduce_full zero plus) by (rewrite ?length_fmap, ?length_seq; done).
  f_equal. rewrite fmap_bind_list, (Sum_bind zero plus) by done. done.
Qed.

Lemma atomic_adds (partial : nat -> dType) schedule : forall out,
  (forall b, b ∈ schedule ->
     block_sum zero plus blockDim gridDim input N b = Some (partial b)) ->
  blockReduceAtomicVectorized zero plus blockDim gridDim input N schedule out
  = Some (plus out (Sum (partial <$> schedule))).
Proof.
  unfold blockReduceAtomicVectorized.
  induction schedule as [|b schedule IH]; intros out Hp.
  - simpl. by rewrite plus_comm, plus_zero.
  - cbn [foldl]. rewrite Hp by left. cbn [vplus mbind option_bind].
    rewrite IH by (intros; apply Hp; by right).
    by rewrite fmap_cons, (Sum_cons zero plus), plus_assoc.
Qed.

Lemma grid_sum k schedule out :
  blockDim = (k * warpSize)%nat -> (1 <= k <= 32)%nat ->
  schedule ≡ₚ seq 0 gridDim ->
  blockReduceAtomicVectorized zero plus blockDim gridDim input N schedule out
  = Some (plus out (Sum (take (Z.to_nat N) input))).
Proof.
  intros Hbd Hk Hperm.
  rewrite (atomic_adds
    (fun b => Sum (rd <$> (t ← seq 0 blockDim;
                          thread_positions N stride
                            (Z.of_nat b * Z.of_nat blockDim + Z.of_nat t))))).
  - do 2 f_equal.
    trans (Sum (rd <$> grid_positions blockDim gridDim N schedule)).
    { unfold grid_positions.
      rewrite fmap_bind_list, (Sum_bind zero plus) by done. done. }
    trans (Sum (rd <$> seqZ 0 N)).
    { apply (Sum_perm zero plus); [done..|].
      apply fmap_Permutation, grid_positions_perm; try done; lia. }
    by rewrite seqZ_lookup_all.
  - intros b Hb. apply (block_sum_positions k); try done.
    rewrite Hperm in Hb. by apply elem_of_seq in Hb as [_ ?].
Qed.

End Monoid.
End GridFacts.

(** ** The element-wise kernels *)
Module ElementwiseFacts.
Import Kernels Footprint MachineFacts GridFacts.

Lemma elem_of_grid_threads gridDim blockDim b t :
  (b, t) ∈ grid_threads gridDim blockDim <-> (b < gridDim)%nat /\ (t < blockDim)%nat.
Proof.
  unfold grid_threads. rewrite list_elem_of_bind. split.
  - intros (b' & (t' & [= -> ->]%list_elem_of_singleton & Ht)%list_elem_of_bind & Hb).
    apply elem_of_seq in Ht, Hb. lia.
  - intros [Hb Ht]. exists b. split; [|apply elem_of_seq; lia].
    apply list_elem_of_bind. exists t. split; [|apply elem_of_seq; lia].
    by apply list_elem_of_singleton.
Qed.

Lemma NoDup_grid_threads gridDim blockDim : NoDup (grid_threads gridDim blockDim).
Proof.
  unfold grid_threads. apply NoDup_bind; [| |apply NoDup_seq].
  - intros b1 b2 [b t] _ _.
    intros (t1 & [= -> ->]%list_elem_of_singleton & _)%list_elem_of_bind
           (t2 & [= -> ->]%list_elem_of_singleton & _)%list_elem_of_bind.
    done.
  - intros b _. apply NoDup_bind; [| |apply NoDup_seq].
    + intros t1 t2 [b' t] _ _ [= -> ->]%list_elem_of_singleton
                              [= ->]%list_elem_of_singleton. done.
    + intros. apply NoDup_singleton.
Qed.

Section Softmax.
Context {dType : Type}.
Variable f : dType -> dType.
Variable div : dType -> dType -> dType.
Variables blockDim gridDim : nat.
Variable input : list dType.
Variable N : Z.

Hypothesis fits : Z.of_nat blockDim * Z.of_nat gridDim <= int_max.
Hypothesis input_length : N <= Z.of_nat (length input).

(** The element of [out] the thread [(b, t)] is responsible for. *)
Local Abbreviation slot bt := (bt.1 * blockDim + bt.2)%nat.
Local Abbreviation valid bt := ((bt.1 < gridDim)%nat /\ (bt.2 < blockDim)%nat).

(** [f( in[ i ] ) / out[ i ]] *)
Local Abbreviation quotient out i :=
  (x ← input !! i; y ← out !! i; Some (div (f x) y)).

Lemma softmax_thread_effect bt (out : list dType) :
  valid bt -> N <= Z.of_nat (length out) ->
  softmax_thread f div blockDim input N bt out =
  if decide (Z.of_nat (slot bt) < N)
  then x ← input !! slot bt; y ← out !! slot bt;
       Some (<[slot bt := div (f x) y]> out)
  else Some out.
Proof.
  intros [Hb Ht] Hout. unfold softmax_thread.
  destruct (thread_index_exact blockDim gridDim bt.1 bt.2 fits Hb Ht) as [-> Hi].
  unfold int_max in fits.
  rewrite to_size_small by lia.
  replace (Z.of_nat bt.1 * Z.of_nat blockDim + Z.of_nat bt.2)
    with (Z.of_nat (slot bt)) by lia.
  by rewrite Nat2Z.id.
Qed.

Lemma slot_inj bt1 bt2 : valid bt1 -> valid bt2 -> slot bt1 = slot bt2 -> bt1 = bt2.
Proof.
  destruct bt1 as [b1 t1], bt2 as [b2 t2]. simpl. intros [? ?] [? ?] E.
  assert (b1 = b2) by nia. subst. f_equal. lia.
Qed.

(** Threads with distinct slots, in any order. *)
Lemma softmax_run schedule : forall out : list dType,
  (forall bt, bt ∈ schedule -> valid bt) -> NoDup schedule ->
  N <= Z.of_nat (length out) ->
  exists out',
    softmaxKernel f div blockDim input N schedule out = Some out' /\
    length out' = length out /\
    (forall bt, bt ∈ schedule -> Z.of_nat (slot bt) < N ->
       out' !! slot bt = quotient out (slot bt)) /\
    (forall i, (forall bt, bt ∈ schedule -> Z.of_nat (slot bt) < N -> slot bt <> i) ->
       out' !! i = out !! i).
Proof.
  unfold softmaxKernel, run_threads.
  induction schedule as [|bt schedule IH]; intros out Hv Hnd Hout.
  - exists out. split; [done|]. split; [done|].
    split; [by intros bt ?%elem_of_nil|done].
  - apply NoDup_cons in Hnd as [Hbt Hnd].
    assert (valid bt) as Hvb by (apply Hv; left).
    cbn [foldl]. simpl. rewrite softmax_thread_effect by done.
    destruct (decide (Z.of_nat (slot bt) < N)) as [Hlt|Hge].
    + destruct (lookup_lt_is_Some_2 input (slot bt)) as [x Hx]; [lia|].
      destruct (lookup_lt_is_Some_2 out (slot bt)) as [y Hy]; [lia|].
      rewrite Hx, Hy. simpl.
      destruct (IH (<[slot bt := div (f x) y]> out)) as (out' & E & Hl & Hin & Hout');
        [intros; apply Hv; by right|done|by rewrite length_insert|].
      exists out'. split; [done|]. rewrite length_insert in Hl. split; [done|]. split.
      * intros bt' [->|Hbt']%elem_of_cons Hlt'.
        -- rewrite Hout'.
           ++ rewrite list_lookup_insert_eq by lia. by rewrite Hx, Hy.
           ++ intros bt' Hbt' _ E'. apply slot_inj in E'; [|by apply Hv; right|done].
              by subst.
        -- rewrite Hin by done.
           assert (slot bt <> slot bt') as Hne.
           { intros E'. apply slot_inj in E'; [|done|by apply Hv; right]. by subst. }
           by rewrite list_lookup_insert_ne.
      * intros i Hi. rewrite Hout'.
        -- apply list_lookup_insert_ne. apply Hi; [left|done].
        -- intros bt' Hbt'. apply Hi. by right.
    + destruct (IH out) as (out' & E & Hl & Hin & Hout');
        [intros; apply Hv; by right|done|done|].
      exists out'. split; [done|]. split; [done|]. split.
      * intros bt' [->|Hbt']%elem_of_cons Hlt'; [lia|by apply Hin].
      * intros i Hi. apply Hout'. intros bt' Hbt'. apply Hi. by right.
Qed.

Lemma softmax_launch schedule (out : list dType) :
  schedule ≡ₚ grid_threads gridDim blockDim ->
  N <= Z.of_nat (length out) ->
  exists out',
    softmaxKernel f div blockDim input N schedule out = Some out' /\
    length out' = length out /\
    forall i : nat,
      out' !! i =
      if decide (Z.of_nat i < N /\ Z.of_nat i < Z.of_nat blockDim * Z.of_nat gridDim)
      then quotient out i else out !! i.
Proof.
  intros Hperm Hout.
  destruct (softmax_run schedule out) as (out' & E & Hl & Hin & Hout'); [| |done|].
  { intros [b t]. rewrite Hperm. apply elem_of_grid_threads. }
  { rewrite Hperm. apply NoDup_grid_threads. }
  exists out'. split; [done|]. split; [done|]. intros i.
  destruct (decide _) as [[HiN HiT]|Hno].
  - assert (0 < blockDim)%nat as Hbd by nia.
    pose proof (Nat.div_mod_eq i blockDim) as Ed.
    pose proof (Nat.mod_upper_bound i blockDim ltac:(lia)) as Hm.
    assert (i `div` blockDim < gridDim)%nat by (apply Nat.Div0.div_lt_upper_bound; nia).
    specialize (Hin (i `div` blockDim, i `mod` blockDim)%nat). simpl in Hin.
    replace (i `div` blockDim * blockDim + i `mod` blockDim)%nat with i in Hin by lia.
    apply Hin; [|done]. rewrite Hperm. by apply elem_of_grid_threads.
  - apply Hout'. intros [b t]. rewrite Hperm. intros [Hb Ht]%elem_of_grid_threads.
    simpl. intros Hlt Eq. subst i. apply Hno. split; [done|]. nia.
Qed.

End Softmax.

Section Scatter.
Context {dType : Type}.
Variables blockDim gridDim : nat.
Variable N : Z.
Variable old : list dType.                   (* data before the launch *)

Hypothesis fits : Z.of_nat blockDim * Z.of_nat gridDim <= int_max.
Hypothesis cover : (blockDim * gridDim <= length old)%nat.
Hypothesis count : N <= Z.of_nat (length old).

Local Abbreviation source := (scatter_source blockDim).
Local Abbreviation scattered := (scattered blockDim N old).

(** Thread 0 of a block reads the block's first element when
    [blockIdx.x < blockDim.x], and element 0 otherwise:
    [idx - blockDim.x * blockIdx.x] is 0 for [threadIdx.x = 0]. *)
Lemma scatter_source_index b :
  (b < gridDim)%nat -> (0 < blockDim)%nat ->
  Z.to_nat (thread_index blockDim b 0) = (b * blockDim)%nat /\
  Z.to_nat (to_uint (to_uint (thread_index blockDim b 0) -
                     to_uint (Z.of_nat blockDim * Z.of_nat b))) = 0%nat.
Proof.
  intros Hb Hbd.
  destruct (thread_index_exact blockDim gridDim b 0 fits Hb Hbd) as [-> Hi].
  unfold int_max in fits.
  assert (0 <= Z.of_nat blockDim * Z.of_nat b < 2 ^ 31) as Hr by nia.
  split; [lia|].
  rewrite (to_uint_small (_ + _)), (to_uint_small (_ * _)) by lia.
  replace (_ - _) with 0 by lia. done.
Qed.

(** The stores of the threads [ts] of block [b]. *)
Lemma scatter_stores b (shared : dType) ts :
  (b < gridDim)%nat -> forall buf : list dType,
  (forall t, t ∈ ts -> (t < blockDim)%nat) ->
  N <= Z.of_nat (length buf) ->
  exists buf',
    run_threads
      (fun t buf =>
         let idx := thread_index blockDim b t in
         if decide (to_size idx < N) then
           if decide (Z.to_nat idx < length buf)%nat
           then Some (<[Z.to_nat idx := shared]> buf) else None
         else Some buf) ts buf = Some buf' /\
    length buf' = length buf /\
    (forall t, t ∈ ts -> Z.of_nat (b * blockDim + t) < N ->
       buf' !! (b * blockDim + t)%nat = Some shared) /\
    (forall i, (forall t, t ∈ ts -> Z.of_nat (b * blockDim + t) < N ->
                          (b * blockDim + t)%nat <> i) ->
       buf' !! i = buf !! i).
Proof.
  intros Hb. unfold run_threads.
  induction ts as [|t ts IH]; intros buf Hts Hlen.
  - exists buf. split; [done|]. split; [done|].
    split; [by intros t ?%elem_of_nil|done].
  - assert (t < blockDim)%nat as Ht by (apply Hts; left).
    destruct (thread_index_exact blockDim gridDim b t fits Hb Ht) as [E Hi].
    unfold int_max in fits.
    cbn [foldl]. simpl. rewrite E, to_size_small by lia.
    replace (Z.of_nat b * Z.of_nat blockDim + Z.of_nat t)
      with (Z.of_nat (b * blockDim + t)) by lia.
    rewrite Nat2Z.id.
    destruct (decide (Z.of_nat (b * blockDim + t) < N)) as [Hlt|Hge].
    + destruct (decide (b * blockDim + t < length buf)%nat); [|lia].
      destruct (IH (<[(b * blockDim + t)%nat := shared]> buf))
        as (buf' & Er & Hl & Hin & Hout);
        [intros; apply Hts; by right|by rewrite length_insert|].
      rewrite length_insert in Hl.
      exists buf'. split; [done|]. split; [done|]. split.
      * intros t' [->|Ht']%elem_of_cons Hlt'; [|by apply Hin].
        destruct (decide (t ∈ ts)) as [Hin'|Hnin]; [by apply Hin|].
        rewrite Hout.
        -- by rewrite list_lookup_insert_eq.
        -- intros t' Ht' _ Eq. assert (t' = t) by lia. by subst.
      * intros i Hi'. rewrite Hout.
        -- apply list_lookup_insert_ne. apply Hi'; [left|done].
        -- intros t' Ht'. apply Hi'. by right.
    + destruct (IH buf) as (buf' & Er & Hl & Hin & Hout);
        [intros; apply Hts; by right|done|].
      exists buf'. split; [done|]. split; [done|]. split.
      * intros t' [->|Ht']%elem_of_cons Hlt'; [lia|by apply Hin].
      * intros i Hi'. apply Hout. intros t' Ht'. apply Hi'. by right.
Qed.

Lemma scatter_block_step b done buf :
  (0 < blockDim)%nat -> (b < gridDim)%nat -> scattered done buf ->
  exists buf', scatter_block blockDim N b buf = Some buf' /\
               scattered (b :: done) buf'.
Proof.
  intros Hbd Hb [Hlen Hbuf]. unfold scatter_block.
  destruct (scatter_source_index b Hb Hbd) as [E1 E2]. rewrite E1, E2.
  assert (exists v, old !! source b = Some v /\
            (if decide (b < blockDim)%nat then buf !! (b * blockDim)%nat
             else buf !! 0%nat) = Some v) as (v & Hv & ->).
  { unfold scatter_source.
    destruct (decide (b < blockDim)%nat) as [Hlt|Hge].
    - destruct (lookup_lt_is_Some_2 old (b * blockDim)) as [v Hv]; [nia|].
      exists v. split; [done|]. rewrite Hbuf.
      rewrite Nat.div_mul by lia.
      destruct (decide _); [|done].
      unfold scatter_source. by destruct (decide (b < blockDim)%nat).
    - destruct (lookup_lt_is_Some_2 old 0) as [v Hv]; [nia|].
      exists v. split; [done|]. rewrite Hbuf.
      rewrite Nat.Div0.div_0_l by lia.
      destruct (decide _); [|done].
      unfold scatter_source. by destruct (decide (0 < blockDim)%nat). }
  simpl.
  destruct (scatter_stores b v (seq 0 blockDim) Hb buf) as (buf' & Er & Hl & Hin & Hout);
    [by intros t [_ ?]%elem_of_seq|lia|].
  exists buf'. split; [done|]. split; [lia|]. intros i.
  pose proof (Nat.div_mod_eq i blockDim) as Ed.
  pose proof (Nat.mod_upper_bound i blockDim ltac:(lia)) as Hm.
  destruct (decide (Z.of_nat i < N /\ (i `div` blockDim)%nat = b)) as [[HiN Hib]|Hno].
  - specialize (Hin (i `mod` blockDim)%nat).
    replace (b * blockDim + i `mod` blockDim)%nat with i in Hin by (subst b; lia).
    rewrite Hin; [|apply elem_of_seq; lia|done].
    destruct (decide _) as [_|Hn]; [by rewrite Hib|].
    exfalso. apply Hn. split; [done|]. rewrite Hib. left.
  - rewrite Hout.
    + rewrite Hbuf.
      destruct (decide (Z.of_nat i < N /\ (i `div` blockDim)%nat ∈ done)) as [[? ?]|Hn1],
               (decide (Z.of_nat i < N /\ (i `div` blockDim)%nat ∈ b :: done)) as [[? Hi2]|Hn2];
        try done.
      * exfalso. apply Hn2. split; [done|]. by right.
      * apply elem_of_cons in Hi2 as [?|?]; [|exfalso; by apply Hn1].
        exfalso. by apply Hno.
    + intros t [_ Ht]%elem_of_seq Hlt Eq. apply Hno. subst i. split; [done|].
      symmetry. apply (Nat.div_unique _ _ _ t); lia.
Qed.

Lemma scatter_run schedule : forall done buf,
  (0 < blockDim)%nat -> (forall b, b ∈ schedule -> (b < gridDim)%nat) ->
  scattered done buf ->
  exists buf', blockScatter blockDim N schedule buf = Some buf' /\
               scattered (reverse schedule ++ done) buf'.
Proof.
  unfold blockScatter, run_threads.
  induction schedule as [|b schedule IH]; intros done buf Hbd Hs Hinv.
  - by exists buf.
  - destruct (scatter_block_step b done buf Hbd) as (buf1 & E1 & Hinv1);
      [apply Hs; left|done|].
    cbn [foldl]. simpl. rewrite E1.
    destruct (IH (b :: done) buf1 Hbd) as (buf' & E & Hinv');
      [intros; apply Hs; by right|done|].
    exists buf'. split; [done|].
    by rewrite reverse_cons, <- app_assoc.
Qed.

(** What a launch of [blockScatter] leaves in the buffer: the elements
    below [N] that belong to a block of the launch hold the first element of
    their own block when the block index is below [blockDim], and element 0
    for every later block. *)
Lemma blockScatter_effect schedule :
  (0 < blockDim)%nat -> schedule ≡ₚ seq 0 gridDim ->
  exists data',
    blockScatter blockDim N schedule old = Some data' /\
    length data' = length old /\
    forall i : nat,
      data' !! i =
      if decide (Z.of_nat i < N /\ (i < blockDim * gridDim)%nat)
      then old !! source (i `div` blockDim) else old !! i.
Proof.
  intros Hbd Hperm.
  destruct (scatter_run schedule [] old Hbd) as (data' & E & Hlen & Hd).
  { intros b. rewrite Hperm. by intros [_ ?]%elem_of_seq. }
  { split; [done|]. intros i. destruct (decide _) as [[_ []%elem_of_nil]|]; done. }
  exists data'. split; [done|]. split; [done|]. intros i. rewrite Hd.
  rewrite app_nil_r.
  destruct (decide (Z.of_nat i < N /\ (i `div` blockDim)%nat ∈ reverse schedule))
    as [[? Hi]|Hn1],
    (decide (Z.of_nat i < N /\ (i < blockDim * gridDim)%nat)) as [[? Hi2]|Hn2];
    try done.
  - exfalso. apply Hn2. split; [done|].
    rewrite elem_of_reverse, Hperm in Hi. apply elem_of_seq in Hi as [_ Hi].
    pose proof (Nat.div_mod_eq i blockDim). pose proof (Nat.mod_upper_bound i blockDim).
    nia.
  - exfalso. apply Hn1. split; [done|].
    rewrite elem_of_reverse, Hperm. apply elem_of_seq. split; [lia|].
    apply Nat.Div0.div_lt_upper_bound. lia.
Qed.

End Scatter.
End ElementwiseFacts.

(** ** The kernels against the specification *)
Module KernelClaims.
Import Kernels SumFacts WarpFacts BlockFacts GridFacts ElementwiseFacts.

(** C8: in a full warp whose lanes hold [vals], with an addition that is
    associative and commutative and has [zero] as its unit, [warpReduce]
    leaves the sum of all lanes in lane 0, [warpReduceAll] leaves it in
    every lane, and both take [log2 warpSize] shuffle steps. *)
Theorem warp_reductions {dType : Type} (zero : dType)
    (plus : dType -> dType -> dType) (vals : list dType) :
  (forall a b c, plus a (plus b c) = plus (plus a b) c) ->
  (forall a b, plus a b = plus b a) ->
  (forall a, plus zero a = a) ->
  length vals = warpSize ->
  lane_value (warpReduce plus (Some <$> vals)) 0 = Some (Sum zero plus vals) /\
  (forall lane, (lane < warpSize)%nat ->
     lane_value (warpReduceAll plus (Some <$> vals)) lane
     = Some (Sum zero plus vals)) /\
  length shuffle_offsets = Nat.log2 warpSize.
Proof.
  intros Ha Hc Hz Hlen. split; [|split].
  - by apply warpReduce_full.
  - intros lane Hlane. by apply warpReduceAll_full.
  - reflexivity.
Qed.

Lemma warp_reductions_witness :
  lane_value (warpReduce Z.add (Some <$> (Z.of_nat <$> seq 0 32))) 0
    = Some (Sum 0 Z.add (Z.of_nat <$> seq 0 32)) /\
  (forall lane, (lane < warpSize)%nat ->
     lane_value (warpReduceAll Z.add (Some <$> (Z.of_nat <$> seq 0 32))) lane
     = Some (Sum 0 Z.add (Z.of_nat <$> seq 0 32))) /\
  length shuffle_offsets = Nat.log2 warpSize.
Proof.
  apply (warp_reductions 0 Z.add (Z.of_nat <$> seq 0 32)).
  - intros. lia.
  - intros. lia.
  - intros. lia.
  - reflexivity.
Defined.

(** C2, as stated, fails: launched with one block of 48 lanes over 1000
    ones and a zeroed accumulator, the kernel leaves 680 in [*out]; the
    partial sums of the 16 lanes of the second warp are never added. *)
Lemma blockReduceAtomicVectorized_partial_warp :
  blockReduceAtomicVectorized 0 Z.add 48 1 (replicate 1000 1) 1000 [0%nat] 0
    = Some 680 /\
  Sum 0 Z.add (replicate 1000 1) = 1000 /\
  blockReduceAtomicVectorized 0 Z.add 48 1 (replicate 1000 1) 1000 [0%nat] 0
    <> Some (0 + Sum 0 Z.add (replicate 1000 1)).
Proof. repeat split; vm_compute; congruence. Qed.

(** C2, amended: with an addition that is associative and commutative and
    has [zero] as its unit, a launch whose blocks have [k] full warps
    ([1 <= k <= 32]), an input of at least [N] elements, and [N] plus the
    number of threads within [int], the kernel adds the sum of the first
    [N] elements of the input to [*out], in whatever order the blocks'
    atomic additions take effect. *)
Theorem blockReduceAtomicVectorized_sums {dType : Type} (zero : dType)
    (plus : dType -> dType -> dType) (k gridDim : nat)
    (input : list dType) (N : Z) (schedule : list nat) (out : dType) :
  (forall a b c, plus a (plus b c) = plus (plus a b) c) ->
  (forall a b, plus a b = plus b a) ->
  (forall a, plus zero a = a) ->
  (1 <= k <= 32)%nat -> (0 < gridDim)%nat ->
  0 <= N <= Z.of_nat (length input) ->
  N + Z.of_nat (k * warpSize) * Z.of_nat gridDim <= int_max ->
  schedule ≡ₚ seq 0 gridDim ->
  blockReduceAtomicVectorized zero plus (k * warpSize) gridDim input N schedule out
  = Some (plus out (Sum zero plus (take (Z.to_nat N) input))).
Proof.
  intros Ha Hc Hz Hk Hg Hlen Hfit Hperm.
  apply (grid_sum zero plus Ha Hc Hz (k * warpSize) gridDim input N) with (k := k);
    try done.
  unfold warpSize. nia.
Qed.

Lemma blockReduceAtomicVectorized_sums_witness :
  blockReduceAtomicVectorized 0 Z.add (2 * warpSize) 2 (replicate 1000 1) 1000
    [1%nat; 0%nat] 0
  = Some 1000.
Proof.
  etrans.
  - apply (blockReduceAtomicVectorized_sums 0 Z.add 2 2 (replicate 1000 1) 1000
             [1%nat; 0%nat] 0).
    + intros. lia.
    + intros. lia.
    + intros. lia.
    + lia.
    + lia.
    + simpl. lia.
    + unfold int_max. simpl. lia.
    + apply perm_swap.
  - vm_compute. reflexivity.
Defined.

(** C5, as stated, fails: with [in = [1; 2]] and [f x = 100 * x] the
    denominator is [300], and [out = [300; 300]] holds it at each position.
    Launched with a single thread on these two elements, the kernel leaves
    [out[1]] as it was (300), not [f(in[1]) / out[1]] (here
    [200 / 300 = 0]). *)
Lemma softmaxKernel_short_launch :
  let f := Z.mul 100 in
  let input := [1; 2] in
  let out := [300; 300] in
  Forall (fun y => y = f 1 + f 2) out /\
  exists out',
    softmaxKernel f Z.div 1 input 2 (grid_threads 1 1) out = Some out' /\
    out' !! 1%nat = Some 300 /\
    (x ← input !! 1%nat; y ← out !! 1%nat; Some (Z.div (f x) y)) = Some 0 /\
    out' !! 1%nat <> (x ← input !! 1%nat; y ← out !! 1%nat;
                      Some (Z.div (f x) y)).
Proof.
  split; [repeat constructor|].
  exists [0; 300]. repeat split; vm_compute; congruence.
Qed.

(** C5, amended: when the buffers hold at least [N] elements and the number
    of threads fits an [int], the kernel returns, and [out[i]] becomes
    [f(in[i]) / out_old[i]] for every [i < N] that is below the number of
    threads of the launch; every other element of [out] is unchanged.  The
    order in which the threads take effect does not matter. *)
Theorem softmaxKernel_normalises {dType : Type} (f : dType -> dType)
    (div : dType -> dType -> dType) (blockDim gridDim : nat)
    (input out : list dType) (N : Z) (schedule : list (nat * nat)) :
  Z.of_nat blockDim * Z.of_nat gridDim <= int_max ->
  N <= Z.of_nat (length input) -> N <= Z.of_nat (length out) ->
  schedule ≡ₚ grid_threads gridDim blockDim ->
  exists out',
    softmaxKernel f div blockDim input N schedule out = Some out' /\
    length out' = length out /\
    (forall i x y,
       Z.of_nat i < N -> Z.of_nat i < Z.of_nat blockDim * Z.of_nat gridDim ->
       input !! i = Some x -> out !! i = Some y ->
       out' !! i = Some (div (f x) y)) /\
    (forall i,
       ~ (Z.of_nat i < N /\ Z.of_nat i < Z.of_nat blockDim * Z.of_nat gridDim) ->
       out' !! i = out !! i).
Proof.
  intros Hfit Hin Hout Hperm.
  destruct (softmax_launch f div blockDim gridDim input N Hfit Hin schedule out
              Hperm Hout) as (out' & E & Hl & H).
  exists out'. split; [done|]. split; [done|]. split.
  - intros i x y HiN HiT Hx Hy. rewrite H.
    destruct (decide _) as [_|Hno]; [|by destruct Hno].
    by rewrite Hx, Hy.
  - intros i Hno. rewrite H. by destruct (decide _).
Qed.

Lemma softmaxKernel_normalises_witness :
  exists out',
    softmaxKernel (Z.mul 100) Z.div 2 [1; 2; 3] 3 [(1, 0); (0, 1); (1, 1); (0, 0)]%nat
                  [2; 2; 2] = Some out' /\
    length out' = 3%nat /\
    (forall i x y,
       Z.of_nat i < 3 -> Z.of_nat i < Z.of_nat 2 * Z.of_nat 2 ->
       [1; 2; 3] !! i = Some x -> [2; 2; 2] !! i = Some y ->
       out' !! i = Some (Z.div (Z.mul 100 x) y)) /\
    (forall i,
       ~ (Z.of_nat i < 3 /\ Z.of_nat i < Z.of_nat 2 * Z.of_nat 2) ->
       out' !! i = [2; 2; 2] !! i).
Proof.
  apply (softmaxKernel_normalises (Z.mul 100) Z.div 2 2 [1; 2; 3] [2; 2; 2] 3).
  - unfold int_max. lia.
  - simpl. lia.
  - simpl. lia.
  - apply permutations_Permutation. vm_compute.
    repeat (first [apply list_elem_of_here | apply list_elem_of_further]).
Defined.

(** C6: launched with 4 blocks of 2 lanes on 8 elements, [blockScatter]
    gives blocks 2 and 3 the first element of block 0 (10): block 3 receives
    neither its own first element (16) nor that of the block [blockDim.x]
    blocks before it (12).  The order of the blocks does not matter. *)
Theorem blockScatter_later_blocks (schedule : list nat) :
  schedule ≡ₚ seq 0 4 ->
  blockScatter 2 8 schedule [10; 11; 12; 13; 14; 15; 16; 17]
  = Some [10; 10; 12; 12; 10; 10; 10; 10].
Proof.
  intros Hperm. symmetry in Hperm. apply permutations_Permutation in Hperm.
  assert (forallb (fun s => bool_decide
            (blockScatter 2 8 s [10; 11; 12; 13; 14; 15; 16; 17]
             = Some [10; 10; 12; 12; 10; 10; 10; 10]))
          (permutations (seq 0 4)) = true) as Hall by (vm_compute; reflexivity).
  rewrite forallb_forall in Hall.
  apply list_elem_of_In, Hall in Hperm. by apply bool_decide_eq_true in Hperm.
Qed.

Lemma blockScatter_later_blocks_witness :
  blockScatter 2 8 [3; 1; 0; 2]%nat [10; 11; 12; 13; 14; 15; 16; 17]
  = Some [10; 10; 12; 12; 10; 10; 10; 10].
Proof.
  apply (blockScatter_later_blocks [3; 1; 0; 2]%nat).
  apply permutations_Permutation. vm_compute.
  repeat (first [apply list_elem_of_here | apply list_elem_of_further]).
Defined.

End KernelClaims.

(** * Further properties of the Tensor class *)

(** ** Wrap-around of the two [std::accumulate] calls *)
Module WrapFacts.
Import Tensors MachineFacts TensorFacts.

Lemma to_int_range z : int_min <= to_int z <= int_max.
Proof.
  unfold to_int, int_min, int_max.
  pose proof (Z.mod_pos_bound (z + 2 ^ 31) (2 ^ 32) ltac:(lia)). lia.
Qed.

Lemma to_int_congr a b : a mod 2 ^ 32 = b mod 2 ^ 32 -> to_int a = to_int b.
Proof.
  intros H. unfold to_int. f_equal.
  rewrite (Z.add_mod a), (Z.add_mod b) by lia. by rewrite H.
Qed.

Lemma to_int_mod z : to_int z mod 2 ^ 32 = z mod 2 ^ 32.
Proof.
  unfold to_int. rewrite Zminus_mod_idemp_l. f_equal. lia.
Qed.

Lemma to_int_idemp z : to_int (to_int z) = to_int z.
Proof. apply to_int_congr, to_int_mod. Qed.

Lemma to_int_mul_l a b : to_int (to_int a * b) = to_int (a * b).
Proof.
  apply to_int_congr. rewrite Z.mul_mod, to_int_mod, <- Z.mul_mod by lia. done.
Qed.

Lemma to_int_mul_r a b : to_int (a * to_int b) = to_int (a * b).
Proof. rewrite (Z.mul_comm a), to_int_mul_l. f_equal. lia. Qed.

Lemma to_size_mod32 z : to_size z mod 2 ^ 32 = z mod 2 ^ 32.
Proof.
  unfold to_size, size_modulus. apply Z.mod_mod_divide.
  exists (2 ^ 32). lia.
Qed.

Lemma to_int_to_size_mul a b : to_int (to_size (to_size a * b)) = to_int (a * b).
Proof.
  apply to_int_congr. rewrite to_size_mod32.
  rewrite Z.mul_mod, to_size_mod32, <- Z.mul_mod by lia. done.
Qed.

Lemma accumulate_int_wraps_from l : forall acc,
  to_int acc = acc ->
  foldl (fun a d => to_int (a * to_int d)) acc l = to_int (acc * product l).
Proof.
  induction l as [|d l IH]; intros acc Hacc; simpl.
  - by rewrite Z.mul_1_r, Hacc.
  - rewrite IH by apply to_int_idemp.
    rewrite to_int_mul_l.
    replace (acc * to_int d * product l) with (to_int d * (acc * product l)) by lia.
    rewrite to_int_mul_l. f_equal. lia.
Qed.

(** The [int] accumulator ends up holding the product of the sizes reduced
    to 32 bits. *)
Lemma accumulate_multiplies_int_wraps l :
  accumulate_multiplies_int l = to_int (product l).
Proof.
  unfold accumulate_multiplies_int. rewrite accumulate_int_wraps_from by done.
  f_equal. lia.
Qed.

Lemma accumulate_size_wraps_from l : forall acc,
  to_int acc = acc ->
  foldl (fun a d => to_int (to_size (to_size a * d))) acc l
  = to_int (acc * product l).
Proof.
  induction l as [|d l IH]; intros acc Hacc; simpl.
  - by rewrite Z.mul_1_r, Hacc.
  - rewrite IH by apply to_int_idemp.
    rewrite to_int_to_size_mul, to_int_mul_l. f_equal. lia.
Qed.

Lemma accumulate_multiplies_size_wraps l :
  accumulate_multiplies_size l = to_int (product l).
Proof.
  unfold accumulate_multiplies_size. rewrite accumulate_size_wraps_from by done.
  f_equal. lia.
Qed.

End WrapFacts.

(** ** Offsets as mixed-radix numbers *)
Module OffsetFacts.
Import Tensors MachineFacts TensorFacts.

Lemma offset_from_scale dims : forall p idx,
  offset_from p dims idx = p * offset_from 1 dims idx.
Proof.
  induction dims as [|d ds IH]; intros p [|i rest]; simpl; try lia.
  rewrite (IH (p * d)), (IH (1 * d)). lia.
Qed.

(** In-range index tuples with the same offset are the same tuple. *)
Lemma offset_from_inj dims i : forall j,
  in_range dims i -> in_range dims j ->
  offset_from 1 dims i = offset_from 1 dims j -> i = j.
Proof.
  intros j Hi. revert j.
  induction Hi as [|i0 d i' ds H0 Hi IH]; intros j Hj E.
  - by apply Forall2_nil_inv_r in Hj.
  - destruct j as [|j0 j']; [by apply Forall2_nil_inv_l in Hj|].
    apply Forall2_cons_1 in Hj as [Hj0 Hj].
    simpl in E. rewrite (offset_from_scale ds (1 * d) i') in E.
    rewrite (offset_from_scale ds (1 * d) j') in E.
    set (A := offset_from 1 ds i') in *. set (B := offset_from 1 ds j') in *.
    assert (A = B) as EAB by nia.
    f_equal; [nia|]. by apply IH.
Qed.

(** Every offset below the element count belongs to an in-range tuple. *)
Lemma offset_from_surj dims : forall p,
  Forall (fun d => 1 <= d) dims -> 0 <= p < product dims ->
  exists idx, in_range dims idx /\ offset_from 1 dims idx = p.
Proof.
  induction dims as [|d ds IH]; intros p Hpos Hp.
  - exists []. split; [constructor|]. simpl in *. lia.
  - apply Forall_cons_1 in Hpos as [Hd Hpos]. simpl in Hp.
    pose proof (Z.div_mod p d ltac:(lia)) as E.
    pose proof (Z.mod_pos_bound p d ltac:(lia)) as B.
    assert (0 <= p / d) by (apply Z.div_pos; lia).
    assert (p / d < product ds) by (apply Z.div_lt_upper_bound; lia).
    destruct (IH (p / d)) as (rest & Hin & Hoff); [done|lia|].
    exists (p mod d :: rest). split.
    + constructor; [lia|done].
    + simpl. rewrite (offset_from_scale ds (1 * d)), Hoff. lia.
Qed.

End OffsetFacts.

(** ** The accessor when an index is out of range or the count is wrong *)
Module AccessFacts.
Import Tensors MachineFacts TensorFacts.

Section CallMore.
Context {T : Type}.
Variable R : Z.

(** The accessor reports the first index that is out of range; [pre] are
    the dimensions consumed before the call, [dgood] those of the indices
    [good] that pass the test. *)
Lemma call_first_bad good : forall dgood idx indices (t : Tensor T) pre bad rest d dpost,
  idx :: indices = good ++ bad :: rest ->
  _dimensions t = pre ++ dgood ++ d :: dpost ->
  _counter t = Z.of_nat (length pre) ->
  in_range dgood good -> Forall int_range good ->
  ~ (0 <= bad < d) -> int_range bad -> 0 <= d < 2 ^ 63 ->
  length rest = length dpost ->
  (pre = [] -> Z.of_nat (length (dgood ++ d :: dpost)) = R) ->
  Z.of_nat (length (pre ++ dgood ++ d :: dpost)) < 2 ^ 31 ->
  exists o,
    call R t idx indices =
      Some (mkAccess (mkTensor (_data t) (_dimensions t) 0 o)
              [(if decide (rest = []) then cerr else cout,
                TensorOutOfRange (Z.of_nat (length pre + length good) + 1) d bad)]
              0).
Proof.
  induction good as [|g good IH];
    intros dgood idx indices t pre bad rest d dpost
           Hsplit Hdims Hc Hin Hgint Hbad Hint Hd Hlen HR Hsmall.
  - apply Forall2_nil_inv_l in Hin as ->. simpl in Hsplit, Hdims.
    injection Hsplit as -> ->.
    assert (d <= to_size bad) as Hge by (by apply range_test).
    rewrite !length_app in Hsmall. simpl in Hsmall.
    exists (_offset t).
    destruct rest as [|next rest].
    + simpl. unfold call_last.
      rewrite Hc, Nat2Z.id, Hdims, list_lookup_middle by done. simpl.
      destruct (decide (d <= to_size bad)); [|done].
      rewrite to_size_small by lia. unfold set_counter. rewrite Hdims.
      do 5 f_equal. lia.
    + cbn [call].
      rewrite Hc, Nat2Z.id, Hdims, list_lookup_middle by done. simpl.
      destruct (decide (d <= to_size bad)); [|done].
      rewrite to_size_small by lia. unfold set_counter. rewrite Hdims.
      do 5 f_equal. lia.
  - destruct dgood as [|dg dgood]; [by apply Forall2_nil_inv_r in Hin|].
    apply Forall2_cons_1 in Hin as [Hg Hin].
    apply Forall_cons_1 in Hgint as [Hgi Hgint].
    unfold int_range, int_min, int_max in Hgi.
    simpl in Hsplit. injection Hsplit as -> Hind.
    destruct indices as [|next more]; [by destruct good|].
    pose proof (f_equal length Hind) as Hcount.
    rewrite length_app in Hcount. simpl in Hcount.
    pose proof (Forall2_length _ _ _ Hin) as Hgl.
    rewrite ?length_app in Hsmall. simpl in Hsmall.
    rewrite ?length_app in Hsmall. simpl in Hsmall.
    cbn [call].
    simpl in Hdims.
    rewrite Hc, Nat2Z.id, Hdims, list_lookup_middle by done. simpl.
    rewrite (to_size_small g) by lia.
    destruct (decide (dg <= g)); [lia|].
    rewrite (to_size_small (_ + 1)) by lia.
    assert (forall o, exists o',
      call R (set_offset o (set_counter (Z.of_nat (length pre) + 1) t)) next more
      = Some (mkAccess (mkTensor (_data t) (_dimensions t) 0 o')
                [(if decide (rest = []) then cerr else cout,
                  TensorOutOfRange (Z.of_nat (length pre + S (length good)) + 1) d bad)]
                0)) as Hgo.
    { intros o.
      destruct (IH dgood next more
                  (set_offset o (set_counter (Z.of_nat (length pre) + 1) t))
                  (pre ++ [dg]) bad rest d dpost) as (o' & E); try done.
      - simpl. by rewrite Hdims, <- app_assoc.
      - simpl. rewrite length_app. simpl. lia.
      - intros [_ ?]%app_eq_nil. done.
      - rewrite <- app_assoc, ?length_app. simpl. rewrite ?length_app. simpl. lia.
      - exists o'. rewrite E. simpl. rewrite length_app. simpl.
        do 5 f_equal. lia. }
    destruct (decide (Z.of_nat (length pre) = 0)) as [E|_].
    + assert (pre = []) as Hnil by (destruct pre; [done|simpl in E; lia]).
      specialize (HR Hnil). simpl in HR. rewrite ?length_app in HR. simpl in HR.
      rewrite to_int_small, to_size_small by lia.
      destruct (decide (_ <> R)) as [Hne|_]; [exfalso; apply Hne; lia|].
      rewrite <- Hdims. apply Hgo.
    + unfold dims_before_end. rewrite ?length_app. simpl. rewrite ?length_app. simpl.
      destruct (decide (_ <= _)%nat) as [_|]; [|lia]. simpl.
      rewrite <- Hdims. apply Hgo.
Qed.

(** Entered with [_counter] beyond the number of indices still to come, an
    access cannot complete: it leaves through the range check or reads
    [_dimensions] past its end. *)
Lemma call_overruns indices : forall idx (t : Tensor T),
  1 <= _counter t ->
  Z.of_nat (length (_dimensions t)) < _counter t + Z.of_nat (length (idx :: indices)) ->
  Z.of_nat (length (_dimensions t)) < 2 ^ 31 ->
  call R t idx indices = None \/
  exists s k d i o,
    call R t idx indices =
      Some (mkAccess (mkTensor (_data t) (_dimensions t) 0 o)
                     [(s, TensorOutOfRange k d i)] 0).
Proof.
  induction indices as [|next rest IH]; intros idx t Hc Hover Hsmall.
  - simpl. unfold call_last.
    destruct (_dimensions t !! Z.to_nat (_counter t)) as [limit|] eqn:El; [|by left].
    apply lookup_lt_Some in El. simpl in Hover. lia.
  - cbn [call].
    destruct (_dimensions t !! Z.to_nat (_counter t)) as [limit|] eqn:El; [|by left].
    apply lookup_lt_Some in El. simpl.
    destruct (decide (limit <= to_size idx)).
    { right. by eexists _, _, _, _, _. }
    destruct (decide (_counter t = 0)); [lia|].
    destruct (dims_before_end _ _) as [pre|]; [|by left]. simpl.
    rewrite (to_size_small (_ + 1)) by lia.
    set (t' := set_offset _ _).
    assert (1 <= _counter t') as Hc' by (simpl; lia).
    assert (Z.of_nat (length (_dimensions t'))
            < _counter t' + Z.of_nat (length (next :: rest))) as Hover'
      by (simpl in *; lia).
    destruct (IH next t' Hc' Hover' Hsmall) as [E|(s & k & d & i & o & E)].
    + by left.
    + right. by eexists _, _, _, _, _.
Qed.

End CallMore.
End AccessFacts.

(** ** Properties *)
Module TensorProperties.
Import Tensors MachineFacts TensorFacts WrapFacts OffsetFacts AccessFacts.

(** X1: [size(dim)] for every [int]: a negative [dim] is converted to an
    unsigned value beyond any rank, so it is reported like a [dim] that is
    too large and yields 0; [_dimensions] is read only for [0 <= dim < R]. *)
Theorem size_dim_every_int {T : Type} (R : Z) (t : Tensor T) (dim : Z) :
  0 <= R <= 2 ^ 63 -> int_range dim ->
  size_dim R t dim =
    if decide (0 <= dim < R)
    then (fun d => (d, [])) <$> _dimensions t !! Z.to_nat dim
    else Some (0, [(cout, TensorOutOfRangeDim dim R)]).
Proof.
  unfold int_range, int_min, int_max, size_dim. intros HR Hdim.
  destruct (decide (0 <= dim < R)) as [Hin|Hout].
  - rewrite to_size_small by lia.
    destruct (decide (R <= dim)); [lia|].
    by destruct (_dimensions t !! Z.to_nat dim).
  - destruct (decide (0 <= dim)).
    + rewrite to_size_small by lia. destruct (decide (R <= dim)); [done|lia].
    + pose proof (to_size_negative dim ltac:(lia)).
      destruct (decide (R <= to_size dim)); [done|lia].
Qed.

Lemma size_dim_every_int_witness :
  size_dim 2 (mkTensor [10; 11; 12; 13; 14; 15] [2; 3] 0 0) (-1)
  = Some (0, [(cout, TensorOutOfRangeDim (-1) 2)]).
Proof.
  apply (size_dim_every_int 2 (mkTensor [10; 11; 12; 13; 14; 15] [2; 3] 0 0) (-1)).
  - lia.
  - unfold int_range, int_min, int_max. lia.
Defined.

(** X2: the dimension-list constructor allocates the product of the sizes
    as a 32-bit [int] holds it: [to_int (product dimensions)] elements, all
    value-initialised.  It builds no tensor exactly when that number is
    negative or the list does not have [R] entries.  (With the sizes
    [65536, 65536] the buffer is empty.) *)
Theorem Tensor_of_dimensions_wraps {T : Type} (R : Z) (T0 : T) (dimensions : list Z) :
  Tensor_of_dimensions R T0 dimensions =
    if decide (0 <= to_int (product dimensions) /\
               Z.of_nat (length dimensions) = R)
    then Some (mkTensor (replicate (Z.to_nat (to_int (product dimensions))) T0)
                        (to_size <$> dimensions) 0 0)
    else None.
Proof.
  unfold Tensor_of_dimensions, ASSERT_eq.
  rewrite accumulate_multiplies_int_wraps.
  destruct (decide (to_int (product dimensions) < 0)).
  - destruct (decide _) as [[? ?]|]; [lia|done].
  - destruct (decide (Z.of_nat (length dimensions) = R)).
    + destruct (decide _) as [|Hn]; [done|]. exfalso. apply Hn. lia.
    + destruct (decide _) as [[? ?]|]; done.
Qed.

(** X3: the buffer constructor compares the buffer length with the product
    of the sizes after that product has passed through an [int]: it accepts
    exactly the buffers of [to_size (to_int (product dimensions))] elements
    (and [R] sizes), and keeps buffer and sizes as they are. *)
Theorem Tensor_of_buffer_wraps {T : Type} (R : Z) (dimensions : list Z)
    (data : list T) :
  Tensor_of_buffer R dimensions data =
    if decide (Z.of_nat (length dimensions) = R /\
               Z.of_nat (length data) = to_size (to_int (product dimensions)))
    then Some (mkTensor data dimensions 0 0) else None.
Proof.
  unfold Tensor_of_buffer, ASSERT_eq.
  rewrite accumulate_multiplies_size_wraps.
  destruct (decide (Z.of_nat (length dimensions) = R)); simpl.
  - destruct (decide (Z.of_nat (length data) = _)); simpl.
    + destruct (decide _) as [|Hn]; [done|]. exfalso. by apply Hn.
    + destruct (decide _) as [[? ?]|]; done.
  - destruct (decide _) as [[? ?]|]; done.
Qed.

(** X4: a default-constructed tensor of rank [R >= 1] has no element:
    [size()] is 0, and every access, whatever the indices, is reported as
    out of range in dimension 1 (whose size is 0), leaves the tensor as it
    was and returns a reference to [_data[0]], which the empty buffer does
    not have. *)
Theorem default_tensor_has_no_element {T : Type} (R : Z) (idx : Z)
    (indices : list Z) :
  1 <= R ->
  size (Tensor_default (T:=T) R) = 0 /\
  exists a,
    call R (Tensor_default (T:=T) R) idx indices = Some a /\
    printed a = [(if decide (indices = []) then cerr else cout,
                  TensorOutOfRange 1 0 idx)] /\
    position a = 0 /\ element a = None /\ after a = Tensor_default R.
Proof.
  intros HR. split; [done|].
  assert (replicate (Z.to_nat R) 0 !! Z.to_nat 0 = Some 0) as Hl.
  { apply lookup_replicate. split; [done|]. lia. }
  assert (0 <= to_size idx) as Hs.
  { unfold to_size, size_modulus. apply Z.mod_pos_bound. lia. }
  destruct indices as [|next rest].
  - simpl. unfold call_last. simpl. rewrite Hl. simpl.
    destruct (decide (0 <= to_size idx)); [|done].
    eexists. split; [done|]. done.
  - cbn [call]. simpl. rewrite Hl. simpl.
    destruct (decide (0 <= to_size idx)); [|done].
    eexists. split; [done|]. done.
Qed.

Lemma default_tensor_has_no_element_witness :
  size (Tensor_default (T:=Z) 2) = 0 /\
  exists a,
    call 2 (Tensor_default (T:=Z) 2) 0 [0] = Some a /\
    printed a = [(if decide ([0] = []) then cerr else cout,
                  TensorOutOfRange 1 0 0)] /\
    position a = 0 /\ element a = None /\ after a = Tensor_default 2.
Proof. apply (default_tensor_has_no_element (T:=Z) 2 0 [0]). lia. Defined.

(** X5: on a tensor of rank [R >= 2] at rest, with positive sizes whose
    product fits an [int], the accessor is a one-to-one correspondence
    between the in-range index tuples and the positions of the buffer: two
    in-range tuples that lead to the same position are the same tuple, and
    every position below the product of the sizes is reached, silently, by
    an in-range tuple. *)
Theorem call_addresses_each_element_once {T : Type} (R : Z) (t : Tensor T) :
  2 <= R <= int_max ->
  Z.of_nat (length (_dimensions t)) = R ->
  _counter t = 0 ->
  Forall (fun d => 1 <= d) (_dimensions t) ->
  product (_dimensions t) <= int_max ->
  (forall i1 is1 i2 is2 a1 a2,
     in_range (_dimensions t) (i1 :: is1) ->
     in_range (_dimensions t) (i2 :: is2) ->
     call R t i1 is1 = Some a1 -> call R t i2 is2 = Some a2 ->
     position a1 = position a2 -> i1 :: is1 = i2 :: is2) /\
  (forall p, 0 <= p < product (_dimensions t) ->
     exists idx indices a,
       in_range (_dimensions t) (idx :: indices) /\
       call R t idx indices = Some a /\ position a = p /\ printed a = []).
Proof.
  intros HR Hlen Hc Hpos Hprod. split.
  - intros i1 is1 i2 is2 a1 a2 H1 H2 E1 E2 Epos.
    destruct (call_complete R t i1 is1 HR Hlen Hc H1 Hprod) as [C1 _].
    destruct (call_complete R t i2 is2 HR Hlen Hc H2 Hprod) as [C2 _].
    rewrite C1 in E1. rewrite C2 in E2.
    injection E1 as <-. injection E2 as <-. simpl in Epos.
    rewrite !offset_first_from in Epos by (by apply in_range_length).
    by apply (offset_from_inj (_dimensions t)).
  - intros p Hp.
    destruct (offset_from_surj (_dimensions t) p Hpos Hp) as (l & Hin & Hoff).
    destruct l as [|idx indices].
    { apply Forall2_length in Hin. simpl in Hin. lia. }
    destruct (call_complete R t idx indices HR Hlen Hc Hin Hprod) as [C _].
    exists idx, indices. eexists. split; [done|]. split; [exact C|].
    simpl. split; [|done].
    rewrite offset_first_from by (by apply in_range_length). done.
Qed.

Lemma call_addresses_each_element_once_witness :
  let t := mkTensor [10; 11; 12; 13; 14; 15] [2; 3] 0 0 in
  (forall i1 is1 i2 is2 a1 a2,
     in_range (_dimensions t) (i1 :: is1) ->
     in_range (_dimensions t) (i2 :: is2) ->
     call 2 t i1 is1 = Some a1 -> call 2 t i2 is2 = Some a2 ->
     position a1 = position a2 -> i1 :: is1 = i2 :: is2) /\
  (forall p, 0 <= p < product (_dimensions t) ->
     exists idx indices a,
       in_range (_dimensions t) (idx :: indices) /\
       call 2 t idx indices = Some a /\ position a = p /\ printed a = []).
Proof.
  apply (call_addresses_each_element_once 2
           (mkTensor [10; 11; 12; 13; 14; 15] [2; 3] 0 0)).
  - unfold int_max. lia.
  - reflexivity.
  - reflexivity.
  - repeat constructor; lia.
  - unfold int_max. simpl. lia.
Defined.

(** X6: assignment through the accessor and reading back.  On a tensor of
    rank [R >= 2] at rest whose buffer has as many elements as the product
    of the sizes (within [int]), after [t(i1, is1...) = v] an in-range read
    [t(i2, is2...)] gives [v] when the two index tuples are the same and
    the element that was there before the assignment otherwise. *)
Theorem assign_then_read {T : Type} (R : Z) (t : Tensor T)
    (i1 : Z) (is1 : list Z) (i2 : Z) (is2 : list Z) (v : T) :
  2 <= R <= int_max ->
  Z.of_nat (length (_dimensions t)) = R ->
  _counter t = 0 ->
  Z.of_nat (length (_data t)) = product (_dimensions t) ->
  product (_dimensions t) <= int_max ->
  in_range (_dimensions t) (i1 :: is1) ->
  in_range (_dimensions t) (i2 :: is2) ->
  exists a1 t1 a2 old,
    call R t i1 is1 = Some a1 /\ assign a1 v = Some t1 /\
    call R t1 i2 is2 = Some a2 /\
    call R t i2 is2 ≫= element = Some old /\
    element a2 = Some (if decide (i2 :: is2 = i1 :: is1) then v else old).
Proof.
  intros HR Hlen Hc Hdata Hprod H1 H2.
  destruct (call_complete R t i1 is1 HR Hlen Hc H1 Hprod) as [C1 B1].
  destruct (call_complete R t i2 is2 HR Hlen Hc H2 Hprod) as [C2 B2].
  set (o1 := offset_first (_dimensions t) (i1 :: is1)) in *.
  set (o2 := offset_first (_dimensions t) (i2 :: is2)) in *.
  set (t1 := mkTensor (<[Z.to_nat o1 := v]> (_data t)) (_dimensions t) 0 o1).
  destruct (call_complete R t1 i2 is2 HR Hlen eq_refl H2 Hprod) as [C3 _].
  destruct (lookup_lt_is_Some_2 (_data t) (Z.to_nat o2)) as [old Hold]; [lia|].
  eexists _, t1, _, old. split; [exact C1|]. split.
  { unfold assign, put. simpl.
    destruct (decide (Z.to_nat o1 < length (_data t))%nat); [done|lia]. }
  split; [exact C3|]. split.
  { rewrite C2. simpl. done. }
  unfold element, get. simpl. fold o2.
  destruct (decide (i2 :: is2 = i1 :: is1)) as [E|Hne].
  - unfold o2, o1. rewrite E. apply list_lookup_insert_eq. fold o1. lia.
  - rewrite list_lookup_insert_ne; [done|]. intros Eo.
    apply Hne. apply (offset_from_inj (_dimensions t)); try done.
    rewrite <- !offset_first_from by (by apply in_range_length).
    fold o1 o2. lia.
Qed.

Lemma assign_then_read_witness :
  let t := mkTensor [10; 11; 12; 13; 14; 15] [2; 3] 0 0 in
  exists a1 t1 a2 old,
    call 2 t 1 [2] = Some a1 /\ assign a1 99 = Some t1 /\
    call 2 t1 0 [1] = Some a2 /\
    call 2 t 0 [1] ≫= element = Some old /\
    element a2 = Some (if decide ([0; 1] = [1; 2]) then 99 else old).
Proof.
  apply (assign_then_read 2 (mkTensor [10; 11; 12; 13; 14; 15] [2; 3] 0 0)
           1 [2] 0 [1] 99).
  - unfold int_max. lia.
  - reflexivity.
  - reflexivity.
  - reflexivity.
  - unfold int_max. simpl. lia.
  - repeat constructor; lia.
  - repeat constructor; lia.
Defined.

(** X7: an access with [R] indices on a tensor at rest reports the first
    index that is out of range, negative ones included: with the indices
    [good] before it in range and [bad] outside its dimension of size [d],
    the accessor prints one [TensorOutOfRange] naming the dimension (counted
    from 1), its size and the index, on [cerr] when the index is the last one
    and on [cout] otherwise; it returns the element at position 0 and leaves
    the buffer, the sizes and [_counter = 0]. *)
Theorem call_reports_first_bad_index {T : Type} (R : Z) (t : Tensor T)
    (idx : Z) (indices good : list Z) (bad : Z) (rest dgood : list Z) (d : Z)
    (dpost : list Z) :
  1 <= R <= int_max ->
  _counter t = 0 ->
  _dimensions t = dgood ++ d :: dpost ->
  Z.of_nat (length (_dimensions t)) = R ->
  idx :: indices = good ++ bad :: rest ->
  length rest = length dpost ->
  in_range dgood good -> Forall int_range good ->
  int_range bad -> ~ (0 <= bad < d) -> 0 <= d < 2 ^ 63 ->
  exists a,
    call R t idx indices = Some a /\
    printed a = [(if decide (rest = []) then cerr else cout,
                  TensorOutOfRange (Z.of_nat (length good) + 1) d bad)] /\
    position a = 0 /\ _counter (after a) = 0 /\
    _data (after a) = _data t /\ _dimensions (after a) = _dimensions t.
Proof.
  unfold int_max. intros HR Hc Hdims Hlen Hsplit Hrest Hin Hgint Hint Hbad Hd.
  destruct (call_first_bad R good dgood idx indices t [] bad rest d dpost)
    as (o & E); try done.
  - simpl. by rewrite <- Hdims.
  - simpl. rewrite <- Hdims. lia.
  - rewrite E. eexists. split; [done|]. simpl. done.
Qed.

Lemma call_reports_first_bad_index_witness :
  exists a,
    call 3 (mkTensor (replicate 24 0) [2; 3; 4] 0 0) 1 [-1; 9] = Some a /\
    printed a = [(if decide ([9] = []) then cerr else cout,
                  TensorOutOfRange (Z.of_nat (length [1]) + 1) 3 (-1))] /\
    position a = 0 /\ _counter (after a) = 0 /\
    _data (after a) = replicate 24 0 /\ _dimensions (after a) = [2; 3; 4].
Proof.
  apply (call_reports_first_bad_index 3 (mkTensor (replicate 24 0) [2; 3; 4] 0 0)
           1 [-1; 9] [1] (-1) [9] [2] 3 [4]).
  - unfold int_max. lia.
  - reflexivity.
  - reflexivity.
  - reflexivity.
  - reflexivity.
  - reflexivity.
  - repeat constructor; lia.
  - repeat constructor; unfold int_min, int_max; lia.
  - unfold int_range, int_min, int_max. lia.
  - lia.
  - lia.
Defined.

(** X8: an access with two or more indices, but not [R] of them, whose
    first index is in range: the accessor prints [TensorInvalidArguments]
    with the two counts on [cerr] and returns the element at position 0,
    but it leaves [_counter] at 1.  In that state an access with [R]
    indices cannot reach its element: it either reads [_dimensions] past its
    end or fails a range check against the size of a later dimension. *)
Theorem call_wrong_count_sticks {T : Type} (R : Z) (t : Tensor T)
    (idx next : Z) (rest : list Z) (d : Z) (ds : list Z) :
  0 <= R -> _counter t = 0 -> _dimensions t = d :: ds ->
  0 <= idx < d -> int_range idx ->
  Z.of_nat (length (idx :: next :: rest)) <> R ->
  Z.of_nat (length (idx :: next :: rest)) <= int_max ->
  Z.of_nat (length (_dimensions t)) = R -> R <= int_max ->
  call R t idx (next :: rest) =
    Some (mkAccess (set_counter 1 t)
            [(cerr, TensorInvalidArguments (Z.of_nat (length (idx :: next :: rest))) R)]
            0) /\
  forall i2 is2,
    Z.of_nat (length (i2 :: is2)) = R ->
    call R (set_counter 1 t) i2 is2 = None \/
    exists s k lim i o,
      call R (set_counter 1 t) i2 is2 =
        Some (mkAccess (mkTensor (_data t) (_dimensions t) 0 o)
                       [(s, TensorOutOfRange k lim i)] 0).
Proof.
  unfold int_range, int_min, int_max.
  intros HR Hc Hdims Hidx Hint Hcount Hsmall Hlen HRmax. split.
  - cbn [call]. rewrite Hc, Hdims. simpl.
    rewrite (to_size_small idx) by lia.
    destruct (decide (d <= idx)); [lia|].
    simpl in Hcount, Hsmall.
    rewrite to_int_small, to_size_small by lia.
    destruct (decide _) as [_|Heq].
    + unfold set_counter. rewrite Hdims. do 5 f_equal. lia.
    + exfalso. apply Hcount.
      destruct (decide (Z.of_nat (S (length rest)) + 1 = R)); [lia|done].
  - intros i2 is2 Hn.
    apply (call_overruns R is2 i2 (set_counter 1 t)); cbn [length] in *; simpl; lia.
Qed.

Lemma call_wrong_count_sticks_witness :
  let t := mkTensor [10; 11; 12; 13; 14; 15] [2; 3] 0 0 in
  call 2 t 0 [0; 0] =
    Some (mkAccess (set_counter 1 t) [(cerr, TensorInvalidArguments 3 2)] 0) /\
  forall i2 is2,
    Z.of_nat (length (i2 :: is2)) = 2 ->
    call 2 (set_counter 1 t) i2 is2 = None \/
    exists s k lim i o,
      call 2 (set_counter 1 t) i2 is2 =
        Some (mkAccess (mkTensor (_data t) (_dimensions t) 0 o)
                       [(s, TensorOutOfRange k lim i)] 0).
Proof.
  apply (call_wrong_count_sticks 2 (mkTensor [10; 11; 12; 13; 14; 15] [2; 3] 0 0)
           0 0 [0] 2 [3]).
  - lia.
  - reflexivity.
  - reflexivity.
  - lia.
  - unfold int_range, int_min, int_max. lia.
  - simpl. lia.
  - unfold int_max. simpl. lia.
  - reflexivity.
  - unfold int_max. lia.
Defined.

(** X9: an access with a single index on a tensor at rest (the only way to
    index a tensor of rank 1).  The index is checked against the size of the
    first dimension; the accessor prints [TensorInvalidArguments(1, R)] on
    [cerr], and returns the element at the offset the previous access left
    plus the index times the product of all sizes but the last.  That
    position is kept in [_offset], so that successive accesses add up. *)
Theorem call_single_index_accumulates {T : Type} (R : Z) (t : Tensor T)
    (idx d : Z) (ds : list Z) (stride : Z) :
  _counter t = 0 -> _dimensions t = d :: ds ->
  0 <= idx < d -> int_range idx ->
  Forall (fun d => 1 <= d) (d :: ds) ->
  stride = product (take (length ds) (d :: ds)) ->
  stride <= int_max -> stride * idx <= int_max ->
  0 <= _offset t -> _offset t + stride * idx < 2 ^ 64 ->
  call R t idx [] =
    Some (mkAccess (mkTensor (_data t) (_dimensions t) 0 (_offset t + stride * idx))
                   [(cerr, TensorInvalidArguments 1 R)]
                   (_offset t + stride * idx)).
Proof.
  intros Hc Hdims Hidx Hint Hpos Hstride Hs Hsi Ho Hfit.
  rewrite (call_one_index R t idx d ds Hdims Hc Hidx Hint).
  assert (Forall (fun d => 1 <= d) (take (length ds) (d :: ds))) as Hpre
    by (by apply Forall_take).
  pose proof (product_pos _ Hpre) as Hp. rewrite <- Hstride in Hp.
  unfold int_max in *.
  rewrite accumulate_multiplies_int_product by (done || (rewrite <- Hstride; lia)).
  rewrite <- Hstride.
  rewrite (to_int_small (stride * idx)) by nia.
  rewrite (to_size_small (stride * idx)) by nia.
  rewrite to_size_small by nia.
  done.
Qed.

Lemma call_single_index_accumulates_witness :
  call 1 (mkTensor [10; 11; 12; 13; 14] [5] 0 2) 2 [] =
    Some (mkAccess (mkTensor [10; 11; 12; 13; 14] [5] 0 4)
                   [(cerr, TensorInvalidArguments 1 1)] 4).
Proof.
  apply (call_single_index_accumulates 1 (mkTensor [10; 11; 12; 13; 14] [5] 0 2) 2 5 [] 1).
  - reflexivity.
  - reflexivity.
  - lia.
  - unfold int_range, int_min, int_max. lia.
  - repeat constructor; lia.
  - reflexivity.
  - unfold int_max. simpl. lia.
  - unfold int_max. simpl. lia.
  - simpl. lia.
  - simpl. lia.
Defined.

(** X10: the getters on a freshly built tensor.  Built from [R] sizes that
    are non-negative [int]s whose product fits an [int], the tensor reports
    these sizes ([dimSizes()], and [size(k)] for each dimension, printing
    nothing), its rank [R] (a [size_t]) is the number of sizes, [size()] is
    their product, and the buffer holds that many value-initialised
    elements, each readable by [operator[]]. *)
Theorem Tensor_of_dimensions_getters {T : Type} (R : Z) (T0 : T)
    (dimensions : list Z) :
  Forall (fun d => 0 <= d <= int_max) dimensions ->
  product dimensions <= int_max ->
  Z.of_nat (length dimensions) = R ->
  R < 2 ^ 64 ->
  exists t,
    Tensor_of_dimensions R T0 dimensions = Some t /\
    size t = product dimensions /\
    dimSizes t = dimensions /\
    rank R t = Z.of_nat (length (dimSizes t)) /\
    data t = replicate (Z.to_nat (product dimensions)) T0 /\
    (forall k d, dimensions !! k = Some d ->
       size_dim R t (Z.of_nat k) = Some (d, [])) /\
    (forall i : nat, Z.of_nat i < product dimensions -> get t i = Some T0).
Proof.
  unfold int_max. intros Hd Hp Hlen HR.
  assert (0 <= product dimensions) as Hp0.
  { clear -Hd. induction Hd as [|d l Hd _ IH]; simpl; [lia|]. nia. }
  assert (to_size <$> dimensions = dimensions) as Hsizes.
  { clear -Hd. induction Hd as [|d l Hd _ IH]; [done|].
    rewrite fmap_cons, IH, to_size_small by lia. done. }
  unfold Tensor_of_dimensions, ASSERT_eq.
  rewrite accumulate_multiplies_int_wraps, to_int_small by lia.
  destruct (decide (product dimensions < 0)); [lia|].
  destruct (decide (Z.of_nat (length dimensions) = R)); [|done]. simpl.
  eexists. split; [done|]. rewrite Hsizes.
  unfold size, dimSizes, rank, data, get, size_dim. simpl.
  split; [rewrite length_replicate; lia|]. split; [done|]. split; [done|].
  split; [done|]. split.
  - intros k d Hk. pose proof (lookup_lt_Some _ _ _ Hk).
    rewrite to_size_small by lia.
    destruct (decide (R <= Z.of_nat k)); [lia|].
    by rewrite Nat2Z.id, Hk.
  - intros i Hi. apply lookup_replicate. split; [done|]. lia.
Qed.

Lemma Tensor_of_dimensions_getters_witness :
  exists t,
    Tensor_of_dimensions 3 0 [2; 0; 4] = Some t /\
    size t = product [2; 0; 4] /\
    dimSizes t = [2; 0; 4] /\
    rank 3 t = Z.of_nat (length (dimSizes t)) /\
    data t = replicate (Z.to_nat (product [2; 0; 4])) 0 /\
    (forall k d, [2; 0; 4] !! k = Some d ->
       size_dim 3 t (Z.of_nat k) = Some (d, [])) /\
    (forall i : nat, Z.of_nat i < product [2; 0; 4] -> get t i = Some 0).
Proof.
  apply (Tensor_of_dimensions_getters 3 0 [2; 0; 4]).
  - repeat constructor; unfold int_max; lia.
  - unfold int_max. simpl. lia.
  - reflexivity.
  - lia.
Defined.

(** X11: the accessor and [operator[]] agree.  On a tensor of rank
    [R >= 2] at rest whose buffer has as many elements as the product of the
    sizes (within [int]), an in-range access [t(idx, indices...)] returns the
    element that [t[k]] reads at [k = sum over d of idx[d] * (product of the
    sizes before d)], and a value written by [t[k] = v] is the one the
    accessor returns afterwards. *)
Theorem call_agrees_with_flat_index {T : Type} (R : Z) (t : Tensor T)
    (idx : Z) (indices : list Z) (v : T) :
  2 <= R <= int_max ->
  Z.of_nat (length (_dimensions t)) = R ->
  _counter t = 0 ->
  Z.of_nat (length (_data t)) = product (_dimensions t) ->
  product (_dimensions t) <= int_max ->
  in_range (_dimensions t) (idx :: indices) ->
  exists a x t' a',
    call R t idx indices = Some a /\ element a = Some x /\
    get t (Z.to_nat (offset_first (_dimensions t) (idx :: indices))) = Some x /\
    put t (Z.to_nat (offset_first (_dimensions t) (idx :: indices))) v = Some t' /\
    call R t' idx indices = Some a' /\ element a' = Some v.
Proof.
  intros HR Hlen Hc Hdata Hprod Hin.
  destruct (call_complete R t idx indices HR Hlen Hc Hin Hprod) as [C B].
  set (o := offset_first (_dimensions t) (idx :: indices)) in *.
  destruct (lookup_lt_is_Some_2 (_data t) (Z.to_nat o)) as [x Hx]; [lia|].
  set (t' := mkTensor (<[Z.to_nat o := v]> (_data t)) (_dimensions t)
                      (_counter t) (_offset t)).
  destruct (call_complete R t' idx indices HR Hlen Hc Hin Hprod) as [C' _].
  eexists _, x, t', _. split; [exact C|]. split; [exact Hx|]. split; [exact Hx|].
  split.
  { unfold put. destruct (decide (Z.to_nat o < length (_data t))%nat); [done|lia]. }
  split; [exact C'|].
  unfold element, get. simpl. apply list_lookup_insert_eq. lia.
Qed.

Lemma call_agrees_with_flat_index_witness :
  exists a x t' a',
    call 2 (mkTensor [10; 11; 12; 13; 14; 15] [2; 3] 0 0) 1 [2] = Some a /\
    element a = Some x /\
    get (mkTensor [10; 11; 12; 13; 14; 15] [2; 3] 0 0)
        (Z.to_nat (offset_first [2; 3] [1; 2])) = Some x /\
    put (mkTensor [10; 11; 12; 13; 14; 15] [2; 3] 0 0)
        (Z.to_nat (offset_first [2; 3] [1; 2])) 99 = Some t' /\
    call 2 t' 1 [2] = Some a' /\ element a' = Some 99.
Proof.
  apply (call_agrees_with_flat_index 2 (mkTensor [10; 11; 12; 13; 14; 15] [2; 3] 0 0)
           1 [2] 99).
  - unfold int_max. lia.
  - reflexivity.
  - reflexivity.
  - reflexivity.
  - unfold int_max. simpl. lia.
  - repeat constructor; lia.
Defined.

End TensorProperties.

(** * Further properties of the kernels *)

(** ** Warps with lanes that do not run *)
Module PartialWarpFacts.
Import Kernels Symbolic WarpFacts.

(** Run on symbolic lanes, the reductions of a warp of fewer than 32 lanes
    leave no lane with a defined value. *)
Lemma partial_warp_symbolic :
  forallb (fun n =>
    match lane_value (warpReduce Node (symbolic_lanes n)) 0 with
    | None => true | Some _ => false end &&
    forallb (fun r : option term => match r with None => true | Some _ => false end)
            (warpReduceAll Node (symbolic_lanes n)))
    (seq 0 warpSize) = true.
Proof. vm_compute. reflexivity. Qed.

Lemma partial_warp_undefined {dType : Type} (zero : dType)
    (plus : dType -> dType -> dType) (vals : list dType) :
  (length vals < warpSize)%nat ->
  lane_value (warpReduce plus (Some <$> vals)) 0 = None /\
  forall lane, lane_value (warpReduceAll plus (Some <$> vals)) lane = None.
Proof.
  intros Hlen.
  pose proof partial_warp_symbolic as Hall. rewrite forallb_forall in Hall.
  specialize (Hall (length vals)).
  apply andb_prop in Hall as [H1 H2]; [|apply list_elem_of_In, elem_of_seq; lia].
  rewrite forallb_forall in H2.
  rewrite <- (symbolic_lanes_eval zero plus vals).
  rewrite (warpReduce_natural Node plus (eval zero plus vals)) by done.
  rewrite (warpReduceAll_natural Node plus (eval zero plus vals)) by done.
  split.
  - rewrite lane_value_natural.
    by destruct (lane_value (warpReduce Node (symbolic_lanes (length vals))) 0).
  - intros lane. rewrite lane_value_natural. unfold lane_value.
    destruct (warpReduceAll Node (symbolic_lanes (length vals)) !! lane)
      as [r|] eqn:El; [|done].
    specialize (H2 r). destruct r; [|done].
    exfalso. apply list_elem_of_lookup_2, list_elem_of_In, H2 in El. done.
Qed.

End PartialWarpFacts.

(** ** The block-level reductions, warp by warp *)
Module BlockMoreFacts.
Import Kernels Symbolic SumFacts WarpFacts BlockFacts.

Lemma length_warpReduceAll {dType : Type} (plus : dType -> dType -> dType) vals :
  length (warpReduceAll plus vals) = length vals.
Proof. apply length_warp_loop. Qed.

(** The first [k] pieces of [n] elements of a list. *)
Lemma chunks_concat_take {A : Type} (n k : nat) : forall l : list A,
  (k * n <= length l)%nat ->
  concat ((fun w => take n (drop (w * n) l)) <$> seq 0 k) = take (k * n) l.
Proof.
  induction k as [|k IH]; intros l Hl.
  - done.
  - rewrite <- cons_seq, fmap_cons. simpl. rewrite drop_0.
    rewrite <- fmap_S_seq, <- list_fmap_compose.
    rewrite <- take_take_drop. f_equal.
    rewrite <- (IH (drop n l)) by (rewrite length_drop; lia).
    f_equal. apply list_fmap_ext. intros _ w _. simpl.
    by rewrite drop_drop.
Qed.

(** A warp all of whose threads exist. *)
Lemma warp_of_complete {dType : Type} (vals : list dType) w :
  (S w * warpSize <= length vals)%nat ->
  warp_of (Some <$> vals) w = Some <$> take warpSize (drop (w * warpSize) vals) /\
  length (take warpSize (drop (w * warpSize) vals)) = warpSize.
Proof.
  intros Hlen. unfold warp_of. split.
  - by rewrite fmap_take, fmap_drop.
  - rewrite length_take, length_drop. lia.
Qed.

(** The threads of warp [w] of a block, taken out of a list built thread by
    thread. *)
Lemma warp_of_fmap_seq {A : Type} (g : nat -> A) n w :
  (S w * warpSize <= n)%nat ->
  take warpSize (drop (w * warpSize) (g <$> seq 0 n))
  = (fun lane => g (w * warpSize + lane)%nat) <$> seq 0 warpSize.
Proof.
  intros Hn. rewrite <- fmap_drop, <- fmap_take, drop_seq, take_seq.
  replace (warpSize `min` (n - w * warpSize))%nat with warpSize by lia.
  replace (0 + w * warpSize)%nat with (w * warpSize + 0)%nat by lia.
  by rewrite <- fmap_add_seq, <- list_fmap_compose.
Qed.

Lemma seq_warp_split k :
  (k <= 32)%nat -> seq 0 warpSize = seq 0 k ++ seq k (32 - k).
Proof.
  intros Hk. trans (seq 0 (k + (32 - k))).
  - unfold warpSize. f_equal. lia.
  - apply seq_app.
Qed.

(** Pieces of the same length, one after the other. *)
Lemma lookup_bind_blocks {A : Type} (X : nat -> list A) (n k : nat) :
  (forall w, (w < k)%nat -> length (X w) = n) ->
  forall w lane, (w < k)%nat -> (lane < n)%nat ->
    (seq 0 k ≫= X) !! (w * n + lane)%nat = X w !! lane.
Proof.
  induction k as [|k IH]; intros HX w lane Hw Hlane; [lia|].
  rewrite seq_S, bind_app. simpl. rewrite app_nil_r.
  assert (length (seq 0 k ≫= X) = (k * n)%nat) as Hlen.
  { clear -HX. induction k as [|k IH]; [done|].
    rewrite seq_S, bind_app, length_app. simpl. rewrite app_nil_r.
    rewrite IH by (intros; apply HX; lia). rewrite HX by lia. lia. }
  destruct (decide (w = k)) as [->|Hne].
  - rewrite lookup_app_r by lia. f_equal. lia.
  - rewrite lookup_app_l by nia. apply IH; [intros; apply HX; lia|lia|done].
Qed.

Section Monoid.
Context {dType : Type}.
Variable zero : dType.
Variable plus : dType -> dType -> dType.
Hypothesis plus_assoc : forall a b c, plus a (plus b c) = plus (plus a b) c.
Hypothesis plus_comm : forall a b, plus a b = plus b a.
Hypothesis plus_zero : forall a, plus zero a = a.

Local Abbreviation Sum := (Sum zero plus).

(** The partial sums of the first [k] warps, padded with zeros to a warp. *)
Lemma Sum_partials (k : nat) (vals : list dType) :
  (k <= 32)%nat -> (k * warpSize <= length vals)%nat ->
  Sum (((fun w => Sum (take warpSize (drop (w * warpSize) vals))) <$> seq 0 k)
       ++ replicate (32 - k) zero)
  = Sum (take (k * warpSize) vals).
Proof.
  intros Hk Hlen.
  rewrite (Sum_app zero plus), (Sum_replicate_zero zero plus) by done.
  rewrite (plus_comm _ zero), plus_zero.
  replace ((fun w => Sum (take warpSize (drop (w * warpSize) vals))) <$> seq 0 k)
    with (Sum <$> ((fun w => take warpSize (drop (w * warpSize) vals)) <$> seq 0 k))
    by (by rewrite <- list_fmap_compose).
  rewrite <- (Sum_concat zero plus) by done.
  by rewrite chunks_concat_take.
Qed.

(** [blockReduce] in a block of [k] full warps followed by [r] more
    threads. *)
Lemma blockReduce_leading_warps (k r : nat) (vals : list dType) :
  (1 <= k)%nat -> (r < warpSize)%nat -> (k * warpSize + r <= 1024)%nat ->
  length vals = (k * warpSize + r)%nat ->
  lane_value (blockReduce zero plus (k * warpSize + r) (Some <$> vals)) 0
  = Some (Sum (take (k * warpSize) vals)) /\
  forall t, (warpSize <= t < k * warpSize + r)%nat ->
    lane_value (blockReduce zero plus (k * warpSize + r) (Some <$> vals)) t
    = Some zero.
Proof.
  intros Hk Hr Hmax Hlen. unfold blockReduce.
  set (chunk := fun w => take warpSize (drop (w * warpSize) vals)).
  set (nw := ((k * warpSize + r + warpSize - 1) / warpSize)%nat).
  assert (k <= nw <= 32)%nat as Hnw.
  { unfold nw, warpSize in *. split.
    - apply Nat.div_le_lower_bound; lia.
    - assert ((k * 32 + r + 32 - 1) / 32 < 33)%nat; [|lia].
      apply Nat.Div0.div_lt_upper_bound. lia. }
  assert (warps_of_block (k * warpSize + r) = seq 0 nw) as -> by done.
  assert (((k * warpSize + r) / warpSize)%nat = k) as ->.
  { unfold warpSize in *. symmetry. apply Nat.div_unique with (r := r); lia. }
  set (shared := foldl _ _ _).
  assert (forall j, (j < k)%nat -> lane_value shared j = Some (Sum (chunk j))) as Hsh.
  { intros j Hj. unfold lane_value, shared.
    rewrite (shared_lookup (fun wid => lane_value (warpReduce plus (warp_of (Some <$> vals) wid)) 0))
      by (rewrite length_replicate; lia).
    destruct (decide (j < nw)%nat); [|lia]. simpl.
    destruct (warp_of_complete vals j) as [-> Hl]; [unfold warpSize in *; lia|].
    by apply warpReduce_full. }
  set (g := fun tid => if decide (tid < k)%nat
                       then lane_value shared (tid mod warpSize) else Some zero).
  fold g.
  assert (warp_of (g <$> seq 0 (k * warpSize + r)) 0 =
          Some <$> ((fun w => Sum (chunk w)) <$> seq 0 k) ++ replicate (32 - k) zero) as Hw.
  { unfold warp_of. rewrite (warp_of_fmap_seq g) by (unfold warpSize in *; lia).
    rewrite (seq_warp_split k), !fmap_app by (unfold warpSize in *; lia). f_equal.
    - rewrite <- list_fmap_compose. apply list_fmap_ext.
      intros i w [-> Hi]%lookup_seq. cbn [Nat.add compose Nat.mul]. unfold g.
      destruct (decide (i < k)%nat); [|lia].
      rewrite Nat.mod_small by (unfold warpSize; lia). by apply Hsh.
    - rewrite fmap_replicate.
      rewrite <- (length_seq (32 - k) k) at 2.
      apply fmap_constant. intros w [Hw _]%elem_of_seq. cbn [Nat.mul Nat.add]. unfold g.
      destruct (decide (w < k)%nat); [lia|done]. }
  assert (length (warpReduce plus (warp_of (g <$> seq 0 (k * warpSize + r)) 0)) = warpSize)
    as Hl0.
  { rewrite length_warpReduce, Hw, length_fmap, length_app, length_fmap,
      length_seq, length_replicate. unfold warpSize. lia. }
  split.
  - unfold lane_value at 1. rewrite lookup_app_l by (rewrite Hl0; unfold warpSize; lia).
    fold (lane_value (warpReduce plus (warp_of (g <$> seq 0 (k * warpSize + r)) 0)) 0).
    rewrite Hw. rewrite (warpReduce_full zero plus); try done.
    + f_equal. apply Sum_partials; lia.
    + rewrite length_app, length_fmap, length_seq, length_replicate.
      unfold warpSize. lia.
  - intros t Ht. unfold lane_value.
    rewrite lookup_app_r by (rewrite Hl0; lia). rewrite Hl0.
    rewrite lookup_drop, list_lookup_fmap.
    replace (warpSize + (t - warpSize))%nat with t by lia.
    rewrite lookup_seq_lt by lia. simpl. unfold g.
    destruct (decide (t < k)%nat); [unfold warpSize in *; lia|done].
Qed.

(** Every thread of a block of [k] full warps returns from
    [blockReduceAll] with the sum of the arguments of all threads. *)
Lemma blockReduceAll_full (k : nat) (vals : list dType) t :
  (1 <= k <= 32)%nat -> length vals = (k * warpSize)%nat ->
  (t < k * warpSize)%nat ->
  lane_value (blockReduceAll zero plus (k * warpSize) (Some <$> vals)) t
  = Some (Sum vals).
Proof.
  intros Hk Hlen Ht. unfold blockReduceAll.
  set (chunk := fun w => take warpSize (drop (w * warpSize) vals)).
  assert (warps_of_block (k * warpSize) = seq 0 k) as ->.
  { unfold warps_of_block. f_equal. unfold warpSize.
    symmetry. apply Nat.div_unique with (r := 31%nat); lia. }
  assert ((k * warpSize / warpSize)%nat = k) as ->.
  { apply Nat.div_mul. done. }
  set (shared := foldl _ _ _).
  assert (forall j, (j < k)%nat -> lane_value shared j = Some (Sum (chunk j))) as Hsh.
  { intros j Hj. unfold lane_value, shared.
    rewrite (shared_lookup (fun wid => lane_value (warpReduceAll plus (warp_of (Some <$> vals) wid)) 0))
      by (rewrite length_replicate; lia).
    destruct (decide (j < k)%nat); [|lia]. simpl.
    destruct (warp_of_complete vals j) as [-> Hl]; [unfold warpSize in *; nia|].
    apply (warpReduceAll_full zero plus); try done. unfold warpSize. lia. }
  set (g := fun tid => if decide (tid mod warpSize < k)%nat
                       then lane_value shared (tid mod warpSize) else Some zero).
  fold g.
  set (partials := ((fun w => Sum (chunk w)) <$> seq 0 k) ++ replicate (32 - k) zero).
  assert (length partials = warpSize) as Hpl.
  { unfold partials. rewrite length_app, length_fmap, length_seq, length_replicate.
    unfold warpSize. lia. }
  assert (forall w, (w < k)%nat ->
            warp_of (g <$> seq 0 (k * warpSize)) w = Some <$> partials) as Hw.
  { intros w Hw. unfold warp_of.
    rewrite (warp_of_fmap_seq g) by (unfold warpSize in *; nia).
    unfold partials.
    rewrite (seq_warp_split k), !fmap_app by lia. f_equal.
    - rewrite <- list_fmap_compose. apply list_fmap_ext.
      intros i l [-> Hi]%lookup_seq. cbn [Nat.add compose]. unfold g.
      replace ((w * warpSize + i) mod warpSize)%nat with i.
      2:{ rewrite Nat.add_comm, Nat.Div0.mod_add, Nat.mod_small; [done|].
          unfold warpSize. lia. }
      destruct (decide (i < k)%nat); [|lia]. by apply Hsh.
    - rewrite fmap_replicate.
      rewrite <- (length_seq (32 - k) k) at 2.
      apply fmap_constant. intros l [Hl1 Hl2]%elem_of_seq. unfold g.
      replace ((w * warpSize + l) mod warpSize)%nat with l.
      2:{ rewrite Nat.add_comm, Nat.Div0.mod_add, Nat.mod_small; [done|].
          unfold warpSize. lia. }
      destruct (decide (l < k)%nat); [lia|done]. }
  pose proof (Nat.div_mod_eq t warpSize) as Ed.
  pose proof (Nat.mod_upper_bound t warpSize ltac:(done)) as Hm.
  assert (t `div` warpSize < k)%nat as Hq
    by (apply Nat.Div0.div_lt_upper_bound; lia).
  unfold lane_value.
  replace t with ((t `div` warpSize) * warpSize + t `mod` warpSize)%nat at 1 by lia.
  rewrite (lookup_bind_blocks _ warpSize k); try done.
  - rewrite Hw by done.
    fold (lane_value (warpReduceAll plus (Some <$> partials)) (t `mod` warpSize)).
    rewrite (warpReduceAll_full zero plus) by done.
    f_equal. unfold partials, chunk.
    rewrite Sum_partials by lia.
    by rewrite <- Hlen, firstn_all.
  - intros w Hw'. rewrite length_warpReduceAll, Hw by done.
    by rewrite length_fmap.
Qed.

End Monoid.
End BlockMoreFacts.

(** ** The four-wide grid reduction *)
Module Grid4Facts.
Import Kernels Footprint SumFacts WarpFacts BlockFacts BlockMoreFacts.
Import MachineFacts GridFacts ElementwiseFacts.

Lemma quarter_bounds N : 0 <= N -> 0 <= N / 4 /\ N / 4 * 4 <= N < N / 4 * 4 + 4.
Proof.
  intros HN. pose proof (Z.div_mod N 4 ltac:(lia)).
  pose proof (Z.mod_pos_bound N 4 ltac:(lia)). lia.
Qed.

(** *** Membership in a footprint *)

Lemma elem_of_loop_positions4 M stride p : forall fuel i,
  0 < stride -> M - i <= Z.of_nat fuel * stride ->
  p ∈ loop_positions4 M stride fuel i <->
  exists j, 0 <= j /\ i + j * stride < M /\
            4 * (i + j * stride) <= p < 4 * (i + j * stride) + 4.
Proof.
  induction fuel as [|fuel IH]; intros i Hs Hf; simpl.
  - split; [by intros ?%elem_of_nil|]. intros (j & ? & ? & _). nia.
  - destruct (decide (i < M)) as [Hi|Hi].
    + rewrite !elem_of_cons, IH by (done || nia). split.
      * intros [->|[->|[->|[->|(j & ? & ? & Hp)]]]].
        -- exists 0. lia.
        -- exists 0. lia.
        -- exists 0. lia.
        -- exists 0. lia.
        -- exists (j + 1). split; [lia|]. split; [lia|]. lia.
      * intros (j & Hj & Hlt & Hp).
        destruct (decide (j = 0)) as [->|].
        -- assert (p = 4 * i \/ p = 4 * i + 1 \/ p = 4 * i + 2 \/ p = 4 * i + 3)
             as [->|[->|[->| ->]]] by lia; auto.
        -- do 4 right. exists (j - 1). split; [lia|]. split; [lia|]. lia.
    + split; [by intros ?%elem_of_nil|]. intros (j & ? & ? & _). nia.
Qed.

Lemma loop_positions4_bounds M stride p : forall fuel i,
  0 < stride -> p ∈ loop_positions4 M stride fuel i -> 4 * i <= p < 4 * M.
Proof.
  induction fuel as [|fuel IH]; intros i Hs; simpl.
  - by intros ?%elem_of_nil.
  - destruct (decide (i < M)); [|by intros ?%elem_of_nil].
    rewrite !elem_of_cons. intros [->|[->|[->|[->|H%IH]]]]; lia.
Qed.

Lemma NoDup_loop_positions4 M stride : forall fuel i,
  0 < stride -> NoDup (loop_positions4 M stride fuel i).
Proof.
  induction fuel as [|fuel IH]; intros i Hs; simpl; [constructor|].
  destruct (decide (i < M)); [|constructor].
  repeat (apply NoDup_cons; split;
          [rewrite ?elem_of_cons;
           intros H; repeat (destruct H as [H|H]; [lia|]);
           apply loop_positions4_bounds in H; lia|]).
  by apply IH.
Qed.

Lemma elem_of_thread_positions4 N stride idx p :
  0 <= N -> 0 < stride -> 0 <= idx ->
  p ∈ thread_positions4 N stride idx <->
  (exists j, 0 <= j /\ idx + j * stride < N / 4 /\
             4 * (idx + j * stride) <= p < 4 * (idx + j * stride) + 4) \/
  (p = idx + N / 4 * 4 /\ idx + N / 4 * 4 < N).
Proof.
  intros HN Hs Hi. unfold thread_positions4.
  destruct (quarter_bounds N HN) as [HM _].
  rewrite elem_of_app, elem_of_loop_positions4 by (done || nia).
  destruct (decide (idx + N / 4 * 4 < N)).
  - rewrite list_elem_of_singleton. tauto.
  - rewrite elem_of_nil. intuition lia.
Qed.

Lemma NoDup_thread_positions4 N stride idx :
  0 <= N -> 0 < stride -> 0 <= idx -> NoDup (thread_positions4 N stride idx).
Proof.
  intros HN Hs Hi. unfold thread_positions4. apply NoDup_app. split; [|split].
  - by apply NoDup_loop_positions4.
  - intros p Hp%loop_positions4_bounds; [|done].
    destruct (decide _); [|by intros ?%elem_of_nil].
    rewrite list_elem_of_singleton. lia.
  - destruct (decide _); [apply NoDup_singleton|constructor].
Qed.

Lemma thread_positions4_owner N stride idx1 idx2 p :
  0 <= N -> 0 < stride -> 0 <= idx1 < stride -> 0 <= idx2 < stride ->
  p ∈ thread_positions4 N stride idx1 -> p ∈ thread_positions4 N stride idx2 ->
  idx1 = idx2.
Proof.
  intros HN Hs H1 H2.
  rewrite !elem_of_thread_positions4 by lia.
  destruct (quarter_bounds N HN) as [HM Hb].
  intros [(j1 & ? & ? & Hp1)|[-> ?]] [(j2 & ? & ? & Hp2)|[Hp2 ?]]; try lia.
  assert (idx1 + j1 * stride = idx2 + j2 * stride) as E by lia.
  assert (j1 = j2) by nia. subst. lia.
Qed.

Lemma thread_positions4_cover N stride p :
  0 <= N -> 4 <= stride -> 0 <= p < N ->
  exists idx, 0 <= idx < stride /\ p ∈ thread_positions4 N stride idx.
Proof.
  intros HN Hs Hp. destruct (quarter_bounds N HN) as [HM Hb].
  destruct (decide (p < N / 4 * 4)) as [Hlt|Hge].
  - pose proof (Z.div_mod p 4 ltac:(lia)) as E4.
    pose proof (Z.mod_pos_bound p 4 ltac:(lia)) as B4.
    pose proof (Z.div_mod (p / 4) stride ltac:(lia)) as Es.
    pose proof (Z.mod_pos_bound (p / 4) stride ltac:(lia)) as Bs.
    assert (0 <= p / 4 / stride) by (apply Z.div_pos; lia).
    exists ((p / 4) mod stride). split; [lia|].
    apply elem_of_thread_positions4; [lia..|]. left.
    exists (p / 4 / stride). split; [done|]. split; [lia|]. lia.
  - exists (p - N / 4 * 4). split; [lia|].
    apply elem_of_thread_positions4; [lia..|]. right. lia.
Qed.

(** The footprints of the threads of a launch of at least four threads
    split the positions [0 .. N - 1] among them. *)
Lemma grid_positions4_perm blockDim gridDim N blocks :
  0 <= N -> (0 < blockDim)%nat -> 4 <= Z.of_nat blockDim * Z.of_nat gridDim ->
  blocks ≡ₚ seq 0 gridDim ->
  grid_positions4 blockDim gridDim N blocks ≡ₚ seqZ 0 N.
Proof.
  intros HN Hbd Hgd Hperm. unfold grid_positions4. rewrite Hperm. clear Hperm.
  set (stride := Z.of_nat blockDim * Z.of_nat gridDim) in *.
  assert (0 < stride) as Hs by lia.
  assert (forall b t, (b < gridDim)%nat -> (t < blockDim)%nat ->
            0 <= Z.of_nat b * Z.of_nat blockDim + Z.of_nat t < stride) as Hidx
    by (intros; unfold stride; nia).
  apply NoDup_Permutation.
  - apply NoDup_bind; [| |apply NoDup_seq].
    + intros b1 b2 p [_ Hb1]%elem_of_seq [_ Hb2]%elem_of_seq.
      intros (t1 & Hp1 & [_ Ht1]%elem_of_seq)%list_elem_of_bind
             (t2 & Hp2 & [_ Ht2]%elem_of_seq)%list_elem_of_bind.
      pose proof (thread_positions4_owner N stride _ _ p HN Hs
                    (Hidx b1 t1 ltac:(lia) ltac:(lia))
                    (Hidx b2 t2 ltac:(lia) ltac:(lia)) Hp1 Hp2). nia.
    + intros b [_ Hb]%elem_of_seq.
      apply NoDup_bind; [| |apply NoDup_seq].
      * intros t1 t2 p [_ Ht1]%elem_of_seq [_ Ht2]%elem_of_seq Hp1 Hp2.
        pose proof (thread_positions4_owner N stride _ _ p HN Hs
                      (Hidx b t1 ltac:(lia) ltac:(lia))
                      (Hidx b t2 ltac:(lia) ltac:(lia)) Hp1 Hp2). lia.
      * intros t [_ Ht]%elem_of_seq. apply NoDup_thread_positions4; lia || nia.
  - apply NoDup_seqZ.
  - intros p. rewrite elem_of_seqZ. split.
    + intros (b & (t & Hp & [_ Ht]%elem_of_seq)%list_elem_of_bind
                & [_ Hb]%elem_of_seq)%list_elem_of_bind.
      apply elem_of_thread_positions4 in Hp; [|lia|lia|nia].
      destruct (quarter_bounds N HN) as [HM Hb2].
      destruct Hp as [(j & ? & ? & Hp)|[-> ?]]; nia.
    + intros Hp.
      destruct (thread_positions4_cover N stride p HN Hgd ltac:(lia))
        as (idx & Hi & Hin).
      pose proof (Z.div_mod idx (Z.of_nat blockDim) ltac:(lia)) as E.
      pose proof (Z.mod_pos_bound idx (Z.of_nat blockDim) ltac:(lia)) as B.
      assert (0 <= idx / Z.of_nat blockDim) by (apply Z.div_pos; lia).
      assert (idx / Z.of_nat blockDim < Z.of_nat gridDim).
      { apply Z.div_lt_upper_bound; [lia|]. fold stride. lia. }
      apply list_elem_of_bind. exists (Z.to_nat (idx / Z.of_nat blockDim)).
      split; [|apply elem_of_seq; lia].
      apply list_elem_of_bind. exists (Z.to_nat (idx mod Z.of_nat blockDim)).
      split; [|apply elem_of_seq; lia].
      rewrite !Z2Nat.id by lia.
      replace (idx / Z.of_nat blockDim * Z.of_nat blockDim + idx mod Z.of_nat blockDim)
        with idx by lia.
      done.
Qed.

(** The threads of a launch that add to one element of [out]. *)
Lemma filter_grid_threads gridDim blockDim t0 :
  (t0 < blockDim)%nat ->
  filter (fun bt : nat * nat => (bt.2 * blockDim)%nat = (t0 * blockDim)%nat)
         (grid_threads gridDim blockDim)
  ≡ₚ (fun b => (b, t0)) <$> seq 0 gridDim.
Proof.
  intros Ht0. apply NoDup_Permutation.
  - apply NoDup_filter, NoDup_grid_threads.
  - apply NoDup_fmap_2; [|apply NoDup_seq]. by intros b1 b2 [= ->].
  - intros [b t]. rewrite list_elem_of_filter, elem_of_grid_threads.
    rewrite list_elem_of_fmap. simpl. split.
    + intros [E [Hb Ht]]. exists b. split; [|apply elem_of_seq; lia].
      f_equal. nia.
    + intros (b' & [= -> ->] & [_ Hb]%elem_of_seq). split; [done|]. lia.
Qed.

Section Monoid.
Context {dType : Type}.
Variable zero : dType.
Variable plus : dType -> dType -> dType.
Hypothesis plus_assoc : forall a b c, plus a (plus b c) = plus (plus a b) c.
Hypothesis plus_comm : forall a b, plus a b = plus b a.
Hypothesis plus_zero : forall a, plus zero a = a.

Variable f : dType -> dType.
Variables blockDim gridDim : nat.
Variable input : list dType.
Variable N : Z.

Local Abbreviation Sum := (Sum zero plus).
Local Abbreviation stride := (Z.of_nat blockDim * Z.of_nat gridDim).
Local Abbreviation rdf := (fun p : Z => f (default zero (input !! Z.to_nat p))).

Hypothesis launch : 0 < stride.
Hypothesis input_length : 0 <= N <= Z.of_nat (length input).
Hypothesis fits : N + stride <= int_max.

Lemma read4_inside p : 0 <= p < N -> f <$> input !! Z.to_nat p = Some (rdf p).
Proof.
  intros Hp. destruct (lookup_lt_is_Some_2 input (Z.to_nat p)) as [x Hx]; [lia|].
  by rewrite Hx.
Qed.

Lemma vector_loop4_S fuel i sum :
  vector_loop4 plus f blockDim gridDim input N (S fuel) i sum =
  if decide (to_size i < N / 4) then
    vector_loop4 plus f blockDim gridDim input N fuel
      (to_int (to_uint (to_uint i + to_uint stride)))
      (vplus plus sum
         (vplus plus
            (vplus plus
               (vplus plus (f <$> input !! Z.to_nat (4 * i))
                           (f <$> input !! Z.to_nat (4 * i + 1)))
               (f <$> input !! Z.to_nat (4 * i + 2)))
            (f <$> input !! Z.to_nat (4 * i + 3))))
  else sum.
Proof. done. Qed.

Lemma loop_positions4_S M s fuel i :
  loop_positions4 M s (S fuel) i =
  if decide (i < M)
  then 4 * i :: 4 * i + 1 :: 4 * i + 2 :: 4 * i + 3 :: loop_positions4 M s fuel (i + s)
  else [].
Proof. done. Qed.

Lemma vector_loop4_sum : forall fuel i acc,
  0 <= i <= N / 4 + stride ->
  N / 4 - i <= Z.of_nat fuel * stride ->
  vector_loop4 plus f blockDim gridDim input N (S fuel) i (Some acc)
  = Some (plus acc (Sum (rdf <$> loop_positions4 (N / 4) stride (S fuel) i))).
Proof.
  assert (0 <= N) as HN by lia.
  destruct (quarter_bounds N HN) as [HM Hb]. unfold int_max in fits.
  induction fuel as [|fuel IH]; intros i acc Hi Hf;
    rewrite vector_loop4_S, loop_positions4_S, (to_size_small i) by lia;
    destruct (decide (i < N / 4)) as [Hlt|Hge];
    try (simpl; by rewrite plus_comm, plus_zero).
  - simpl in Hf. lia.
  - rewrite Nat2Z.inj_succ in Hf.
    rewrite (to_uint_small i), (to_uint_small stride) by lia.
    rewrite (to_uint_small (i + stride)), (to_int_small (i + stride)) by lia.
    rewrite (read4_inside (4 * i)), (read4_inside (4 * i + 1)),
            (read4_inside (4 * i + 2)), (read4_inside (4 * i + 3)) by lia.
    cbn [vplus mbind option_bind].
    rewrite IH by lia.
    f_equal. rewrite !fmap_cons, !(Sum_cons zero plus).
    by rewrite !plus_assoc.
Qed.

Lemma thread_sum4_positions b t :
  (b < gridDim)%nat -> (t < blockDim)%nat ->
  thread_sum4 zero plus f blockDim gridDim input N b t
  = Some (Sum (rdf <$> thread_positions4 N stride
                         (Z.of_nat b * Z.of_nat blockDim + Z.of_nat t))).
Proof.
  intros Hb Ht. assert (0 <= N) as HN by lia.
  destruct (quarter_bounds N HN) as [HM Hh].
  destruct (thread_index_exact blockDim gridDim b t) as [E Hi]; [lia|done|done|].
  unfold thread_sum4, thread_positions4. rewrite E in *. unfold int_max in fits.
  set (idx := Z.of_nat b * Z.of_nat blockDim + Z.of_nat t) in *.
  rewrite vector_loop4_sum by (rewrite ?Z2Nat.id by lia; nia).
  rewrite plus_zero.
  rewrite (to_size_small idx), (to_size_small (idx + _)), to_int_small by lia.
  rewrite (to_size_small (idx + _)) by lia.
  destruct (decide (idx + N / 4 * 4 < N)).
  - rewrite read4_inside by lia. simpl.
    rewrite fmap_app, (Sum_app zero plus) by done.
    by rewrite fmap_cons, (Sum_singleton zero plus).
  - by rewrite app_nil_r.
Qed.

(** What the threads of block [b] add up together. *)
Local Abbreviation block_total :=
  (fun b : nat => Sum (rdf <$> block_positions4 blockDim gridDim N b)).

Lemma block_sums_full k b t :
  blockDim = (k * warpSize)%nat -> (1 <= k <= 32)%nat ->
  (b < gridDim)%nat -> (t < blockDim)%nat ->
  lane_value (block_sums zero plus f blockDim gridDim input N b) t
  = Some (block_total b).
Proof.
  intros Hbd Hk Hb Ht. unfold block_sums, block_positions4.
  set (tp := fun t => thread_positions4 N stride
                        (Z.of_nat b * Z.of_nat blockDim + Z.of_nat t)).
  assert (thread_sum4 zero plus f blockDim gridDim input N b <$> seq 0 blockDim
          = Some <$> ((fun t => Sum (rdf <$> tp t)) <$> seq 0 blockDim)) as ->.
  { rewrite <- list_fmap_compose. apply list_fmap_ext.
    intros i t' [-> Hi]%lookup_seq. by apply thread_sum4_positions. }
  rewrite Hbd at 1.
  rewrite (blockReduceAll_full zero plus)
    by (rewrite ?length_fmap, ?length_seq; done || lia).
  f_equal. rewrite fmap_bind_list, (Sum_bind zero plus) by done. done.
Qed.

Lemma Sum_block_totals k :
  blockDim = (k * warpSize)%nat -> (1 <= k <= 32)%nat ->
  Sum (block_total <$> seq 0 gridDim) = Sum (f <$> take (Z.to_nat N) input).
Proof.
  intros Hbd Hk.
  trans (Sum (rdf <$> grid_positions4 blockDim gridDim N (seq 0 gridDim))).
  { unfold grid_positions4, block_positions4.
    rewrite fmap_bind_list, (Sum_bind zero plus) by done. done. }
  trans (Sum (rdf <$> seqZ 0 N)).
  { apply (Sum_perm zero plus); [done..|].
    apply fmap_Permutation, grid_positions4_perm; try done; try lia.
    unfold warpSize in *. nia. }
  f_equal. rewrite <- (seqZ_lookup_all zero) by done.
  by rewrite <- list_fmap_compose.
Qed.

(** The additions a part of the launch makes to [out[ p ]], in the order in
    which they take effect. *)
Local Abbreviation additions :=
  (fun (schedule : list (nat * nat)) (p : nat) =>
     (fun bt : nat * nat => block_total bt.1) <$> adders blockDim schedule p).

Lemma atomic_adds_all k schedule : forall out : list dType,
  blockDim = (k * warpSize)%nat -> (1 <= k <= 32)%nat ->
  (forall bt, bt ∈ schedule -> (bt.1 < gridDim)%nat /\ (bt.2 < blockDim)%nat) ->
  ((blockDim - 1) * blockDim < length out)%nat ->
  exists out',
    blockReduceAtomicVectorizedAll zero plus f blockDim gridDim input N schedule out
      = Some out' /\
    length out' = length out /\
    forall p, out' !! p = (fun o => plus o (Sum (additions schedule p))) <$> out !! p.
Proof.
  unfold blockReduceAtomicVectorizedAll, run_threads.
  induction schedule as [|[b t] schedule IH]; intros out Hbd Hk Hv Hout.
  - exists out. split; [done|]. split; [done|]. intros p.
    unfold adders. simpl. destruct (out !! p); [|done].
    simpl. by rewrite plus_comm, plus_zero.
  - destruct (Hv (b, t)) as [Hb Ht]; [left|]. simpl in Hb, Ht.
    cbn [foldl]. simpl. unfold atomic_add_thread at 2. simpl.
    rewrite (block_sums_full k) by done. simpl.
    assert (0 <= Z.of_nat t * Z.of_nat blockDim < 2 ^ 31) as Hsmall.
    { unfold warpSize in *. nia. }
    rewrite to_uint_small, to_int_small by lia.
    destruct (decide (0 <= Z.of_nat t * Z.of_nat blockDim)); [|lia].
    replace (Z.to_nat (Z.of_nat t * Z.of_nat blockDim)) with (t * blockDim)%nat by lia.
    destruct (lookup_lt_is_Some_2 out (t * blockDim)) as [old Hold]; [nia|].
    rewrite Hold. simpl.
    destruct (IH (<[(t * blockDim)%nat := plus old (block_total b)]> out))
      as (out' & E & Hl & Hp); try done.
    { intros bt Hbt. apply Hv. by right. }
    { by rewrite length_insert. }
    exists out'. split; [done|]. rewrite length_insert in Hl. split; [done|].
    intros p. rewrite Hp. unfold adders.
    destruct (decide ((t * blockDim)%nat = p)) as [<-|Hne].
    + rewrite filter_cons_True by done.
      rewrite fmap_cons, (Sum_cons zero plus).
      rewrite list_lookup_insert_eq by nia. rewrite Hold. simpl.
      by rewrite plus_assoc.
    + rewrite filter_cons_False by done.
      by rewrite list_lookup_insert_ne.
Qed.

(** What a launch of [blockReduceAtomicVectorizedAll] with blocks of [k]
    full warps leaves in [out]: the threads with [threadIdx.x = t] of all
    blocks have added their block's sum to [out[ t * blockDim ]]. *)
Lemma reduce_all_effect k schedule (out : list dType) :
  blockDim = (k * warpSize)%nat -> (1 <= k <= 32)%nat ->
  schedule ≡ₚ grid_threads gridDim blockDim ->
  ((blockDim - 1) * blockDim < length out)%nat ->
  exists out',
    blockReduceAtomicVectorizedAll zero plus f blockDim gridDim input N schedule out
      = Some out' /\
    length out' = length out /\
    forall p,
      out' !! p =
      if decide (p `mod` blockDim = 0 /\ p `div` blockDim < blockDim)%nat
      then (fun o => plus o (Sum (f <$> take (Z.to_nat N) input))) <$> out !! p
      else out !! p.
Proof.
  intros Hbd Hk Hperm Hout.
  destruct (atomic_adds_all k schedule out Hbd Hk) as (out' & E & Hl & Hp);
    [|done|].
  { intros [b t]. rewrite Hperm. apply elem_of_grid_threads. }
  exists out'. split; [done|]. split; [done|]. intros p. rewrite Hp.
  assert (0 < blockDim)%nat as Hpos by (unfold warpSize in *; lia).
  pose proof (Nat.div_mod_eq p blockDim) as Ed.
  destruct (decide (p `mod` blockDim = 0 /\ p `div` blockDim < blockDim)%nat)
    as [[Hm Hq]|Hno].
  - destruct (out !! p) as [o|]; [|done]. simpl. do 2 f_equal.
    rewrite <- (Sum_block_totals k) by done.
    unfold adders.
    apply (Sum_perm zero plus); [done..|].
    assert (exists q, p = (q * blockDim)%nat /\ (q < blockDim)%nat) as (q & -> & Hq')
      by (exists (p `div` blockDim)%nat; lia).
    rewrite Hperm, (filter_grid_threads gridDim blockDim q) by done.
    by rewrite <- list_fmap_compose.
  - assert (filter (fun bt : nat * nat => (bt.2 * blockDim)%nat = p) schedule = [])
      as Hnil.
    { apply elem_of_nil_inv. intros [b t].
      rewrite list_elem_of_filter, Hperm, elem_of_grid_threads. simpl.
      intros [Ep [Hb Ht]]. apply Hno. subst p.
      rewrite Nat.Div0.mod_mul, Nat.div_mul by lia. done. }
    unfold adders. rewrite Hnil. simpl.
    destruct (out !! p); [|done]. simpl. by rewrite plus_comm, plus_zero.
Qed.

End Monoid.
End Grid4Facts.

(** ** The vector-sum kernel *)
Module XpnyFacts.
Import Kernels Columns SumFacts MachineFacts GridFacts ElementwiseFacts.

Lemma filled_weaken {dType : Type} (plus : dType -> dType -> dType) zero
    h odd vectors X bx (D D' : nat * nat -> Prop) s :
  (forall t, D' t -> D t) ->
  filled zero plus h odd vectors X bx D s -> filled zero plus h odd vectors X bx D' s.
Proof. intros HD Hf tx ty Ht. apply Hf. by apply HD. Qed.

Lemma summed_iff {dType : Type} (plus : dType -> dType -> dType) zero
    h odd old (W W' : nat -> Prop) vs :
  (forall i, W i <-> W' i) ->
  summed zero plus h odd old W vs -> summed zero plus h odd old W' vs.
Proof.
  intros HW (Hlen & Hrest & row0 & row0' & H0 & H0' & Hl & Hw & Hnw).
  split; [done|]. split; [done|]. exists row0, row0'.
  repeat (split; [done|]). split.
  - intros i Hi. apply Hw. by apply HW.
  - intros i Hi. apply Hnw. intros ?. apply Hi. by apply HW.
Qed.

Lemma shared_slot_inj (a b k k' h : nat) :
  (k < h)%nat -> (k' < h)%nat -> (a * h + k = b * h + k')%nat -> a = b /\ k = k'.
Proof.
  intros Hk Hk' E.
  assert (a = b) as ->.
  { destruct (Nat.lt_trichotomy a b) as [Hlt|[->|Hgt]]; [|done|].
    - assert ((a + 1) * h <= b * h)%nat by (apply Nat.mul_le_mono_r; lia). lia.
    - assert ((b + 1) * h <= a * h)%nat by (apply Nat.mul_le_mono_r; lia). lia. }
  split; [done|lia].
Qed.

Lemma shared_store_in {dType : Type} (s : list (option dType)) (k : nat) v :
  (k < length s)%nat -> shared_store s (Z.of_nat k) v = Some (<[k := v]> s).
Proof.
  intros Hk. unfold shared_store.
  destruct (decide (0 <= Z.of_nat k < Z.of_nat (length s))); [|lia].
  by rewrite Nat2Z.id.
Qed.

Lemma shared_load_in {dType : Type} (s : list (option dType)) (k : nat) :
  shared_load s (Z.of_nat k) = s !! k.
Proof.
  unfold shared_load. destruct (decide (0 <= Z.of_nat k)); [|lia].
  by rewrite Nat2Z.id.
Qed.

Section Launch.
Context {dType : Type}.
Variable zero : dType.
Variable plus : dType -> dType -> dType.
Variables X Y gx sharedLen hn : nat.
Variable odd : bool.
Variable old : list (list dType).

Local Abbreviation M := (2 * Z.of_nat hn + Z.b2z odd).
Local Abbreviation nx := (X * gx)%nat.
Local Abbreviation entry := (entry zero).
Local Abbreviation partial := (partial zero plus hn odd).
Local Abbreviation column_total := (column_total zero plus hn odd).
Local Abbreviation filled := (filled zero plus hn odd).
Local Abbreviation summed := (summed zero plus hn odd old).

Hypothesis vectors_exist : 1 <= M.
Hypothesis fits_M : M <= int_max.
Hypothesis X_pos : (0 < X)%nat.
Hypothesis Y_pos : (0 < Y)%nat.
Hypothesis Y_covers : (hn <= Y)%nat.
Hypothesis fits_x : Z.of_nat X * Z.of_nat gx <= int_max.
Hypothesis fits_y : Z.of_nat Y <= int_max.
Hypothesis fits_s : Z.of_nat nx * Z.of_nat hn <= int_max.
Hypothesis shared_size : (nx * hn <= sharedLen)%nat.
Hypothesis shared_one : (hn = 0 -> 1 <= sharedLen)%nat.
Hypothesis vectors_length : Z.of_nat (length old) = M.
Hypothesis rows_length : forall row, row ∈ old -> (nx <= length row)%nat.

(** Vectors of the shape of [old]. *)
Local Abbreviation shaped :=
  (fun vs : list (list dType) =>
     length vs = length old /\
     forall j row, vs !! j = Some row -> (nx <= length row)%nat).

Lemma half_M : M / 2 = Z.of_nat hn.
Proof.
  symmetry. apply Z.div_unique with (r := Z.b2z odd); destruct odd; simpl; lia.
Qed.

Lemma yStride_eq : yStride M = Z.of_nat hn.
Proof.
  unfold yStride, int_max in *. rewrite half_M.
  apply to_int_small. destruct odd; simpl in *; lia.
Qed.

Lemma odd_test :
  Z.land M (Z.b2z (negb (1 =? 0))) <> 0 <-> odd = true.
Proof.
  change (Z.b2z (negb (1 =? 0))) with (Z.ones 1).
  rewrite Z.land_ones by lia. change (2 ^ 1) with 2.
  assert (M mod 2 = Z.b2z odd) as ->.
  { symmetry. apply Z.mod_unique with (q := Z.of_nat hn); destruct odd; simpl; lia. }
  destruct odd; simpl; split; done || lia.
Qed.

Lemma index_x bx tx :
  (bx < gx)%nat -> (tx < X)%nat ->
  thread_index X bx tx = Z.of_nat (bx * X + tx) /\ (bx * X + tx < nx)%nat.
Proof.
  intros Hb Ht.
  destruct (thread_index_exact X gx bx tx fits_x Hb Ht) as [-> _].
  split; [lia|nia].
Qed.

Lemma index_y ty : (ty < Y)%nat -> thread_index Y 0 ty = Z.of_nat ty.
Proof.
  intros Ht.
  destruct (thread_index_exact Y 1 0 ty) as [-> _]; lia.
Qed.

Lemma shared_index_eq i k :
  (i < nx)%nat -> (k < hn)%nat ->
  shared_index M (Z.of_nat i) (Z.of_nat k) = Z.of_nat (i * hn + k) /\
  to_int (Z.of_nat i * Z.of_nat hn) = Z.of_nat (i * hn) /\
  (i * hn + k < sharedLen)%nat.
Proof.
  intros Hi Hk. unfold shared_index. rewrite yStride_eq. unfold int_max in *.
  assert (Z.of_nat i * Z.of_nat hn + Z.of_nat k < Z.of_nat nx * Z.of_nat hn) by nia.
  rewrite (to_int_small (Z.of_nat i * Z.of_nat hn)) by nia.
  rewrite to_int_small by nia.
  split; [lia|]. split; [lia|nia].
Qed.

Lemma vector_at_entry vs j i :
  shaped vs -> (j < length old)%nat -> (i < nx)%nat ->
  vector_at vs (Z.of_nat j) (Z.of_nat i) = Some (entry vs j i).
Proof.
  intros [Hlen Hrows] Hj Hi. unfold vector_at, Columns.entry.
  destruct (decide (0 <= Z.of_nat j /\ 0 <= Z.of_nat i)); [|lia].
  rewrite !Nat2Z.id.
  destruct (lookup_lt_is_Some_2 vs j) as [row Hrow]; [lia|].
  rewrite Hrow. simpl.
  destruct (lookup_lt_is_Some_2 row i) as [x Hx].
  { specialize (Hrows j row Hrow). lia. }
  by rewrite Hx.
Qed.

(** *** Before the barrier *)

(** What one thread does to the shared array when there are at least two
    vectors. *)
Lemma fill_effect vs bx tx ty (s : list (option dType)) :
  shaped vs -> (1 <= hn)%nat ->
  (bx < gx)%nat -> (tx < X)%nat -> (ty < Y)%nat -> length s = sharedLen ->
  xpny_fill plus X Y M vs (bx, 0%nat) (tx, ty) s =
    Some (if decide (ty < hn)%nat
          then <[((bx * X + tx) * hn + ty)%nat :=
                   Some (partial vs (bx * X + tx) ty)]> s
          else s).
Proof.
  intros Hshape Hh Hb Htx Hty Hs. unfold xpny_fill. simpl.
  destruct (index_x bx tx Hb Htx) as [-> Hi].
  rewrite (index_y ty Hty), yStride_eq.
  set (i := (bx * X + tx)%nat) in *.
  assert (Z.of_nat (length old) = 2 * Z.of_nat hn + Z.b2z odd) as HM by done.
  unfold int_max in *.
  destruct (decide (ty < hn)%nat) as [Hlt|Hge].
  - destruct (decide (Z.of_nat ty < Z.of_nat hn)); [|lia].
    destruct (shared_index_eq i ty Hi Hlt) as (Es & Es0 & Hbound).
    rewrite (vector_at_entry vs ty i) by (done || (destruct odd; simpl in *; lia)).
    simpl. rewrite half_M, (to_size_small (Z.of_nat ty)) by lia.
    rewrite (to_size_small (Z.of_nat ty + Z.of_nat hn)) by (destruct odd; simpl in *; lia).
    replace (Z.of_nat ty + Z.of_nat hn) with (Z.of_nat (ty + hn)) by lia.
    rewrite (vector_at_entry vs (ty + hn) i) by (done || (destruct odd; simpl in *; lia)).
    simpl. rewrite Es, shared_store_in by lia. simpl.
    destruct (decide (Z.land M 1 <> 0 /\ Z.of_nat ty = 0))
      as [[Hodd Hz]|Hno].
    + apply odd_test in Hodd. assert (ty = 0)%nat as -> by lia.
      rewrite Hodd in HM |- *. simpl in HM.
      rewrite (to_size_small (_ - 1)) by (simpl; lia).
      replace (2 * Z.of_nat hn + Z.b2z true - 1) with (Z.of_nat (2 * hn)) by (simpl; lia).
      rewrite (vector_at_entry vs (2 * hn) i) by (done || lia).
      simpl. rewrite Es0, shared_load_in, Nat.add_0_r.
      rewrite list_lookup_insert_eq by lia. simpl.
      rewrite shared_store_in by (rewrite length_insert; lia).
      rewrite list_insert_insert_eq.
      unfold Columns.partial. destruct (decide (0 = 0)%nat); [|done].
      by rewrite Nat.add_0_l.
    + unfold Columns.partial.
      destruct (decide (ty = 0)%nat) as [->|]; [|done].
      pose proof odd_test as Hot. clear HM.
      destruct odd; [|done].
      exfalso. apply Hno. split; [|done]. by apply Hot.
  - destruct (decide (Z.of_nat ty < Z.of_nat hn)); [lia|]. simpl.
    destruct (decide (Z.land M 1 <> 0 /\ Z.of_nat ty = 0))
      as [[_ Hz]|Hno]; [lia|done].
Qed.

Lemma fill_step vs bx tx ty (D : nat * nat -> Prop) (s : list (option dType)) :
  shaped vs -> (1 <= hn)%nat ->
  (bx < gx)%nat -> (tx < X)%nat -> (ty < Y)%nat -> length s = sharedLen ->
  filled vs X bx D s ->
  exists s',
    xpny_fill plus X Y M vs (bx, 0%nat) (tx, ty) s = Some s' /\
    length s' = sharedLen /\
    filled vs X bx (fun t => D t \/ t = (tx, ty)) s'.
Proof.
  intros Hshape Hh Hb Htx Hty Hs Hf.
  rewrite fill_effect by done.
  eexists. split; [done|].
  destruct (decide (ty < hn)%nat) as [Hlt|Hge].
  - split; [by rewrite length_insert|].
    intros tx' ty' [Hd|[= -> ->]] Htx' Hty'.
    + destruct (decide ((bx * X + tx') * hn + ty' = (bx * X + tx) * hn + ty)%nat)
        as [E|Hne].
      * apply shared_slot_inj in E as [E ->]; [|done..].
        assert (tx' = tx) as -> by lia.
        rewrite list_lookup_insert_eq; [done|].
        destruct (index_x bx tx Hb Htx) as [_ Hi]. nia.
      * rewrite list_lookup_insert_ne by done. by apply Hf.
    + rewrite list_lookup_insert_eq; [done|].
      destruct (index_x bx tx Hb Htx) as [_ Hi]. nia.
  - split; [done|].
    intros tx' ty' [Hd|[= -> ->]] Htx' Hty'; [by apply Hf|lia].
Qed.

(** With a single vector a thread touches [s[ 0 ]] at most. *)
Lemma fill_single vs bx tx ty (s : list (option dType)) :
  shaped vs -> hn = 0%nat ->
  (bx < gx)%nat -> (tx < X)%nat -> (ty < Y)%nat -> length s = sharedLen ->
  exists s',
    xpny_fill plus X Y M vs (bx, 0%nat) (tx, ty) s = Some s' /\
    length s' = sharedLen.
Proof.
  intros Hshape Hh Hb Htx Hty Hs. unfold xpny_fill. simpl.
  destruct (index_x bx tx Hb Htx) as [-> Hi].
  rewrite (index_y ty Hty), yStride_eq.
  set (i := (bx * X + tx)%nat) in *.
  assert (Z.of_nat (length old) = 2 * Z.of_nat hn + Z.b2z odd) as HM by done.
  destruct (decide (Z.of_nat ty < Z.of_nat hn)); [lia|]. simpl.
  destruct (decide (Z.land M 1 <> 0 /\ Z.of_nat ty = 0))
    as [[Hodd Hz]|Hno]; [|by exists s].
  apply odd_test in Hodd. rewrite Hodd, Hh in HM |- *. simpl in HM.
  change (2 * Z.of_nat 0 + Z.b2z true - 1) with 0.
  change (to_size 0) with 0.
  pose proof (vector_at_entry vs 0 i Hshape ltac:(lia) Hi) as Hv.
  change (Z.of_nat 0) with 0 in Hv. rewrite Hv. simpl.
  rewrite Z.mul_0_r. change (to_int 0) with (Z.of_nat 0).
  rewrite shared_load_in.
  pose proof (shared_one Hh) as Hone.
  destruct (lookup_lt_is_Some_2 s 0) as [o Ho]; [lia|].
  rewrite Ho. simpl.
  rewrite (shared_store_in s 0) by lia.
  eexists. split; [done|]. by rewrite length_insert.
Qed.

Lemma fill_run vs bx L : forall (D : nat * nat -> Prop) (s : list (option dType)),
  shaped vs -> (bx < gx)%nat ->
  (forall t, t ∈ L -> (t.1 < X)%nat /\ (t.2 < Y)%nat) ->
  length s = sharedLen ->
  (1 <= hn -> filled vs X bx D s)%nat ->
  exists s',
    foldl (fun s t => s ≫= xpny_fill plus X Y M vs (bx, 0%nat) t) (Some s) L = Some s' /\
    length s' = sharedLen /\
    (1 <= hn -> filled vs X bx (fun t => D t \/ t ∈ L) s')%nat.
Proof.
  induction L as [|[tx ty] L IH]; intros D s Hshape Hb Hv Hs Hf.
  - exists s. split; [done|]. split; [done|]. intros Hh.
    apply (filled_weaken plus zero hn odd vs X bx D); [|by apply Hf].
    intros t [?|[]%elem_of_nil]. done.
  - destruct (Hv (tx, ty)) as [Htx Hty]; [left|]. simpl in Htx, Hty.
    cbn [foldl]. simpl.
    destruct (decide (1 <= hn)%nat) as [Hh|Hh].
    + destruct (fill_step vs bx tx ty D s) as (s1 & E1 & Hl1 & Hf1); try done.
      { by apply Hf. }
      rewrite E1.
      destruct (IH (fun t => D t \/ t = (tx, ty)) s1) as (s' & E & Hl & Hf'); try done.
      { intros t Ht. apply Hv. by right. }
      exists s'. split; [done|]. split; [done|]. intros _.
      eapply filled_weaken; [|by apply Hf'].
      intros t [?|[->|?]%elem_of_cons]; auto.
    + destruct (fill_single vs bx tx ty s) as (s1 & E1 & Hl1); try done; [lia|].
      rewrite E1.
      destruct (IH D s1) as (s' & E & Hl & Hf'); try done.
      { intros t Ht. apply Hv. by right. }
      exists s'. split; [done|]. split; [done|]. intros ?. lia.
Qed.

(** *** After the barrier *)

Lemma xpny_loop_total vs bx tx (D : nat * nat -> Prop) (s : list (option dType)) :
  (bx < gx)%nat -> (tx < X)%nat ->
  (1 <= hn -> filled vs X bx D s)%nat ->
  (forall ty, (ty < hn)%nat -> D (tx, ty)) ->
  forall n i acc, (i + n = hn)%nat ->
    xpny_loop plus M s (Z.of_nat (bx * X + tx)) (S n) (Z.of_nat i) (Some acc)
    = Some (Some (foldl plus acc (partial vs (bx * X + tx) <$> seq i n))).
Proof.
  intros Hb Htx Hf HD. unfold int_max in *.
  destruct (index_x bx tx Hb Htx) as [_ Hi].
  assert (forall n i acc,
    xpny_loop plus M s (Z.of_nat (bx * X + tx)) (S n) i acc =
    if decide (to_size i < M / 2) then
      v ← shared_load s (shared_index M (Z.of_nat (bx * X + tx)) i);
      xpny_loop plus M s (Z.of_nat (bx * X + tx)) n (to_int (i + 1)) (vplus plus acc v)
    else Some acc) as Hstep by done.
  assert (0 <= Z.of_nat hn < 2 ^ 31) as Hhn by (destruct odd; simpl in *; lia).
  induction n as [|n IH]; intros i acc Hn; rewrite Hstep, half_M, to_size_small by lia.
  - destruct (decide (Z.of_nat i < Z.of_nat hn)); [lia|done].
  - destruct (decide (Z.of_nat i < Z.of_nat hn)); [|lia].
    destruct (shared_index_eq (bx * X + tx) i Hi ltac:(lia)) as (Es & _ & Hbound).
    rewrite Es, shared_load_in.
    rewrite (Hf ltac:(lia) tx i) by (done || lia || apply HD; lia).
    cbn [mbind option_bind vplus].
    rewrite to_int_small by lia.
    replace (Z.of_nat i + 1) with (Z.of_nat (S i)) by lia.
    rewrite IH by lia. done.
Qed.

Lemma sum_step vs (W : nat -> Prop) (s : list (option dType)) bx tx ty :
  summed W vs -> (bx < gx)%nat -> (tx < X)%nat -> (ty < Y)%nat ->
  xpny_loop plus M s (Z.of_nat (bx * X + tx)) (S (Z.to_nat (M / 2))) 0 (Some zero)
    = Some (Some (column_total old (bx * X + tx))) ->
  exists vs',
    xpny_sum zero plus X Y M s (bx, 0%nat) (tx, ty) vs = Some vs' /\
    summed (fun i => W i \/ (ty = 0%nat /\ i = (bx * X + tx)%nat)) vs'.
Proof.
  intros (Hlen & Hrest & row0 & row0' & H0 & H0' & Hl & Hw & Hnw) Hb Htx Hty Hloop.
  unfold xpny_sum. cbn [fst snd].
  destruct (index_x bx tx Hb Htx) as [-> Hi].
  rewrite (index_y ty Hty).
  set (i := (bx * X + tx)%nat) in *.
  destruct (decide (Z.of_nat ty = 0)) as [Hz|Hnz].
  - rewrite H0'. cbn [mbind option_bind].
    assert (nx <= length row0)%nat as Hr0.
    { apply rows_length. by eapply list_elem_of_lookup_2. }
    destruct (decide (0 <= Z.of_nat i < Z.of_nat (length row0'))); [|lia].
    rewrite Hloop. cbn [mbind option_bind]. rewrite Nat2Z.id.
    eexists. split; [done|].
    split; [by rewrite length_insert|]. split.
    { intros j Hj. rewrite list_lookup_insert_ne by done. by apply Hrest. }
    exists row0, (<[i := column_total old i]> row0').
    split; [done|]. split.
    { apply list_lookup_insert_eq. rewrite Hlen.
      apply lookup_lt_Some in H0. done. }
    split; [by rewrite length_insert|]. split.
    + intros i' [Hi'|[_ ->]].
      * destruct (decide (i' = i)) as [->|Hne].
        -- rewrite list_lookup_insert_eq by lia. done.
        -- rewrite list_lookup_insert_ne by done. by apply Hw.
      * rewrite list_lookup_insert_eq by lia. done.
    + intros i' Hno.
      rewrite list_lookup_insert_ne.
      * apply Hnw. intros ?. apply Hno. by left.
      * intros ->. apply Hno. right. split; [lia|done].
  - exists vs. split; [done|].
    apply (summed_iff plus zero hn odd old W); [|].
    + intros i'. split; [by left|]. intros [?|[? _]]; [done|lia].
    + split; [done|]. split; [done|]. exists row0, row0'. done.
Qed.

Lemma sum_run (s : list (option dType)) bx L : forall (W : nat -> Prop) vs,
  summed W vs -> (bx < gx)%nat ->
  (forall t, t ∈ L -> (t.1 < X)%nat /\ (t.2 < Y)%nat) ->
  (forall tx, (tx < X)%nat ->
     xpny_loop plus M s (Z.of_nat (bx * X + tx)) (S (Z.to_nat (M / 2))) 0 (Some zero)
     = Some (Some (column_total old (bx * X + tx)))) ->
  exists vs',
    foldl (fun v t => v ≫= xpny_sum zero plus X Y M s (bx, 0%nat) t) (Some vs) L
      = Some vs' /\
    summed (fun i => W i \/ exists tx, (tx, 0%nat) ∈ L /\ i = (bx * X + tx)%nat) vs'.
Proof.
  induction L as [|[tx ty] L IH]; intros W vs Hinv Hb Hv Hloop.
  - exists vs. split; [done|].
    apply (summed_iff plus zero hn odd old W); [|done].
    intros i. split; [by left|]. intros [?|(tx & []%elem_of_nil & _)]. done.
  - destruct (Hv (tx, ty)) as [Htx Hty]; [left|]. simpl in Htx, Hty.
    cbn [foldl]. simpl.
    destruct (sum_step vs W s bx tx ty Hinv Hb Htx Hty (Hloop tx Htx))
      as (vs1 & E1 & Hinv1).
    rewrite E1.
    destruct (IH _ vs1 Hinv1 Hb) as (vs' & E & Hinv'); try done.
    { intros t Ht. apply Hv. by right. }
    exists vs'. split; [done|].
    eapply summed_iff; [|exact Hinv'].
    intros i. split.
    + intros [[?|[-> ->]]|(tx' & Hin & ->)].
      * by left.
      * right. exists tx. split; [left|done].
      * right. exists tx'. split; [by right|done].
    + intros [?|(tx' & [[= -> ->]|Hin]%elem_of_cons & ->)].
      * by left; left.
      * left; right. done.
      * right. by exists tx'.
Qed.

(** *** A block, and the launch *)

Lemma summed_shaped (W : nat -> Prop) vs : summed W vs -> shaped vs.
Proof.
  intros (Hlen & Hrest & row0 & row0' & H0 & H0' & Hl & _). split; [done|].
  intros j row Hrow. destruct (decide (j = 0%nat)) as [->|Hj].
  - rewrite H0' in Hrow. injection Hrow as <-. rewrite Hl.
    apply rows_length. by eapply list_elem_of_lookup_2.
  - rewrite Hrest in Hrow by done.
    apply rows_length. by eapply list_elem_of_lookup_2.
Qed.

(** The column of an element that has not been written is as it was. *)
Lemma summed_column (W : nat -> Prop) vs i :
  summed W vs -> ~ W i -> column_total vs i = column_total old i.
Proof.
  intros (Hlen & Hrest & row0 & row0' & H0 & H0' & Hl & _ & Hnw) Hi.
  assert (forall j, entry vs j i = entry old j i) as He.
  { intros j. unfold Columns.entry. destruct (decide (j = 0%nat)) as [->|Hj].
    - rewrite H0, H0'. simpl. by rewrite Hnw.
    - by rewrite Hrest. }
  unfold Columns.column_total. f_equal. apply list_fmap_ext. intros _ k _.
  unfold Columns.partial. by rewrite !He.
Qed.

Lemma block_step (W : nat -> Prop) vs bx before after :
  summed W vs -> (bx < gx)%nat ->
  (forall i, (bx * X <= i < bx * X + X)%nat -> ~ W i) ->
  before ≡ₚ grid_threads X Y -> after ≡ₚ grid_threads X Y ->
  exists vs',
    xpny_block zero plus X Y sharedLen M before after (bx, 0%nat) vs = Some vs' /\
    summed (fun i => W i \/ (bx * X <= i < bx * X + X)%nat) vs'.
Proof.
  intros Hinv Hb Hfresh Hbefore Hafter. unfold xpny_block.
  pose proof (summed_shaped W vs Hinv) as Hshape.
  destruct (fill_run vs bx before (fun _ => False) (replicate sharedLen None))
    as (s & -> & Hls & Hfill); try done.
  { intros [tx ty]. rewrite Hbefore. apply elem_of_grid_threads. }
  { apply length_replicate. }
  { intros _ tx ty []. }
  simpl.
  destruct (sum_run s bx after W vs Hinv Hb) as (vs' & E & Hinv').
  { intros [tx ty]. rewrite Hafter. apply elem_of_grid_threads. }
  { intros tx Htx. rewrite half_M, Nat2Z.id.
    rewrite (xpny_loop_total vs bx tx (fun t => False \/ t ∈ before) s Hb Htx Hfill)
      with (n := hn) (i := 0%nat); [|intros ty Hty|done].
    - do 2 f_equal. apply (summed_column W); [done|]. apply Hfresh. lia.
    - right. rewrite Hbefore. apply elem_of_grid_threads. lia. }
  exists vs'. split; [done|].
  eapply summed_iff; [|exact Hinv'].
  intros i. split.
  - intros [?|(tx & Hin & ->)]; [by left|]. right.
    rewrite Hafter in Hin. apply elem_of_grid_threads in Hin. lia.
  - intros [?|Hr]; [by left|]. right. exists (i - bx * X)%nat. split; [|lia].
    rewrite Hafter. apply elem_of_grid_threads. lia.
Qed.

Lemma blocks_run before after blocks : forall (W : nat -> Prop) vs,
  summed W vs ->
  (forall b, b ∈ blocks -> (b.1 < gx)%nat /\ b.2 = 0%nat) ->
  NoDup blocks ->
  (forall b i, b ∈ blocks -> (b.1 * X <= i < b.1 * X + X)%nat -> ~ W i) ->
  (forall b, before b ≡ₚ grid_threads X Y) ->
  (forall b, after b ≡ₚ grid_threads X Y) ->
  exists vs',
    xpny zero plus X Y sharedLen M blocks before after vs = Some vs' /\
    summed (fun i => W i \/ exists b, b ∈ blocks /\ (b.1 * X <= i < b.1 * X + X)%nat) vs'.
Proof.
  unfold xpny.
  induction blocks as [|[bx by0] blocks IH]; intros W vs Hinv Hv Hnd Hfresh Hbe Haf.
  - exists vs. split; [done|].
    apply (summed_iff plus zero hn odd old W); [|done].
    intros i. split; [by left|]. intros [?|(b & []%elem_of_nil & _)]. done.
  - destruct (Hv (bx, by0)) as [Hb Hz]; [left|]. simpl in Hb, Hz. subst by0.
    apply NoDup_cons in Hnd as [Hnew Hnd].
    cbn [foldl]. simpl.
    destruct (block_step W vs bx (before (bx, 0%nat)) (after (bx, 0%nat)) Hinv Hb)
      as (vs1 & E1 & Hinv1); try done.
    { intros i Hi. apply (Hfresh (bx, 0%nat)); [left|done]. }
    rewrite E1.
    destruct (IH _ vs1 Hinv1) as (vs' & E & Hinv'); try done.
    { intros b Hin. apply Hv. by right. }
    { intros [bx' by'] i Hin Hr [HW|Hr'].
      - by apply (Hfresh (bx', by') i); [right|..].
      - destruct (Hv (bx', by')) as [_ Hz']; [by right|]. simpl in *. subst by'.
        assert (bx' = bx) as -> by nia. done. }
    exists vs'. split; [done|].
    eapply summed_iff; [|exact Hinv'].
    intros i. split.
    + intros [[?|Hr]|(b & Hin & Hr)].
      * by left.
      * right. exists (bx, 0%nat). split; [left|done].
      * right. exists b. split; [by right|done].
    + intros [?|(b & [->|Hin]%elem_of_cons & Hr)].
      * by left; left.
      * left; right. done.
      * right. by exists b.
Qed.

(** What a launch with one row of blocks leaves: the first vector holds the
    column totals at the indices of the launch, everything else is as it
    was. *)
Lemma xpny_effect blocks before after :
  blocks ≡ₚ (fun bx => (bx, 0%nat)) <$> seq 0 gx ->
  (forall b, before b ≡ₚ grid_threads X Y) ->
  (forall b, after b ≡ₚ grid_threads X Y) ->
  exists row0 sums,
    old !! 0%nat = Some row0 /\
    xpny zero plus X Y sharedLen M blocks before after old
      = Some (<[0%nat := sums]> old) /\
    length sums = length row0 /\
    forall i, sums !! i =
      if decide (i < nx)%nat then Some (column_total old i) else row0 !! i.
Proof.
  intros Hperm Hbe Haf.
  destruct (lookup_lt_is_Some_2 old 0) as [row0 H0]; [lia|].
  assert (summed (fun _ => False) old) as Hinv0.
  { split; [done|]. split; [done|]. exists row0, row0. done. }
  destruct (blocks_run before after blocks (fun _ => False) old Hinv0)
    as (vs' & E & Hlen & Hrest & r0 & sums & H0r & H0' & Hl & Hw & Hnw); try done.
  { intros [bx by0]. rewrite Hperm. intros (b & [= -> ->] & [_ ?]%elem_of_seq)%list_elem_of_fmap.
    done. }
  { rewrite Hperm. apply NoDup_fmap_2; [|apply NoDup_seq]. by intros b1 b2 [= ->]. }
  { intros b i _ _ []. }
  rewrite H0 in H0r. injection H0r as <-.
  exists row0, sums. split; [done|]. split.
  { rewrite E. f_equal. apply list_eq. intros j.
    destruct (decide (j = 0%nat)) as [->|Hj].
    - rewrite list_lookup_insert_eq; [done|]. by apply lookup_lt_Some in H0.
    - rewrite list_lookup_insert_ne by done. by apply Hrest. }
  split; [done|]. intros i.
  destruct (decide (i < nx)%nat) as [Hi|Hi].
  - apply Hw. right.
    pose proof (Nat.div_mod_eq i X) as Ed.
    pose proof (Nat.mod_upper_bound i X ltac:(lia)) as Hm.
    exists ((i `div` X)%nat, 0%nat). split; [|simpl; lia].
    rewrite Hperm. apply list_elem_of_fmap. exists (i `div` X)%nat. split; [done|].
    apply elem_of_seq. split; [lia|]. simpl.
    apply Nat.Div0.div_lt_upper_bound. lia.
  - apply Hnw. intros [[]|([bx by0] & Hin & Hr)].
    rewrite Hperm in Hin.
    apply list_elem_of_fmap in Hin as (b & [= -> ->] & [_ ?]%elem_of_seq).
    simpl in *. nia.
Qed.

End Launch.

(** *** The column totals as sums *)
Section Monoid.
Context {dType : Type}.
Variable zero : dType.
Variable plus : dType -> dType -> dType.
Hypothesis plus_assoc : forall a b c, plus a (plus b c) = plus (plus a b) c.
Hypothesis plus_comm : forall a b, plus a b = plus b a.
Hypothesis plus_zero : forall a, plus zero a = a.

Local Abbreviation Sum := (Sum zero plus).
Local Abbreviation column := (column zero).

Lemma foldl_plus_Sum l : forall acc, foldl plus acc l = plus acc (Sum l).
Proof.
  induction l as [|x l IH]; intros acc; simpl.
  - by rewrite plus_comm, plus_zero.
  - by rewrite IH, plus_assoc.
Qed.

Lemma Sum_pairs {A : Type} (a b : A -> dType) (l : list A) :
  Sum ((fun k => plus (a k) (b k)) <$> l) = plus (Sum (a <$> l)) (Sum (b <$> l)).
Proof.
  induction l as [|x l IH]; simpl.
  - by rewrite plus_zero.
  - change (plus (plus (a x) (b x)) (Sum ((fun k => plus (a k) (b k)) <$> l))
            = plus (plus (a x) (Sum (a <$> l))) (plus (b x) (Sum (b <$> l)))).
    rewrite IH, !plus_assoc. f_equal.
    rewrite <- !plus_assoc. f_equal. apply plus_comm.
Qed.

Lemma column_entries (vectors : list (list dType)) i :
  (fun j => entry zero vectors j i) <$> seq 0 (length vectors) = column vectors i.
Proof.
  unfold Columns.column, entry. apply list_eq. intros j.
  rewrite !list_lookup_fmap.
  destruct (decide (j < length vectors)%nat) as [Hj|Hj].
  - rewrite lookup_seq_lt by done. simpl.
    destruct (lookup_lt_is_Some_2 vectors j Hj) as [row ->]. done.
  - rewrite lookup_seq_ge by lia. simpl.
    rewrite (proj2 (lookup_ge_None vectors j)) by lia. done.
Qed.

(** With at least two vectors the total of a column is the sum of its
    elements. *)
Lemma column_total_Sum (hn : nat) (odd : bool) (vectors : list (list dType)) i :
  (1 <= hn)%nat -> length vectors = (2 * hn + (if odd then 1 else 0))%nat ->
  column_total zero plus hn odd vectors i = Sum (column vectors i).
Proof.
  intros Hh Hlen. unfold column_total.
  rewrite foldl_plus_Sum, plus_zero.
  rewrite <- column_entries, Hlen.
  set (e := fun j => entry zero vectors j i).
  assert (Sum (partial zero plus hn odd vectors i <$> seq 0 hn)
          = plus (Sum ((fun k => plus (e k) (e (k + hn)%nat)) <$> seq 0 hn))
                 (if odd then e (2 * hn)%nat else zero)) as ->.
  { destruct hn as [|h']; [lia|].
    rewrite <- cons_seq, !fmap_cons, !(Sum_cons zero plus).
    assert (partial zero plus (S h') odd vectors i <$> seq 1 h'
            = (fun k => plus (e k) (e (k + S h')%nat)) <$> seq 1 h') as ->.
    { apply list_fmap_ext. intros j k [-> _]%lookup_seq. unfold partial.
      destruct (decide (1 + _ = 0)%nat); [lia|done]. }
    unfold partial at 1. destruct (decide (0 = 0)%nat); [|done].
    fold (e 0%nat) (e (0 + S h')%nat) (e (2 * S h')%nat).
    destruct odd.
    - rewrite <- !plus_assoc. f_equal. f_equal. apply plus_comm.
    - by rewrite (plus_comm _ zero), plus_zero. }
  rewrite Sum_pairs.
  replace (2 * hn + (if odd then 1 else 0))%nat
    with (hn + (hn + (if odd then 1 else 0)))%nat by lia.
  rewrite !seq_app, !fmap_app, !(Sum_app zero plus) by done.
  rewrite <- !plus_assoc. f_equal. f_equal.
  - replace (0 + hn)%nat with (hn + 0)%nat by lia.
    rewrite <- (fmap_add_seq hn 0), <- list_fmap_compose.
    f_equal. apply list_fmap_ext. intros j k _. simpl. f_equal. lia.
  - destruct odd; simpl.
    + rewrite (plus_comm _ zero), plus_zero. f_equal. lia.
    + done.
Qed.

End Monoid.
End XpnyFacts.

(** ** Properties *)
Module KernelProperties.
Import Kernels Footprint Columns SumFacts WarpFacts BlockFacts GridFacts.
Import ElementwiseFacts MachineFacts PartialWarpFacts BlockMoreFacts.
Import Grid4Facts XpnyFacts.

(** X12: the warp reductions need a full warp.  In a warp of fewer than 32
    running lanes the value lane 0 returns from [warpReduce], and the value
    every lane returns from [warpReduceAll], has a value shuffled from a
    lane that does not run added into it: it is undefined. *)
Theorem warp_reductions_need_a_full_warp {dType : Type} (zero : dType)
    (plus : dType -> dType -> dType) (vals : list dType) :
  (length vals < warpSize)%nat ->
  lane_value (warpReduce plus (Some <$> vals)) 0 = None /\
  forall lane, lane_value (warpReduceAll plus (Some <$> vals)) lane = None.
Proof. apply partial_warp_undefined, zero. Qed.

Lemma warp_reductions_need_a_full_warp_witness :
  lane_value (warpReduce Z.add (Some <$> replicate 31 1)) 0 = None /\
  forall lane, lane_value (warpReduceAll Z.add (Some <$> replicate 31 1)) lane = None.
Proof.
  apply (warp_reductions_need_a_full_warp 0 Z.add (replicate 31 1)).
  unfold warpSize. rewrite length_replicate. lia.
Defined.

(** X13: [blockReduce] in a block of [k] full warps followed by [r < 32]
    more threads (at most 1024 in all), with an addition that is
    associative and commutative and has [zero] as its unit: thread 0 returns
    the sum of the arguments of the threads of the [k] full warps only (what
    the last [r] threads hold is left out), and every thread outside the
    first warp returns [zero]. *)
Theorem blockReduce_leaves_out_trailing_threads {dType : Type} (zero : dType)
    (plus : dType -> dType -> dType) (k r : nat) (vals : list dType) :
  (forall a b c, plus a (plus b c) = plus (plus a b) c) ->
  (forall a b, plus a b = plus b a) ->
  (forall a, plus zero a = a) ->
  (1 <= k)%nat -> (r < warpSize)%nat -> (k * warpSize + r <= 1024)%nat ->
  length vals = (k * warpSize + r)%nat ->
  lane_value (blockReduce zero plus (k * warpSize + r) (Some <$> vals)) 0
  = Some (Sum zero plus (take (k * warpSize) vals)) /\
  forall t, (warpSize <= t < k * warpSize + r)%nat ->
    lane_value (blockReduce zero plus (k * warpSize + r) (Some <$> vals)) t
    = Some zero.
Proof.
  intros Ha Hc Hz Hk Hr Hmax Hlen.
  by apply (blockReduce_leading_warps zero plus Ha Hc Hz).
Qed.

Lemma blockReduce_leaves_out_trailing_threads_witness :
  lane_value (blockReduce 0 Z.add (1 * warpSize + 16) (Some <$> replicate 48 1)) 0
  = Some (Sum 0 Z.add (take (1 * warpSize) (replicate 48 1))) /\
  forall t, (warpSize <= t < 1 * warpSize + 16)%nat ->
    lane_value (blockReduce 0 Z.add (1 * warpSize + 16) (Some <$> replicate 48 1)) t
    = Some 0.
Proof.
  apply (blockReduce_leaves_out_trailing_threads 0 Z.add 1 16 (replicate 48 1)).
  - intros. lia.
  - intros. lia.
  - intros. lia.
  - lia.
  - unfold warpSize. lia.
  - unfold warpSize. lia.
  - reflexivity.
Defined.

(** X14: [blockReduceAll] in a block of [k] full warps ([1 <= k <= 32]),
    with an addition that is associative and commutative and has [zero] as
    its unit: every thread of the block returns the sum of the arguments of
    all threads of the block. *)
Theorem blockReduceAll_gives_every_thread_the_sum {dType : Type} (zero : dType)
    (plus : dType -> dType -> dType) (k : nat) (vals : list dType) (t : nat) :
  (forall a b c, plus a (plus b c) = plus (plus a b) c) ->
  (forall a b, plus a b = plus b a) ->
  (forall a, plus zero a = a) ->
  (1 <= k <= 32)%nat -> length vals = (k * warpSize)%nat ->
  (t < k * warpSize)%nat ->
  lane_value (blockReduceAll zero plus (k * warpSize) (Some <$> vals)) t
  = Some (Sum zero plus vals).
Proof.
  intros Ha Hc Hz Hk Hlen Ht.
  by apply (blockReduceAll_full zero plus Ha Hc Hz).
Qed.

Lemma blockReduceAll_gives_every_thread_the_sum_witness :
  lane_value (blockReduceAll 0 Z.add (2 * warpSize)
                (Some <$> (Z.of_nat <$> seq 0 64))) 45
  = Some (Sum 0 Z.add (Z.of_nat <$> seq 0 64)).
Proof.
  apply (blockReduceAll_gives_every_thread_the_sum 0 Z.add 2 (Z.of_nat <$> seq 0 64) 45).
  - intros. lia.
  - intros. lia.
  - intros. lia.
  - lia.
  - reflexivity.
  - unfold warpSize. lia.
Defined.

(** X15: the accumulation of [blockReduceAtomicVectorized] before the block
    reduction, for every launch with at least one thread (whole warps or
    not): every thread leaves its loop with a defined sum, having read inside
    [in] only, and the sums of all threads of the grid add up to the sum of
    the first [N] elements: the two-wide loads and the tail read every
    element once. *)
Theorem thread_sums_cover_the_input {dType : Type} (zero : dType)
    (plus : dType -> dType -> dType) (blockDim gridDim : nat)
    (input : list dType) (N : Z) :
  (forall a b c, plus a (plus b c) = plus (plus a b) c) ->
  (forall a b, plus a b = plus b a) ->
  (forall a, plus zero a = a) ->
  (0 < blockDim)%nat -> (0 < gridDim)%nat ->
  0 <= N <= Z.of_nat (length input) ->
  N + Z.of_nat blockDim * Z.of_nat gridDim <= int_max ->
  exists s : nat -> nat -> dType,
    (forall b t, (b < gridDim)%nat -> (t < blockDim)%nat ->
       thread_sum zero plus blockDim gridDim input N b t = Some (s b t)) /\
    Sum zero plus (b ← seq 0 gridDim; t ← seq 0 blockDim; [s b t])
    = Sum zero plus (take (Z.to_nat N) input).
Proof.
  intros Ha Hc Hz Hbd Hgd Hlen Hfit.
  assert (0 < Z.of_nat blockDim * Z.of_nat gridDim) as Hlaunch by nia.
  set (rd := fun p : Z => default zero (input !! Z.to_nat p)).
  exists (fun b t => Sum zero plus
            (rd <$> thread_positions N (Z.of_nat blockDim * Z.of_nat gridDim)
                      (Z.of_nat b * Z.of_nat blockDim + Z.of_nat t))).
  split.
  - intros b t Hb Ht.
    by apply (thread_sum_positions zero plus Ha Hc Hz blockDim gridDim input N).
  - trans (Sum zero plus (rd <$> grid_positions blockDim gridDim N (seq 0 gridDim))).
    { unfold grid_positions.
      rewrite fmap_bind_list, !(Sum_bind zero plus) by done.
      f_equal. apply list_fmap_ext. intros _ b _.
      rewrite fmap_bind_list, !(Sum_bind zero plus) by done.
      f_equal. apply list_fmap_ext. intros _ t _.
      by rewrite (Sum_singleton zero plus). }
    trans (Sum zero plus (rd <$> seqZ 0 N)).
    { apply (Sum_perm zero plus); [done..|].
      apply fmap_Permutation, grid_positions_perm; try done; lia. }
    unfold rd. by rewrite seqZ_lookup_all.
Qed.

Lemma thread_sums_cover_the_input_witness :
  exists s : nat -> nat -> Z,
    (forall b t, (b < 2)%nat -> (t < 3)%nat ->
       thread_sum 0 Z.add 3 2 (replicate 1000 1) 1000 b t = Some (s b t)) /\
    Sum 0 Z.add (b ← seq 0 2; t ← seq 0 3; [s b t])
    = Sum 0 Z.add (take (Z.to_nat 1000) (replicate 1000 1)).
Proof.
  apply (thread_sums_cover_the_input 0 Z.add 3 2 (replicate 1000 1) 1000).
  - intros. lia.
  - intros. lia.
  - intros. lia.
  - lia.
  - lia.
  - rewrite length_replicate. lia.
  - unfold int_max. lia.
Defined.

(** X16: [blockReduceAtomicVectorizedAll] launched with blocks of [k] full
    warps ([1 <= k <= 32]) on an input of at least [N] elements, [out]
    having an element with the index [(blockDim - 1) * blockDim], with an
    addition that is associative and commutative and has [zero] as its
    unit: whatever the order of the atomic additions, the kernel adds the sum
    of [f(in[i])], [i < N], to each of the elements
    [out[ t * blockDim ]], [t < blockDim] (the threads with
    [threadIdx.x = t] of all blocks add their block's sum there), and leaves
    every other element of [out] as it was. *)
Theorem blockReduceAtomicVectorizedAll_adds_the_sum {dType : Type} (zero : dType)
    (plus : dType -> dType -> dType) (f : dType -> dType) (k gridDim : nat)
    (input : list dType) (N : Z) (schedule : list (nat * nat))
    (out : list dType) :
  (forall a b c, plus a (plus b c) = plus (plus a b) c) ->
  (forall a b, plus a b = plus b a) ->
  (forall a, plus zero a = a) ->
  (1 <= k <= 32)%nat -> (0 < gridDim)%nat ->
  0 <= N <= Z.of_nat (length input) ->
  N + Z.of_nat (k * warpSize) * Z.of_nat gridDim <= int_max ->
  ((k * warpSize - 1) * (k * warpSize) < length out)%nat ->
  schedule ≡ₚ grid_threads gridDim (k * warpSize) ->
  exists out',
    blockReduceAtomicVectorizedAll zero plus f (k * warpSize) gridDim input N
      schedule out = Some out' /\
    length out' = length out /\
    (forall t o, (t < k * warpSize)%nat ->
       out !! (t * (k * warpSize))%nat = Some o ->
       out' !! (t * (k * warpSize))%nat
       = Some (plus o (Sum zero plus (f <$> take (Z.to_nat N) input)))) /\
    (forall p, ~ (p `mod` (k * warpSize) = 0 /\
                  p `div` (k * warpSize) < k * warpSize)%nat ->
       out' !! p = out !! p).
Proof.
  intros Ha Hc Hz Hk Hg Hlen Hfit Hout Hperm.
  assert (0 < Z.of_nat (k * warpSize) * Z.of_nat gridDim) as Hlaunch
    by (unfold warpSize; nia).
  destruct (reduce_all_effect zero plus Ha Hc Hz f (k * warpSize) gridDim input N
              Hlaunch Hlen Hfit k schedule out eq_refl Hk Hperm Hout)
    as (out' & E & Hl & Hp).
  exists out'. split; [done|]. split; [done|]. split.
  - intros t o Ht Ho. rewrite Hp, Ho.
    destruct (decide _) as [|Hno]; [done|].
    exfalso. apply Hno.
    rewrite Nat.Div0.mod_mul, Nat.div_mul by (unfold warpSize; lia). done.
  - intros p Hno. rewrite Hp. by destruct (decide _).
Qed.

Lemma blockReduceAtomicVectorizedAll_adds_the_sum_witness :
  exists out',
    blockReduceAtomicVectorizedAll 0 Z.add (Z.mul 2) (1 * warpSize) 2
      (replicate 1000 1) 1000 (reverse (grid_threads 2 (1 * warpSize)))
      (replicate 1000 0) = Some out' /\
    length out' = length (replicate 1000 0) /\
    (forall t o, (t < 1 * warpSize)%nat ->
       replicate 1000 0 !! (t * (1 * warpSize))%nat = Some o ->
       out' !! (t * (1 * warpSize))%nat
       = Some (Z.add o (Sum 0 Z.add (Z.mul 2 <$> take (Z.to_nat 1000) (replicate 1000 1))))) /\
    (forall p, ~ (p `mod` (1 * warpSize) = 0 /\
                  p `div` (1 * warpSize) < 1 * warpSize)%nat ->
       out' !! p = replicate 1000 0 !! p).
Proof.
  apply (blockReduceAtomicVectorizedAll_adds_the_sum 0 Z.add (Z.mul 2) 1 2
           (replicate 1000 1) 1000 (reverse (grid_threads 2 (1 * warpSize)))
           (replicate 1000 0)).
  - intros. lia.
  - intros. lia.
  - intros. lia.
  - lia.
  - lia.
  - rewrite length_replicate. lia.
  - unfold int_max, warpSize. lia.
  - rewrite length_replicate. unfold warpSize. lia.
  - apply reverse_Permutation.
Defined.

(** X17: what [blockScatter] leaves in general, and that running it again
    changes nothing.  Launched with [gridDim] blocks of [blockDim] threads
    on a buffer with an element for every thread, whatever the order of the
    blocks: an element below [N] that belongs to a block of the launch
    receives the first element of its own block when the block index is
    below [blockDim], and element 0 of the buffer when it is not; all other
    elements are unchanged; a second launch leaves the buffer as the first
    one left it. *)
Theorem blockScatter_effect_and_idempotence {dType : Type} (blockDim gridDim : nat)
    (N : Z) (data : list dType) (schedule again : list nat) :
  (0 < blockDim)%nat ->
  Z.of_nat blockDim * Z.of_nat gridDim <= int_max ->
  (blockDim * gridDim <= length data)%nat ->
  N <= Z.of_nat (length data) ->
  schedule ≡ₚ seq 0 gridDim -> again ≡ₚ seq 0 gridDim ->
  exists data',
    blockScatter blockDim N schedule data = Some data' /\
    length data' = length data /\
    (forall i : nat,
       data' !! i =
       if decide (Z.of_nat i < N /\ (i < blockDim * gridDim)%nat)
       then data !! (if decide (i `div` blockDim < blockDim)%nat
                     then (i `div` blockDim * blockDim)%nat else 0%nat)
       else data !! i) /\
    blockScatter blockDim N again data' = Some data'.
Proof.
  intros Hbd Hfit Hcover Hcount Hperm Hagain.
  destruct (blockScatter_effect blockDim gridDim N data Hfit Hcover Hcount
              schedule Hbd Hperm) as (data' & E & Hl & Hp).
  exists data'. split; [done|]. split; [done|]. split; [exact Hp|].
  destruct (blockScatter_effect blockDim gridDim N data') with (schedule := again)
    as (data'' & E2 & Hl2 & Hp2); try done; try lia.
  rewrite E2. f_equal. apply list_eq. intros i. rewrite Hp2.
  destruct (decide (Z.of_nat i < N /\ (i < blockDim * gridDim)%nat)) as [[HN Hi]|Hno];
    [|done].
  rewrite (Hp i). destruct (decide _) as [_|Hno]; [|by destruct Hno].
  set (src := scatter_source blockDim (i `div` blockDim)).
  rewrite (Hp src).
  destruct (decide _) as [_|_]; [|done].
  f_equal. unfold src, scatter_source.
  destruct (decide (i `div` blockDim < blockDim)%nat).
  - rewrite Nat.div_mul by lia. by destruct (decide _).
  - rewrite Nat.Div0.div_0_l. by destruct (decide (0 < blockDim)%nat).
Qed.

Lemma blockScatter_effect_and_idempotence_witness :
  exists data',
    blockScatter 2 8 [3; 1; 0; 2]%nat [10; 11; 12; 13; 14; 15; 16; 17] = Some data' /\
    length data' = length [10; 11; 12; 13; 14; 15; 16; 17] /\
    (forall i : nat,
       data' !! i =
       if decide (Z.of_nat i < 8 /\ (i < 2 * 4)%nat)
       then [10; 11; 12; 13; 14; 15; 16; 17]
              !! (if decide (i `div` 2 < 2)%nat then (i `div` 2 * 2)%nat else 0%nat)
       else [10; 11; 12; 13; 14; 15; 16; 17] !! i) /\
    blockScatter 2 8 [0; 1; 2; 3]%nat data' = Some data'.
Proof.
  apply (blockScatter_effect_and_idempotence 2 4 8 [10; 11; 12; 13; 14; 15; 16; 17]
           [3; 1; 0; 2]%nat [0; 1; 2; 3]%nat).
  - lia.
  - unfold int_max. lia.
  - simpl. lia.
  - simpl. lia.
  - apply permutations_Permutation. vm_compute.
    repeat (first [apply list_elem_of_here | apply list_elem_of_further]).
  - reflexivity.
Defined.

(** X18: the three kernels in the order the comment of [softmaxKernel]
    asks for.  With the same launch of blocks of [k] full warps for all
    three, a thread for each of the [N] elements, an addition that is
    associative and commutative with unit [zero], and [out] holding [zero]
    at every index [t * blockDim], [t < blockDim], and an element for every
    thread: after [blockReduceAtomicVectorizedAll( in, out, N, f )],
    [blockScatter( out, N )] and [softmaxKernel( in, out, N, f )], in
    whatever order the threads and blocks of each launch take effect,
    [out[ i ]] is [f(in[ i ])] divided by the sum of all [f(in[ j ])],
    [j < N], for every [i < N]. *)
Theorem softmax_of_the_three_kernels {dType : Type} (zero : dType)
    (plus : dType -> dType -> dType) (div : dType -> dType -> dType)
    (f : dType -> dType) (k gridDim : nat) (input out : list dType) (N : Z)
    (adds : list (nat * nat)) (scatters : list nat) (divides : list (nat * nat)) :
  (forall a b c, plus a (plus b c) = plus (plus a b) c) ->
  (forall a b, plus a b = plus b a) ->
  (forall a, plus zero a = a) ->
  (1 <= k <= 32)%nat -> (0 < gridDim)%nat ->
  0 <= N <= Z.of_nat (length input) ->
  N <= Z.of_nat (k * warpSize) * Z.of_nat gridDim ->
  N + Z.of_nat (k * warpSize) * Z.of_nat gridDim <= int_max ->
  (k * warpSize * gridDim <= length out)%nat ->
  (forall t, (t < k * warpSize)%nat -> out !! (t * (k * warpSize))%nat = Some zero) ->
  adds ≡ₚ grid_threads gridDim (k * warpSize) ->
  scatters ≡ₚ seq 0 gridDim ->
  divides ≡ₚ grid_threads gridDim (k * warpSize) ->
  exists out1 out2 out3,
    blockReduceAtomicVectorizedAll zero plus f (k * warpSize) gridDim input N
      adds out = Some out1 /\
    blockScatter (k * warpSize) N scatters out1 = Some out2 /\
    softmaxKernel f div (k * warpSize) input N divides out2 = Some out3 /\
    forall i x, Z.of_nat i < N -> input !! i = Some x ->
      out3 !! i
      = Some (div (f x) (Sum zero plus (f <$> take (Z.to_nat N) input))).
Proof.
  intros Ha Hc Hz Hk Hg Hlen Hthreads Hfit Hcover Hzero Hadds Hscatters Hdivides.
  set (bd := (k * warpSize)%nat) in *.
  set (total := Sum zero plus (f <$> take (Z.to_nat N) input)).
  assert (0 < bd)%nat as Hbd by (unfold bd, warpSize; lia).
  assert (0 < Z.of_nat bd * Z.of_nat gridDim) as Hlaunch by nia.
  assert ((bd - 1) * bd < length out)%nat as Hout.
  { eapply lookup_lt_Some, Hzero. lia. }
  unfold int_max in Hfit.
  destruct (reduce_all_effect zero plus Ha Hc Hz f bd gridDim input N
              Hlaunch Hlen Hfit k adds out eq_refl Hk Hadds Hout)
    as (out1 & E1 & Hl1 & Hp1).
  assert (forall b, out1 !! scatter_source bd b = Some total) as Hsrc.
  { intros b. rewrite Hp1. unfold scatter_source.
    destruct (decide (b < bd)%nat) as [Hb|Hb].
    - rewrite Nat.Div0.mod_mul, Nat.div_mul by lia.
      destruct (decide _) as [_|Hno]; [|by destruct Hno].
      rewrite Hzero by done. simpl. by rewrite Hz.
    - rewrite Nat.Div0.mod_0_l, Nat.Div0.div_0_l.
      destruct (decide _) as [_|Hno]; [|by destruct Hno].
      pose proof (Hzero 0%nat Hbd) as H00. rewrite Nat.mul_0_l in H00.
      rewrite H00. simpl. by rewrite Hz. }
  destruct (blockScatter_effect bd gridDim N out1) with (schedule := scatters)
    as (out2 & E2 & Hl2 & Hp2); try done; try (unfold int_max; lia).
  destruct (softmax_launch f div bd gridDim input N) with (schedule := divides)
      (out := out2) as (out3 & E3 & Hl3 & Hp3); try done; try (unfold int_max; lia).
  exists out1, out2, out3. repeat (split; [done|]).
  intros i x Hi Hx. rewrite Hp3.
  destruct (decide _) as [_|Hno]; [|exfalso; apply Hno; lia].
  rewrite Hx. simpl. rewrite Hp2.
  destruct (decide _) as [_|Hno]; [|exfalso; apply Hno; lia].
  rewrite Hsrc. done.
Qed.

Lemma softmax_of_the_three_kernels_witness :
  exists out1 out2 out3,
    blockReduceAtomicVectorizedAll 0 Z.add (Z.mul 3) (1 * warpSize) 1 [1; 2; 3; 4; 5] 5
      (reverse (grid_threads 1 (1 * warpSize))) (replicate 1000 0) = Some out1 /\
    blockScatter (1 * warpSize) 5 [0%nat] out1 = Some out2 /\
    softmaxKernel (Z.mul 3) Z.div (1 * warpSize) [1; 2; 3; 4; 5] 5
      (grid_threads 1 (1 * warpSize)) out2 = Some out3 /\
    forall i x, Z.of_nat i < 5 -> [1; 2; 3; 4; 5] !! i = Some x ->
      out3 !! i
      = Some (Z.div (Z.mul 3 x)
                (Sum 0 Z.add (Z.mul 3 <$> take (Z.to_nat 5) [1; 2; 3; 4; 5]))).
Proof.
  apply (softmax_of_the_three_kernels 0 Z.add Z.div (Z.mul 3) 1 1 [1; 2; 3; 4; 5]
           (replicate 1000 0) 5 (reverse (grid_threads 1 (1 * warpSize))) [0%nat]
           (grid_threads 1 (1 * warpSize))).
  - intros. lia.
  - intros. lia.
  - intros. lia.
  - lia.
  - lia.
  - simpl. lia.
  - unfold warpSize. lia.
  - unfold int_max, warpSize. lia.
  - rewrite length_replicate. unfold warpSize. lia.
  - intros t Ht. apply lookup_replicate. split; [done|]. unfold warpSize in *. lia.
  - apply reverse_Permutation.
  - reflexivity.
  - reflexivity.
Defined.

(** X19: [xpny] with at least two vectors, launched with one row of blocks
    ([gridDim.y = 1]) whose threads in y cover half the number of vectors,
    a shared array with a slot for every thread in x and every such half,
    vectors that have an element for every thread in x, and index
    arithmetic within [int]: whatever the order of the blocks and of the
    threads on either side of the barrier, the kernel replaces
    [vectors[0][i]], for every index [i] of a thread in x, by the sum of
    the elements [i] of all [M] vectors (for an addition that is associative
    and commutative with unit [zero]), and changes nothing else. *)
Theorem xpny_sums_the_vectors {dType : Type} (zero : dType)
    (plus : dType -> dType -> dType) (X Y gx sharedLen : nat) (M : Z)
    (vectors : list (list dType)) (blocks : list (nat * nat))
    (before after : nat * nat -> list (nat * nat)) :
  (forall a b c, plus a (plus b c) = plus (plus a b) c) ->
  (forall a b, plus a b = plus b a) ->
  (forall a, plus zero a = a) ->
  2 <= M <= int_max ->
  (0 < X)%nat -> M / 2 <= Z.of_nat Y <= int_max ->
  Z.of_nat X * Z.of_nat gx * (M / 2) <= int_max ->
  Z.of_nat X * Z.of_nat gx * (M / 2) <= Z.of_nat sharedLen ->
  Z.of_nat (length vectors) = M ->
  (forall row, row ∈ vectors -> (X * gx <= length row)%nat) ->
  blocks ≡ₚ (fun bx => (bx, 0%nat)) <$> seq 0 gx ->
  (forall b, before b ≡ₚ grid_threads X Y) ->
  (forall b, after b ≡ₚ grid_threads X Y) ->
  exists row0 sums,
    vectors !! 0%nat = Some row0 /\
    xpny zero plus X Y sharedLen M blocks before after vectors
      = Some (<[0%nat := sums]> vectors) /\
    length sums = length row0 /\
    forall i, sums !! i =
      if decide (i < X * gx)%nat
      then Some (Sum zero plus (column zero vectors i)) else row0 !! i.
Proof.
  intros Ha Hc Hz HM HX HY Hfit Hshared Hlen Hrows Hblocks Hbefore Hafter.
  unfold int_max in *.
  pose proof (Z.div_mod M 2 ltac:(lia)) as Ediv.
  pose proof (Z.mod_pos_bound M 2 ltac:(lia)) as Bmod.
  set (hn := Z.to_nat (M / 2)).
  set (odd := negb (M mod 2 =? 0)).
  assert (0 <= M / 2) as Hh0 by (apply Z.div_pos; lia).
  assert (M = 2 * Z.of_nat hn + Z.b2z odd) as EM.
  { unfold hn, odd. rewrite Z2Nat.id by done.
    destruct (M mod 2 =? 0) eqn:Eo; simpl; lia. }
  assert (1 <= hn)%nat as Hhn by (unfold hn; lia).
  assert (Z.of_nat hn = M / 2) as Ehn by (unfold hn; lia).
  assert (Z.of_nat X * Z.of_nat gx <= 2 ^ 31 - 1) as Hfx by nia.
  rewrite EM.
  destruct (xpny_effect zero plus X Y gx sharedLen hn odd vectors)
    with (blocks := blocks) (before := before) (after := after)
    as (row0 & sums & H0 & E & Hl & Hs);
    try done; try (unfold int_max; lia || nia).
  exists row0, sums. split; [done|]. split; [done|]. split; [done|].
  intros i. rewrite Hs. destruct (decide (i < X * gx)%nat); [|done].
  f_equal. apply (column_total_Sum zero plus Ha Hc Hz); [done|].
  destruct odd; simpl in EM; lia.
Qed.

Lemma xpny_sums_the_vectors_witness :
  exists row0 sums,
    [[1; 2]; [10; 20]; [100; 200]] !! 0%nat = Some row0 /\
    xpny 0 Z.add 2 1 2 3 [(0, 0)]%nat
      (fun _ => reverse (grid_threads 2 1)) (fun _ => grid_threads 2 1)
      [[1; 2]; [10; 20]; [100; 200]]
      = Some (<[0%nat := sums]> [[1; 2]; [10; 20]; [100; 200]]) /\
    length sums = length row0 /\
    forall i, sums !! i =
      if decide (i < 2 * 1)%nat
      then Some (Sum 0 Z.add (column 0 [[1; 2]; [10; 20]; [100; 200]] i))
      else row0 !! i.
Proof.
  apply (xpny_sums_the_vectors 0 Z.add 2 1 1 2 3 [[1; 2]; [10; 20]; [100; 200]]
           [(0, 0)]%nat (fun _ => reverse (grid_threads 2 1))
           (fun _ => grid_threads 2 1)).
  - intros. lia.
  - intros. lia.
  - intros. lia.
  - unfold int_max. lia.
  - lia.
  - unfold int_max. change (3 / 2) with 1. lia.
  - unfold int_max. change (3 / 2) with 1. lia.
  - change (3 / 2) with 1. lia.
  - reflexivity.
  - intros row Hrow. repeat (apply elem_of_cons in Hrow as [->|Hrow]; [simpl; lia|]).
    by apply elem_of_nil in Hrow.
  - reflexivity.
  - intros _. apply reverse_Permutation.
  - intros _. reflexivity.
Defined.

(** X20: [xpny] with a single vector ([M = 1]), launched with one row of
    blocks and a shared array of at least one element: the kernel does not
    leave the vector as it is (the sum of one vector) but stores [zero] at
    every index of a thread in x; the final loop has nothing to add. *)
Theorem xpny_zeroes_a_single_vector {dType : Type} (zero : dType)
    (plus : dType -> dType -> dType) (X Y gx sharedLen : nat)
    (row0 : list dType) (blocks : list (nat * nat))
    (before after : nat * nat -> list (nat * nat)) :
  (0 < X)%nat -> (0 < Y)%nat -> Z.of_nat Y <= int_max ->
  Z.of_nat X * Z.of_nat gx <= int_max ->
  (1 <= sharedLen)%nat ->
  (X * gx <= length row0)%nat ->
  blocks ≡ₚ (fun bx => (bx, 0%nat)) <$> seq 0 gx ->
  (forall b, before b ≡ₚ grid_threads X Y) ->
  (forall b, after b ≡ₚ grid_threads X Y) ->
  exists sums,
    xpny zero plus X Y sharedLen 1 blocks before after [row0] = Some [sums] /\
    length sums = length row0 /\
    forall i, sums !! i = if decide (i < X * gx)%nat then Some zero else row0 !! i.
Proof.
  intros HX HY HYmax Hfit Hshared Hrow Hblocks Hbefore Hafter.
  destruct (xpny_effect zero plus X Y gx sharedLen 0 true [row0])
    with (blocks := blocks) (before := before) (after := after)
    as (r0 & sums & H0 & E & Hl & Hs);
    try done; try (unfold int_max; simpl; lia).
  { intros row ->%list_elem_of_singleton. done. }
  injection H0 as <-.
  exists sums. split; [exact E|]. split; [done|]. exact Hs.
Qed.

Lemma xpny_zeroes_a_single_vector_witness :
  exists sums,
    xpny 0 Z.add 2 1 1 1 [(0, 0)]%nat
      (fun _ => grid_threads 2 1) (fun _ => grid_threads 2 1) [[7; 8; 9]]
      = Some [sums] /\
    length sums = length [7; 8; 9] /\
    forall i, sums !! i = if decide (i < 2 * 1)%nat then Some 0 else [7; 8; 9] !! i.
Proof.
  apply (xpny_zeroes_a_single_vector 0 Z.add 2 1 1 1 [7; 8; 9] [(0, 0)]%nat
           (fun _ => grid_threads 2 1) (fun _ => grid_threads 2 1)).
  - lia.
  - lia.
  - unfold int_max. lia.
  - unfold int_max. lia.
  - lia.
  - simpl. lia.
  - reflexivity.
  - intros _. reflexivity.
  - intros _. reflexivity.
Defined.

End KernelProperties.
